(** * settings-view: package lifecycle orchestration and response caches

    A shallow embedding of [lib/package-manager.js] and
    [lib/atom-io-client.js].  The package manager is a state-passing model:
    every method is a function on the manager's state, and the callbacks a
    method hands to a child process are kept as data ([Process]) and run
    when the environment reports the outcome of that process. *)

From Stdlib Require Import ZArith Ascii String List Lia.
From stdpp Require Import base option gmap strings list sorting pretty.

Local Open Scope Z_scope.

(** ** Data model *)

(** [new Error(message)] with the properties the package manager adds. *)
Record Error := {
  message : string;
  stdout : string;
  stderr : string;
  packageInstallError : option bool
}.

Record InstallSource := { type : string; source : string }.

(** The properties of a [package.json] that the package manager reads.
    [None] is an absent property; for [theme] the boolean is the
    truthiness of the property's value. *)
Record Metadata := {
  md_name : option string;
  md_version : option string;
  md_theme : option bool;
  md_apmInstallSource : option InstallSource
}.

(** A package descriptor: [{name, version, theme, metadata,
    apmInstallSource}].  [theme] is the truthiness of [pack.theme]. *)
Record Pack := {
  name : string;
  version : option string;
  theme : bool;
  metadata : option Metadata;
  apmInstallSource : option InstallSource
}.

(** [Object.assign({}, pack, metadata)]: every property present in
    [metadata] replaces the descriptor's. *)
Definition assign (pack : Pack) (md : Metadata) : Pack :=
  {| name := default (name pack) (md_name md);
     version := match md_version md with Some v => Some v | None => version pack end;
     theme := default (theme pack) (md_theme md);
     metadata := metadata pack;
     apmInstallSource :=
       match md_apmInstallSource md with
       | Some s => Some s
       | None => apmInstallSource pack
       end |}.

(** What [JSON.parse] yields on the output of apm, as far as the package
    manager looks into it: a falsy value, an array of descriptors, or some
    other truthy value (kept as its text). *)
Inductive JSON :=
| JFalsy
| JArray (items : list Pack)
| JOther (text : string).

(** A value handed to a callback or stored in a promise. *)
Inductive Value :=
| Undefined
| Json (j : JSON)
| EventArg (pack : Pack) (alternative : string).

Inductive PromiseState :=
| Pending
| Fulfilled (v : Value)
| Rejected (e : Error).

(** A function passed as [callback]: one supplied by a caller of the
    package manager (opaque, identified by a tag), or the closure
    [(error, result) => error ? reject(error) : resolve(result)] around
    promise [p]. *)
Inductive Fn :=
| UserFunction (f : nat)
| Settle (p : nat).

(** The exit and error callbacks a method attaches to the process it
    spawns, with the variables they close over. *)
Inductive Process :=
| InstallProcess (pack : Pack) (activateOnSuccess activateOnFailure : bool)
    (errorMessage : string) (callback : option Fn)
| UninstallProcess (pack : Pack) (errorMessage : string) (callback : option Fn)
| UpdateProcess (pack : Pack) (errorMessage : string) (callback : option Fn)
| OutdatedProcess (errorMessage : string) (callback : Fn)
| ParseJSONProcess (errorMessage : string) (callback : Fn).

(** How a spawned process ends: it exits with a code after its output was
    collected, or it cannot be launched and [onWillThrowError] fires. *)
Inductive Outcome :=
| Exit (code : Z) (out err : string)
| WillThrowError (reason : string).

Inductive Payload :=
| PackEvent (pack : Pack) (error : option Error)
| AlternativeEvent (pack : Pack) (alternative : string) (error : option Error).

(** What the package manager does that is visible from outside, in the
    order it does it. *)
Inductive Effect :=
| Emit (eventName : string) (payload : Payload)
| Spawn (args : list string) (autoStart : bool)
| Called (f : nat) (error : option Error) (result : Value)
| CacheWrite (value : option (list Pack)) (expiry : Z)
| ConsoleError (text : string)
| Uncaught (kind : string).

Record OutdatedCache := { value : option (list Pack); expiry : Z }.

(** [Promise.all([uninstallPromise, installPromise])] of one
    [installAlternative] call, with the arguments of its two reactions. *)
Record Alternative := {
  uninstallPromise : nat;
  installPromise : nat;
  eventPack : Pack;
  eventAlternative : string;
  alternativeCallback : Fn
}.

(** The host application, as the package manager consumes it: the package
    registry [atom.packages], the configuration [atom.config], the version
    of the host, the two library functions [semver.valid] and
    [JSON.parse] ([inl] carries the message of the SyntaxError), and the
    property names the arrays of its JavaScript engine answer beyond those
    every engine answers ([values], [flat], [flatMap], [at], [findLast],
    ..., by the version of the engine). *)
Class Atom (H : Type) := {
  isPackageLoaded : string → H → bool;
  isPackageActive : string → H → bool;
  isPackageDisabled : string → H → bool;
  activatePackage : string → H → H;
  loadPackageInHost : string → H → H;
  unloadPackage : string → H → H;
  deactivatePackage : string → H → H;
  removeDisabledPackage : string → H → H;
  useProxySettingsWhenCallingApm : H → bool;
  versionPinnedPackages : H → list string;
  getVersion : H → string;
  semver_valid : string → bool;
  JSON_parse : string → string + JSON;
  furtherArrayMembers : list string
}.

Section PackageManager.
Context {H : Type} `{Atom H}.

Record PackageManager := {
  apmCache_loadOutdated : OutdatedCache;
  packagePromises : gmap string nat;
  promises : gmap nat PromiseState;
  nextPromise : nat;
  alternatives : list Alternative;
  host : H;
  trace : list Effect
}.

Definition CACHE_EXPIRY : Z := 1000 * 60 * 10.

Definition record (e : Effect) (st : PackageManager) : PackageManager :=
  {| apmCache_loadOutdated := apmCache_loadOutdated st;
     packagePromises := packagePromises st;
     promises := promises st;
     nextPromise := nextPromise st;
     alternatives := alternatives st;
     host := host st;
     trace := trace st ++ [e] |}.

Definition onHost (f : H → H) (st : PackageManager) : PackageManager :=
  {| apmCache_loadOutdated := apmCache_loadOutdated st;
     packagePromises := packagePromises st;
     promises := promises st;
     nextPromise := nextPromise st;
     alternatives := alternatives st;
     host := f (host st);
     trace := trace st |}.

Definition setPromise (p : nat) (s : PromiseState) (st : PackageManager) : PackageManager :=
  {| apmCache_loadOutdated := apmCache_loadOutdated st;
     packagePromises := packagePromises st;
     promises := <[p := s]> (promises st);
     nextPromise := nextPromise st;
     alternatives := alternatives st;
     host := host st;
     trace := trace st |}.

(** [new Promise(...)]: a fresh pending promise. *)
Definition newPromise (st : PackageManager) : nat * PackageManager :=
  (nextPromise st,
   {| apmCache_loadOutdated := apmCache_loadOutdated st;
      packagePromises := packagePromises st;
      promises := <[nextPromise st := Pending]> (promises st);
      nextPromise := S (nextPromise st);
      alternatives := alternatives st;
      host := host st;
      trace := trace st |}).

(** [resolve] and [reject] act on a pending promise only. *)
Definition settle (p : nat) (s : PromiseState) (st : PackageManager) : PackageManager :=
  match promises st !! p with
  | Some Pending => setPromise p s st
  | _ => st
  end.

(** [callback(error, result)] for a callback that is a function. *)
Definition call (callback : Fn) (error : option Error) (result : Value)
    (st : PackageManager) : PackageManager :=
  match callback with
  | UserFunction f => record (Called f error result) st
  | Settle p =>
      match error with
      | Some e => settle p (Rejected e) st
      | None => settle p (Fulfilled result) st
      end
  end.

(** [typeof callback === 'function' ? callback(error) : undefined] *)
Definition callIfFunction (callback : option Fn) (error : option Error)
    (st : PackageManager) : PackageManager :=
  match callback with
  | Some f => call f error Undefined st
  | None => st
  end.

Definition setLoadOutdated (v : option (list Pack)) (e : Z)
    (st : PackageManager) : PackageManager :=
  {| apmCache_loadOutdated := {| value := v; expiry := e |};
     packagePromises := packagePromises st;
     promises := promises st;
     nextPromise := nextPromise st;
     alternatives := alternatives st;
     host := host st;
     trace := trace st ++ [CacheWrite v e] |}.

Definition clearOutdatedCache : PackageManager → PackageManager :=
  setLoadOutdated None 0.

(** [pack.theme || (pack.metadata && pack.metadata.theme)] *)
Definition isTheme (pack : Pack) : bool :=
  theme pack ||
  match metadata pack with
  | Some md => default false (md_theme md)
  | None => false
  end.

Definition emitPackageEvent (eventName : string) (pack : Pack)
    (error : option Error) (st : PackageManager) : PackageManager :=
  let eventName :=
    if isTheme pack then "theme-" +:+ eventName else "package-" +:+ eventName in
  record (Emit eventName (PackEvent pack error)) st.

Definition createJsonParseError (msg parseErrorMessage out : string) : Error :=
  {| message := msg; stdout := "";
     stderr := parseErrorMessage +:+ ": " +:+ out;
     packageInstallError := None |}.

Definition createProcessError (msg processErrorMessage : string) : Error :=
  {| message := msg; stdout := ""; stderr := processErrorMessage;
     packageInstallError := None |}.

(** [new Error(errorMessage)] with [stdout] and [stderr] attached. *)
Definition exitError (msg out err : string) : Error :=
  {| message := msg; stdout := out; stderr := err; packageInstallError := None |}.

Definition withInstallFlag (b : bool) (e : Error) : Error :=
  {| message := message e; stdout := stdout e; stderr := stderr e;
     packageInstallError := Some b |}.

(** [runCommand]: appends [--no-color] and creates the buffered process,
    started at once or, with the proxy setting, once the proxies are
    resolved.  The process object carries the callbacks. *)
Definition runCommand (args : list string) (proc : Process)
    (st : PackageManager) : Process * PackageManager :=
  (proc,
   record (Spawn (args ++ ["--no-color"])
             (negb (useProxySettingsWhenCallingApm (host st)))) st).

Definition unload (name : string) (st : PackageManager) : PackageManager :=
  if isPackageLoaded name (host st) then
    let st :=
      if isPackageActive name (host st) then onHost (deactivatePackage name) st
      else st in
    onHost (unloadPackage name) st
  else st.

(** [args.push('--compatible', version)] when the host version is valid. *)
Definition compatibleArgs (st : PackageManager) : list string :=
  let version := getVersion (host st) in
  if semver_valid version then ["--compatible"; version] else [].

Definition runApmCommandAndParseJSON (args : list string) (errorMessage : string)
    (callback : Fn) (st : PackageManager) : Process * PackageManager :=
  runCommand args (ParseJSONProcess errorMessage callback) st.

Definition loadPackage (packageName : string) (callback : Fn)
    (st : PackageManager) : Process * PackageManager :=
  runApmCommandAndParseJSON ["view"; packageName; "--json"]
    ("Fetching package '" +:+ packageName +:+ "' failed.") callback st.

(** [loadOutdated(clearCache, callback)] at time [now]; [None] when the
    call is answered from the cache and no process is created. *)
Definition loadOutdated (clearCache : bool) (callback : Fn) (now : Z)
    (st : PackageManager) : option Process * PackageManager :=
  let fresh (st : PackageManager) :=
    let args := ["outdated"; "--json"] ++ compatibleArgs st in
    let errorMessage := "Fetching outdated packages and themes failed." in
    let '(proc, st) := runCommand args (OutdatedProcess errorMessage callback) st in
    (Some proc, st) in
  if clearCache then fresh (clearOutdatedCache st)
  else
    match value (apmCache_loadOutdated st) with
    | Some v =>
        if expiry (apmCache_loadOutdated st) >? now
        then (None, call callback None (Json (JArray v)) st)
        else fresh st
    | None => fresh st
    end.

Definition update (pack : Pack) (newVersion : option string)
    (callback : option Fn) (st : PackageManager) : Process * PackageManager :=
  let errorMessage :=
    match newVersion with
    | Some (String c v) =>
        "Updating to “" +:+ name pack +:+ "@" +:+ String c v +:+ "” failed."
    | _ => "Updating to latest sha failed."
    end in
  let git :=
    match apmInstallSource pack with
    | Some s => if decide (type s = "git") then Some (source s) else None
    | None => None
    end in
  let args :=
    match git with
    | Some src => ["install"; src]
    | None => ["install"; name pack +:+ "@" +:+ default "undefined" newVersion]
    end in
  let st := emitPackageEvent "updating" pack None st in
  runCommand args (UpdateProcess pack errorMessage callback) st.

Definition install (pack : Pack) (callback : option Fn)
    (st : PackageManager) : Process * PackageManager :=
  let activateOnSuccess :=
    negb (theme pack) && negb (isPackageDisabled (name pack) (host st)) in
  let activateOnFailure := isPackageActive (name pack) (host st) in
  let nameWithVersion :=
    match version pack with
    | Some v => name pack +:+ "@" +:+ v
    | None => name pack
    end in
  let st := unload (name pack) st in
  let args := ["install"; nameWithVersion; "--json"] in
  let errorMessage := "Installing “" +:+ nameWithVersion +:+ "” failed." in
  let st := emitPackageEvent "installing" pack None st in
  runCommand args
    (InstallProcess pack activateOnSuccess activateOnFailure errorMessage callback) st.

Definition uninstall (pack : Pack) (callback : option Fn)
    (st : PackageManager) : Process * PackageManager :=
  let st :=
    if isPackageActive (name pack) (host st)
    then onHost (deactivatePackage (name pack)) st else st in
  let errorMessage := "Uninstalling “" +:+ name pack +:+ "” failed." in
  let st := emitPackageEvent "uninstalling" pack None st in
  runCommand ["uninstall"; "--hard"; name pack]
    (UninstallProcess pack errorMessage callback) st.

(** The [onError] closure of an operation, applied to [error]. *)
Definition onError (proc : Process) (error : Error)
    (st : PackageManager) : PackageManager :=
  match proc with
  | InstallProcess pack _ _ _ callback =>
      let error := withInstallFlag (negb (theme pack)) error in
      let st := emitPackageEvent "install-failed" pack (Some error) st in
      callIfFunction callback (Some error) st
  | UninstallProcess pack _ callback =>
      let st := emitPackageEvent "uninstall-failed" pack (Some error) st in
      callIfFunction callback (Some error) st
  | UpdateProcess pack _ callback =>
      let error := withInstallFlag (negb (theme pack)) error in
      let st := emitPackageEvent "update-failed" pack (Some error) st in
      callIfFunction callback (Some error) st
  | OutdatedProcess _ callback => call callback (Some error) Undefined st
  | ParseJSONProcess _ callback => call callback (Some error) Undefined st
  end.

Definition errorMessageOf (proc : Process) : string :=
  match proc with
  | InstallProcess _ _ _ m _ => m
  | UninstallProcess _ m _ => m
  | UpdateProcess _ m _ => m
  | OutdatedProcess m _ => m
  | ParseJSONProcess m _ => m
  end.

(** The descriptor [install] ends with after reading the output of apm:
    [Object.assign({}, pack, JSON.parse(stdout)[0].metadata)], or [pack]
    itself when the [try] block throws. *)
Definition installedPack (pack : Pack) (out : string) : Pack :=
  match JSON_parse out with
  | inr (JArray (packageInfo :: _)) =>
      match metadata packageInfo with
      | Some md => assign pack md
      | None => pack
      end
  | _ => pack
  end.

(** The exit callback of a process: [exit(code, stdout, stderr)] at time
    [now]. *)
Definition exit (proc : Process) (code : Z) (out err : string) (now : Z)
    (st : PackageManager) : PackageManager :=
  match proc with
  | InstallProcess pack activateOnSuccess activateOnFailure errorMessage callback =>
      if decide (code = 0) then
        let pack' := installedPack pack out in
        let st := clearOutdatedCache st in
        let st :=
          if activateOnSuccess then onHost (activatePackage (name pack')) st
          else onHost (loadPackageInHost (name pack')) st in
        let st := callIfFunction callback None st in
        emitPackageEvent "installed" pack' None st
      else
        let st :=
          if activateOnFailure then onHost (activatePackage (name pack)) st
          else st in
        onError proc (exitError errorMessage out err) st
  | UninstallProcess pack errorMessage callback =>
      if decide (code = 0) then
        let st := clearOutdatedCache st in
        let st := unload (name pack) st in
        let st := onHost (removeDisabledPackage (name pack)) st in
        let st := callIfFunction callback None st in
        emitPackageEvent "uninstalled" pack None st
      else onError proc (exitError errorMessage out err) st
  | UpdateProcess pack errorMessage callback =>
      if decide (code = 0) then
        let st := clearOutdatedCache st in
        let st := callIfFunction callback None st in
        emitPackageEvent "updated" pack None st
      else onError proc (exitError errorMessage out err) st
  | OutdatedProcess errorMessage callback =>
      if decide (code = 0) then
        match JSON_parse out with
        | inl parseError =>
            call callback
              (Some (createJsonParseError errorMessage parseError out)) Undefined st
        | inr (JOther _) => record (Uncaught "TypeError") st
        | inr j =>
            let packages := match j with JArray l => l | _ => [] end in
            let pinned := versionPinnedPackages (host st) in
            let updatablePackages :=
              filter (λ pack, name pack ∉ pinned) packages in
            let st := setLoadOutdated (Some updatablePackages) (now + CACHE_EXPIRY) st in
            let st :=
              foldl (λ st pack, emitPackageEvent "update-available" pack None st)
                st updatablePackages in
            call callback None (Json (JArray updatablePackages)) st
        end
      else call callback (Some (exitError errorMessage out err)) Undefined st
  | ParseJSONProcess errorMessage callback =>
      if decide (code = 0) then
        match JSON_parse out with
        | inl parseError =>
            call callback
              (Some (createJsonParseError errorMessage parseError out)) Undefined st
        | inr JFalsy => call callback None (Json (JArray [])) st
        | inr j => call callback None (Json j) st
        end
      else call callback (Some (exitError errorMessage out err)) Undefined st
  end.

(** [handleProcessErrors]: the handler registered with [onWillThrowError]. *)
Definition handleProcessErrors (proc : Process) (reason : string)
    (st : PackageManager) : PackageManager :=
  onError proc (createProcessError (errorMessageOf proc) reason) st.

(** The process [proc] ends with [outcome] at time [now]. *)
Definition complete (proc : Process) (outcome : Outcome) (now : Z)
    (st : PackageManager) : PackageManager :=
  match outcome with
  | Exit code out err => exit proc code out err now st
  | WillThrowError reason => handleProcessErrors proc reason st
  end.

(** The property names a JavaScript array answers without holding an entry
    under them, on every engine that runs the package manager: its
    [length] and the members of [Array.prototype] and [Object.prototype]
    up to [includes], which the package manager itself calls.  None of
    these values is [null].  What a later engine adds to them is
    [furtherArrayMembers] of the host. *)
Definition arrayMembers : list string :=
  ["length"; "constructor"; "toString"; "toLocaleString"; "join"; "pop";
   "push"; "concat"; "reverse"; "shift"; "unshift"; "slice"; "splice";
   "sort"; "filter"; "forEach"; "some"; "every"; "map"; "indexOf";
   "lastIndexOf"; "reduce"; "reduceRight"; "copyWithin"; "find";
   "findIndex"; "fill"; "includes"; "keys"; "entries";
   "hasOwnProperty"; "isPrototypeOf"; "propertyIsEnumerable"; "valueOf";
   "__proto__"; "__defineGetter__"; "__defineSetter__"; "__lookupGetter__";
   "__lookupSetter__"].

(** What [getPackage] returns: a promise, or a member of the array
    [packagePromises] that is not one. *)
Inductive Returned :=
| PromiseRef (p : nat)
| ArrayMember (key : string).

(** [packagePromises] is created as the array [[]] and used as a map from
    names to promises; [packagePromises[packageName] != null] also holds for
    the members an array has on the engine of the host. *)
Definition getPackage (packageName : string)
    (st : PackageManager) : Returned * PackageManager :=
  match packagePromises st !! packageName with
  | Some p => (PromiseRef p, st)
  | None =>
      if decide (packageName ∈ arrayMembers) then (ArrayMember packageName, st)
      else if decide (packageName ∈ furtherArrayMembers) then
        (ArrayMember packageName, st)
      else
        let '(p, st) := newPromise st in
        let '(_, st) := loadPackage packageName (Settle p) st in
        (PromiseRef p,
         {| apmCache_loadOutdated := apmCache_loadOutdated st;
            packagePromises := <[packageName := p]> (packagePromises st);
            promises := promises st;
            nextPromise := nextPromise st;
            alternatives := alternatives st;
            host := host st;
            trace := trace st |})
  end.

(** [installAlternative]: the two operations are started one after the
    other, each inside the executor of its promise, and the reactions of
    [Promise.all] are left pending.  Returns the two processes. *)
Definition installAlternative (pack : Pack) (alternativePackageName : string)
    (callback : Fn) (st : PackageManager) : (Process * Process) * PackageManager :=
  let st :=
    record (Emit "package-installing-alternative"
              (AlternativeEvent pack alternativePackageName None)) st in
  let '(pu, st) := newPromise st in
  let '(uninstallProcess, st) := uninstall pack (Some (Settle pu)) st in
  let '(pi, st) := newPromise st in
  let '(installProcess, st) :=
    install {| name := alternativePackageName; version := None; theme := false;
               metadata := None; apmInstallSource := None |}
      (Some (Settle pi)) st in
  (uninstallProcess, installProcess,
   {| apmCache_loadOutdated := apmCache_loadOutdated st;
      packagePromises := packagePromises st;
      promises := promises st;
      nextPromise := nextPromise st;
      alternatives :=
        alternatives st ++
        [{| uninstallPromise := pu; installPromise := pi; eventPack := pack;
            eventAlternative := alternativePackageName;
            alternativeCallback := callback |}];
      host := host st;
      trace := trace st |}).

(** The [then] reaction of [installAlternative]. *)
Definition alternativeInstalled (job : Alternative)
    (st : PackageManager) : PackageManager :=
  let st :=
    call (alternativeCallback job) None
      (EventArg (eventPack job) (eventAlternative job)) st in
  record (Emit "package-installed-alternative"
            (AlternativeEvent (eventPack job) (eventAlternative job) None)) st.

(** The [catch] reaction of [installAlternative]. *)
Definition alternativeFailed (job : Alternative) (error : Error)
    (st : PackageManager) : PackageManager :=
  let st := record (ConsoleError (message error)) st in
  let st :=
    call (alternativeCallback job) (Some error)
      (EventArg (eventPack job) (eventAlternative job)) st in
  record (Emit "package-install-alternative-failed"
            (AlternativeEvent (eventPack job) (eventAlternative job) (Some error))) st.

(** [Promise.all] settles as soon as one of its promises is rejected, or
    when all of them are fulfilled; a job that settles runs its reaction and
    is done, the others stay. *)
Fixpoint react (jobs : list Alternative)
    (st : PackageManager) : list Alternative * PackageManager :=
  match jobs with
  | [] => ([], st)
  | job :: jobs =>
      match promises st !! uninstallPromise job, promises st !! installPromise job with
      | Some (Rejected e), _ => react jobs (alternativeFailed job e st)
      | _, Some (Rejected e) => react jobs (alternativeFailed job e st)
      | Some (Fulfilled _), Some (Fulfilled _) => react jobs (alternativeInstalled job st)
      | _, _ => let '(rest, st) := react jobs st in (job :: rest, st)
      end
  end.

(** The promise reactions that run once the current callback has returned. *)
Definition runMicrotasks (st : PackageManager) : PackageManager :=
  let '(rest, st) := react (alternatives st) st in
  {| apmCache_loadOutdated := apmCache_loadOutdated st;
     packagePromises := packagePromises st;
     promises := promises st;
     nextPromise := nextPromise st;
     alternatives := rest;
     host := host st;
     trace := trace st |}.

(** One turn of the event loop: the callbacks of the finished process,
    then the promise reactions they enabled. *)
Definition deliver (proc : Process) (outcome : Outcome) (now : Z)
    (st : PackageManager) : PackageManager :=
  runMicrotasks (complete proc outcome now st).

(** The state of [new PackageManager()] in host [h]: the constructor
    clears the outdated cache. *)
Definition newPackageManager (h : H) : PackageManager :=
  clearOutdatedCache
    {| apmCache_loadOutdated := {| value := None; expiry := 0 |};
       packagePromises := ∅;
       promises := ∅;
       nextPromise := 0;
       alternatives := [];
       host := h;
       trace := [] |}.

End PackageManager.

Arguments PackageManager H : clear implicits.

(** ** The atom.io client: registry cache and avatar files *)

(** [s.split(sep)] for a separator of one character. *)
Fixpoint split (sep : ascii) (s : string) : list string :=
  match s with
  | EmptyString => [EmptyString]
  | String c rest =>
      if decide (c = sep) then EmptyString :: split sep rest
      else
        match split sep rest with
        | part :: parts => String c part :: parts
        | [] => [String c EmptyString]
        end
  end.

(** [parts.join(sep)] *)
Definition join (sep : string) (parts : list string) : string :=
  String.concat sep parts.

(** [array.sort()] on strings: ascending by code units. *)
Definition sort (l : list string) : list string := merge_sort String.le l.

Definition digit (c : ascii) : option Z :=
  let n := Z.of_nat (nat_of_ascii c) in
  if decide (48 ≤ n ≤ 57) then Some (n - 48) else None.

Fixpoint digits (acc : Z) (s : string) : Z :=
  match s with
  | EmptyString => acc
  | String c rest =>
      match digit c with
      | Some d => digits (10 * acc + d) rest
      | None => acc
      end
  end.

(** [parseInt] on the texts it is given here, the run of decimal digits
    that ends the name of an avatar file: the number they spell, or [None]
    for NaN when the text does not start with a digit. *)
Definition parseInt (s : string) : option Z :=
  match s with
  | EmptyString => None
  | String c _ =>
      match digit c with
      | Some _ => Some (digits 0 s)
      | None => None
      end
  end.

(** [path.basename] of a POSIX path. *)
Definition basename (p : string) : string :=
  default p (last (split "/" p)).

(** 12 hour expiry *)
Definition expiry_ms : Z := 1000 * 60 * 60 * 12.

Definition cacheKeyForPath (path : string) : string := "settings-view:" +:+ path.

Section RegistryCache.
Context {Data : Type}.

(** An entry of [localStorage] as the client writes it:
    [JSON.stringify({data, createdOn})]. *)
Record CacheEntry := { data : Data; createdOn : Z }.

(** The second argument [fetchFromCache] passes to its callback. *)
Inductive Fetched :=
| CachedData (d : Data)
| EmptyObject
| Null.

(** The caching step shared by [request] and [getFeatured]. *)
Definition cache (path : string) (d : Data) (now : Z)
    (localStorage : gmap string CacheEntry) : gmap string CacheEntry :=
  <[cacheKeyForPath path := {| data := d; createdOn := now |}]> localStorage.

(** [fetchFromCache(packagePath, options, callback)] at time [now]; the
    result is the pair of arguments the callback receives.  [force] is the
    truthiness of [options.force], [false] when no options are passed. *)
Definition fetchFromCache (packagePath : string) (force : bool)
    (online : bool) (now : Z) (localStorage : gmap string CacheEntry)
    : option Error * Fetched :=
  let force := if negb force then negb online else force in
  let cached := localStorage !! cacheKeyForPath packagePath in
  match cached with
  | Some entry =>
      if negb online || force || (now - createdOn entry <? expiry_ms)
      then (None, CachedData (data entry))
      else (None, Null)
  | None =>
      if negb online then (None, EmptyObject) else (None, Null)
  end.

End RegistryCache.

Arguments CacheEntry Data : clear implicits.
Arguments Fetched Data : clear implicits.

(** *** Avatars *)

(** The text after the last [-] of a file name or path. *)
Definition stamp (p : string) : string := default "" (last (split "-" p)).

(** [cachedAvatar]: [files] is what [glob] found for the login, or the
    error it reported.  The result is the pair of arguments of the
    callback. *)
Definition cachedAvatar (files : string + list string) (now : Z)
    : option string * option string :=
  match files with
  | inl err => (Some err, None)
  | inr files =>
      let files := reverse (sort files) in
      (None,
       find
         (λ imagePath,
            match parseInt (stamp (basename imagePath)) with
            | Some createdOn => bool_decide (now - createdOn < expiry_ms)
            | None => false
            end) files)
  end.

(** What [avatar] ends with: it calls back, or it starts to download a
    fresh copy for the login. *)
Inductive Avatar :=
| Answer (error : option string) (imagePath : option string)
| Download (login : string).

Definition fetchAndCacheAvatar (login : string) (online : bool) : Avatar :=
  if negb online then Answer None None else Download login.

Definition avatar (login : string) (files : string + list string)
    (online : bool) (now : Z) : Avatar :=
  let '(_, cached) := cachedAvatar files now in
  match cached with
  | Some cached =>
      let stale :=
        match parseInt (stamp cached) with
        | Some createdOn => bool_decide (now - createdOn > expiry_ms)
        | None => false
        end in
      if negb stale || negb online then Answer None (Some cached)
      else fetchAndCacheAvatar login online
  | None => fetchAndCacheAvatar login online
  end.

(** The property names every plain object answers through
    [Object.prototype]; none of the values has a [push]. *)
Definition objectMembers : list string :=
  ["constructor"; "toString"; "toLocaleString"; "valueOf"; "hasOwnProperty";
   "isPrototypeOf"; "propertyIsEnumerable"; "__proto__"; "__defineGetter__";
   "__defineSetter__"; "__lookupGetter__"; "__lookupSetter__"].

(** The login part of a file name: [parts.join('-')] once the stamp is
    popped. *)
Definition loginOf (filename : string) : string :=
  join "-" (removelast (split "-" filename)).

(** [files[key].push(child)] on the object [files], kept as its own
    properties in the order they were added. *)
Fixpoint push (key child : string) (files : list (string * list string))
    : list (string * list string) :=
  match files with
  | [] => [(key, [child])]
  | (k, children) :: rest =>
      if decide (k = key) then (k, children ++ [child]) :: rest
      else (k, children) :: push key child rest
  end.

(** [files[key]], the children collected under [key] so far. *)
Fixpoint childrenOf (key : string) (files : list (string * list string))
    : list string :=
  match files with
  | [] => []
  | (k, children) :: rest =>
      if decide (k = key) then children else childrenOf key rest
  end.

(** The groups hold, under distinct keys, the names seen so far by
    login, and a key for every login seen. *)
Definition grouped (files : list (string * list string)) (seen : list string) : Prop :=
  NoDup files.*1 ∧
  (∀ k, childrenOf k files = filter (λ c, loginOf c = k) seen) ∧
  (∀ k, k ∈ files.*1 ↔ ∃ c, c ∈ seen ∧ loginOf c = k).

(** The first loop of [expireAvatarCache]; [None] when
    [files[key].push] is not a function and the loop throws. *)
Fixpoint groupByLogin (_files : list string) (files : list (string * list string))
    : option (list (string * list string)) :=
  match _files with
  | [] => Some files
  | filename :: rest =>
      let key := loginOf filename in
      let child := key +:+ "-" +:+ stamp filename in
      if decide (key ∈ files.*1) then groupByLogin rest (push key child files)
      else if decide (key ∈ objectMembers) then None
      else groupByLogin rest (push key child files)
  end.

(** [fs.unlink] on an entry of the cache directory: the error code, if
    any, and the directory afterwards.  An entry that is not there gives
    ENOENT.  One that is there is removed, unless the file system refuses:
    [refused] is then the code it answers for the entry (EISDIR for a
    directory, EPERM, EACCES, EBUSY), and the entry stays. *)
Definition unlink (refused : string → option string) (child : string)
    (dir : gset string) : option string * gset string :=
  if decide (child ∈ dir) then
    match refused child with
    | Some code => (Some code, dir)
    | None => (None, dir ∖ {[child]})
    end
  else (Some "ENOENT", dir).

(** [deleteAvatar]: the directory and the warnings printed so far.  The
    path is [path.join(cachePath, child)] for a cache path without a
    trailing separator. *)
Definition deleteAvatar (cachePath : string) (refused : string → option string)
    (st : gset string * list string) (child : string)
    : gset string * list string :=
  let '(dir, warnings) := st in
  let avatarPath := cachePath +:+ "/" +:+ child in
  let '(error, dir) := unlink refused child dir in
  match error with
  | Some code =>
      if decide (code = "ENOENT") then (dir, warnings)
      else
        (dir, warnings ++ ["Error deleting avatar (" +:+ code +:+ "): " +:+ avatarPath])
  | None => (dir, warnings)
  end.

(** The children of one login that the sweep deletes: all but the last
    of the sorted names. *)
Definition expired (children : list string) : list string :=
  removelast (sort children).

(** [expireAvatarCache] on the listing [_files] of the directory
    ([None] when [readdir] failed); [None] when the callback throws. *)
Definition expireAvatarCache (cachePath : string) (refused : string → option string)
    (_files : option (list string)) (dir : gset string)
    : option (gset string * list string) :=
  files ← groupByLogin (default [] _files) [];
  Some (foldl (λ st group, foldl (deleteAvatar cachePath refused) st (expired group.2))
          (dir, []) files).

(** *** Search *)

Record Releases := { latest : option string }.

(** An element of the body the registry answers a search with. *)
Record SearchEntry := {
  releases : option Releases;
  readme : option string;
  entryMetadata : Metadata;
  downloads : Z;
  stargazers_count : Z
}.

(** [Object.assign(metadata, {readme, downloads, stargazers_count})] *)
Record Summary := {
  summaryMetadata : Metadata;
  summaryReadme : option string;
  summaryDownloads : Z;
  summaryStargazers : Z
}.

Inductive Exception :=
| ReferenceError (identifier : string)
| TypeError (text : string).

(** [pkg => pkg.releases && releases.latest]: the second operand reads the
    variable [releases], which no scope of the module declares. *)
Definition hasRelease (pkg : SearchEntry) : Exception + bool :=
  match releases pkg with
  | Some _ => inl (ReferenceError "releases")
  | None => inr false
  end.

(** [array.filter] with a predicate that may throw. *)
Fixpoint filterThrowing {A} (p : A → Exception + bool) (l : list A)
    : Exception + list A :=
  match l with
  | [] => inr []
  | x :: rest =>
      match p x with
      | inl e => inl e
      | inr keep =>
          match filterThrowing p rest with
          | inl e => inl e
          | inr kept => inr (if keep then x :: kept else kept)
          end
      end
  end.

Definition summarize (pkg : SearchEntry) : Summary :=
  {| summaryMetadata := entryMetadata pkg;
     summaryReadme := readme pkg;
     summaryDownloads := downloads pkg;
     summaryStargazers := stargazers_count pkg |}.

(** [(a, b) => b.downloads - a.downloads] puts [a] first when it is not
    behind [b]. *)
Definition byDownloads (a b : Summary) : Prop :=
  summaryDownloads b ≤ summaryDownloads a.

#[global] Instance byDownloads_dec : RelDecision byDownloads.
Proof. intros a b. unfold byDownloads. apply _. Defined.

(** How the promise of [search] ends: resolved, rejected, or left pending
    by an exception thrown in the callback of the request. *)
Inductive Searched :=
| Resolved (packages : list Summary)
| RejectedWith (error : Error)
| Thrown (e : Exception).

(** [search(query, options)], given what the request answers: an error
    message or the parsed body. *)
Definition search (query : string) (response : string + list SearchEntry) : Searched :=
  match response with
  | inl err =>
      RejectedWith
        {| message := "Searching for “" +:+ query +:+ "” failed.";
           stdout := ""; stderr := err; packageInstallError := None |}
  | inr body =>
      match filterThrowing hasRelease body with
      | inl e => Thrown e
      | inr kept => Resolved (merge_sort byDownloads (summarize <$> kept))
      end
  end.

(** ** Vocabulary of the statements *)

Section Observations.
Context {H : Type} `{Atom H}.

(** What the package manager did between state [st] and a later [st']. *)
Definition since (st st' : PackageManager H) : list Effect :=
  drop (length (trace st)) (trace st').

(** The names of the events emitted in a stretch of the trace. *)
Definition emitted (tr : list Effect) : list string :=
  omap (λ e, match e with Emit eventName _ => Some eventName | _ => None end) tr.

Definition spawned (tr : list Effect) : list (list string) :=
  omap (λ e, match e with Spawn args _ => Some args | _ => None end) tr.

(** The three lifecycle operations. *)
Inductive Operation :=
| Install (pack : Pack)
| Uninstall (pack : Pack)
| Update (pack : Pack) (newVersion : option string).

Definition start (op : Operation) (callback : option Fn)
    (st : PackageManager H) : Process * PackageManager H :=
  match op with
  | Install pack => install pack callback st
  | Uninstall pack => uninstall pack callback st
  | Update pack newVersion => update pack newVersion callback st
  end.

Definition packOf (op : Operation) : Pack :=
  match op with
  | Install pack | Uninstall pack | Update pack _ => pack
  end.

Definition kind (pack : Pack) : string :=
  if isTheme pack then "theme-" else "package-".

Definition started (op : Operation) : string :=
  match op with
  | Install _ => "installing"
  | Uninstall _ => "uninstalling"
  | Update _ _ => "updating"
  end.

Definition succeeded (op : Operation) : string :=
  match op with
  | Install _ => "installed"
  | Uninstall _ => "uninstalled"
  | Update _ _ => "updated"
  end.

Definition failed (op : Operation) : string :=
  match op with
  | Install _ => "install-failed"
  | Uninstall _ => "uninstall-failed"
  | Update _ _ => "update-failed"
  end.

(** A process succeeds when it exits with code 0. *)
Definition ok (outcome : Outcome) : bool :=
  match outcome with
  | Exit code _ _ => bool_decide (code = 0)
  | WillThrowError _ => false
  end.

(** The terminal event an operation owes to an outcome, with the
    descriptor it carries: [install] reports success on the descriptor
    merged with the metadata apm printed. *)
Definition terminal (op : Operation) (outcome : Outcome) : string :=
  match op, outcome with
  | Install pack, Exit 0 out _ => kind (installedPack pack out) +:+ "installed"
  | _, _ =>
      kind (packOf op) +:+ (if ok outcome then succeeded op else failed op)
  end.

Definition isTerminal (op : Operation) (eventName : string) : bool :=
  bool_decide (eventName ∈
    ["package-" +:+ succeeded op; "theme-" +:+ succeeded op;
     "package-" +:+ failed op; "theme-" +:+ failed op]).

(** The content of the outdated cache at the moment the first event that
    satisfies [stop] is emitted, replaying the writes of the trace from
    the content [c]. *)
Fixpoint cacheWhenEmitted (stop : string → bool) (c : OutdatedCache)
    (tr : list Effect) : option OutdatedCache :=
  match tr with
  | [] => None
  | CacheWrite v e :: tr => cacheWhenEmitted stop {| value := v; expiry := e |} tr
  | Emit eventName _ :: tr =>
      if stop eventName then Some c else cacheWhenEmitted stop c tr
  | _ :: tr => cacheWhenEmitted stop c tr
  end.

Definition emptyCache : OutdatedCache := {| value := None; expiry := 0 |}.

Definition isComposite (eventName : string) : bool :=
  bool_decide (eventName ∈
    ["package-installed-alternative"; "package-install-alternative-failed"]).

(** The terminal events of [installAlternative] in a stretch of the trace. *)
Definition compositeEvents (tr : list Effect) : list string :=
  List.filter isComposite (emitted tr).

(** The [apm view] invocations for [packageName] in a trace. *)
Definition viewsOf (packageName : string) (tr : list Effect) : list (list string) :=
  List.filter (λ args, bool_decide (args = ["view"; packageName; "--json"; "--no-color"]))
    (spawned tr).

(** The events [loadOutdated] announces for a list of packages. *)
Definition updateAvailable (packages : list Pack) : list Effect :=
  (λ pack, Emit (kind pack +:+ "update-available") (PackEvent pack None)) <$> packages.

(** What an optional callback adds to the trace when an operation ends. *)
Definition callsOf (callback : option Fn) (error : option Error) : list Effect :=
  match callback with
  | Some (UserFunction f) => [Called f error Undefined]
  | _ => []
  end.

Definition isEmit (e : Effect) : bool :=
  match e with Emit _ _ => true | _ => false end.

(** One turn of the event loop in a run that uses [getPackage]: a caller
    asks for a package, or a process ends. *)
Inductive Turn :=
| GetPackage (packageName : string)
| ProcessEnds (proc : Process) (outcome : Outcome) (now : Z).

Definition turn (st : PackageManager H) (t : Turn) : PackageManager H :=
  match t with
  | GetPackage packageName => (getPackage packageName st).2
  | ProcessEnds proc outcome now => deliver proc outcome now st
  end.

Definition run (turns : list Turn) (st : PackageManager H) : PackageManager H :=
  foldl turn st turns.

End Observations.

(** ** Fixtures *)

(** A host without packages, whose apm prints either the empty array or
    text that does not parse. *)
#[global] Instance bareAtom : Atom unit := {|
  isPackageLoaded _ _ := false;
  isPackageActive _ _ := false;
  isPackageDisabled _ _ := false;
  activatePackage _ h := h;
  loadPackageInHost _ h := h;
  unloadPackage _ h := h;
  deactivatePackage _ h := h;
  removeDisabledPackage _ h := h;
  useProxySettingsWhenCallingApm _ := false;
  versionPinnedPackages _ := ["pinned"];
  getVersion _ := "1.0.0";
  semver_valid _ := true;
  JSON_parse out :=
    if decide (out = "[]") then inr (JArray []) else inl "Unexpected token";
  furtherArrayMembers := ["values"; "flat"; "flatMap"; "at"; "findLast"; "findLastIndex"]
|}.

Definition plain (n : string) : Pack :=
  {| name := n; version := None; theme := false; metadata := None;
     apmInstallSource := None |}.

(** A manager whose outdated cache was filled at time 1000. *)
Definition warm : PackageManager unit :=
  setLoadOutdated (Some [plain "foo"]) (1000 + CACHE_EXPIRY) (newPackageManager ()).

(** The body of a search answer with one published package. *)
Definition published : SearchEntry :=
  {| releases := Some {| latest := Some "1.0.0" |};
     readme := None;
     entryMetadata :=
       {| md_name := Some "x"; md_version := None; md_theme := None;
          md_apmInstallSource := None |};
     downloads := 5;
     stargazers_count := 1 |}.

Definition sweepInput : list string := ["a-100"; "a-200"; "a-50"; "b-10"].

(** A file system that refuses no unlink: every entry is a file the
    client may delete. *)
Definition noRefusal : string → option string := λ _, None.

(** A local storage with the package "x" cached at time 1000. *)
Definition stored : gmap string (CacheEntry string) :=
  cache "packages/x" "payload of x" 1000 ∅.

(** ** The rest of the package manager *)

(** [version.split('-')[0]] for a version that is a string. *)
Definition normalizeVersion (version : string) : string :=
  default version (head (split "-" version)).

Section Queries.
Context {H : Type} `{Atom H}.

Definition loadInstalled (callback : Fn)
    (st : PackageManager H) : Process * PackageManager H :=
  runApmCommandAndParseJSON ["ls"; "--json"] "Fetching local packages failed."
    callback st.

Definition loadFeatured (loadThemes : bool) (callback : Fn)
    (st : PackageManager H) : Process * PackageManager H :=
  let args :=
    ["featured"; "--json"] ++ (if loadThemes then ["--themes"] else []) ++
    compatibleArgs st in
  runApmCommandAndParseJSON args "Fetching featured packages failed." callback st.

Definition loadCompatiblePackageVersion (packageName : string) (callback : Fn)
    (st : PackageManager H) : Process * PackageManager H :=
  runApmCommandAndParseJSON
    ["view"; packageName; "--json"; "--compatible";
     normalizeVersion (getVersion (host st))]
    ("Fetching package '" +:+ packageName +:+ "' failed.") callback st.

(** [getInstalled], [getFeatured] and [getOutdated]: a new promise whose
    executor starts the load with the settling callback. *)
Definition getInstalled (st : PackageManager H) : nat * Process * PackageManager H :=
  let '(p, st) := newPromise st in
  let '(proc, st) := loadInstalled (Settle p) st in
  (p, proc, st).

Definition getFeatured (loadThemes : bool)
    (st : PackageManager H) : nat * Process * PackageManager H :=
  let '(p, st) := newPromise st in
  let '(proc, st) := loadFeatured loadThemes (Settle p) st in
  (p, proc, st).

Definition getOutdated (clearCache : bool) (now : Z)
    (st : PackageManager H) : nat * option Process * PackageManager H :=
  let '(p, st) := newPromise st in
  let '(proc, st) := loadOutdated clearCache (Settle p) now st in
  (p, proc, st).

(** What a caller, or the environment, can ask of the package manager. *)
Inductive Request :=
| CallInstall (pack : Pack) (callback : option Fn)
| CallUninstall (pack : Pack) (callback : option Fn)
| CallUpdate (pack : Pack) (newVersion : option string) (callback : option Fn)
| CallInstallAlternative (pack : Pack) (alternativePackageName : string) (callback : Fn)
| CallLoadOutdated (clearCache : bool) (callback : Fn) (now : Z)
| CallLoadInstalled (callback : Fn)
| CallLoadFeatured (loadThemes : bool) (callback : Fn)
| CallLoadPackage (packageName : string) (callback : Fn)
| CallLoadCompatiblePackageVersion (packageName : string) (callback : Fn)
| CallGetPackage (packageName : string)
| CallGetInstalled
| CallGetFeatured (loadThemes : bool)
| CallGetOutdated (clearCache : bool) (now : Z)
| Completes (proc : Process) (outcome : Outcome) (now : Z).

Definition serve (st : PackageManager H) (r : Request) : PackageManager H :=
  match r with
  | CallInstall pack callback => (install pack callback st).2
  | CallUninstall pack callback => (uninstall pack callback st).2
  | CallUpdate pack newVersion callback => (update pack newVersion callback st).2
  | CallInstallAlternative pack alternativePackageName callback =>
      (installAlternative pack alternativePackageName callback st).2
  | CallLoadOutdated clearCache callback now =>
      (loadOutdated clearCache callback now st).2
  | CallLoadInstalled callback => (loadInstalled callback st).2
  | CallLoadFeatured loadThemes callback => (loadFeatured loadThemes callback st).2
  | CallLoadPackage packageName callback => (loadPackage packageName callback st).2
  | CallLoadCompatiblePackageVersion packageName callback =>
      (loadCompatiblePackageVersion packageName callback st).2
  | CallGetPackage packageName => (getPackage packageName st).2
  | CallGetInstalled => (getInstalled st).2
  | CallGetFeatured loadThemes => (getFeatured loadThemes st).2
  | CallGetOutdated clearCache now => (getOutdated clearCache now st).2
  | Completes proc outcome now => deliver proc outcome now st
  end.

(** The state after a sequence of requests. *)
Definition session (requests : list Request) (st : PackageManager H) : PackageManager H :=
  foldl serve st requests.

End Queries.

(** ** What is pending between two turns *)

Section Waiting.
Context {H : Type} `{Atom H}.

(** Whether the [Promise.all] of a job is decided: one of its promises is
    rejected, or both are fulfilled. *)
Definition due (st : PackageManager H) (job : Alternative) : bool :=
  match promises st !! uninstallPromise job, promises st !! installPromise job with
  | Some (Rejected _), _ | _, Some (Rejected _) => true
  | Some (Fulfilled _), Some (Fulfilled _) => true
  | _, _ => false
  end.

(** A callback that is a function of the caller, not a closure of the
    package manager around one of its promises. *)
Definition ownFunction (callback : Fn) : bool :=
  match callback with
  | UserFunction _ => true
  | Settle _ => false
  end.

(** A request as a caller makes it: the callbacks it passes are its own
    functions.  Any process may end. *)
Definition fromCaller (r : Request) : bool :=
  match r with
  | CallInstall _ callback | CallUninstall _ callback | CallUpdate _ _ callback =>
      from_option ownFunction true callback
  | CallInstallAlternative _ _ callback | CallLoadOutdated _ callback _
  | CallLoadInstalled callback | CallLoadFeatured _ callback
  | CallLoadPackage _ callback | CallLoadCompatiblePackageVersion _ callback =>
      ownFunction callback
  | CallGetPackage _ | CallGetInstalled | CallGetFeatured _ | CallGetOutdated _ _
  | Completes _ _ _ => true
  end.

(** Between two turns no reaction is left to run: every pending
    [installAlternative] waits for promises made earlier, none of which
    decides it yet, with a callback of its caller. *)
Definition waiting (st : PackageManager H) : Prop :=
  ∀ job, job ∈ alternatives st →
    due st job = false ∧
    (uninstallPromise job < nextPromise st)%nat ∧
    (installPromise job < nextPromise st)%nat ∧
    ownFunction (alternativeCallback job) = true.

(** From [st] to [st'] the pending jobs are the same, no promise number
    is taken back, and the promises below [n] are as they were. *)
Definition calm (n : nat) (st st' : PackageManager H) : Prop :=
  alternatives st' = alternatives st ∧ (nextPromise st ≤ nextPromise st')%nat ∧
  ∀ p, (p < n)%nat → promises st' !! p = promises st !! p.

End Waiting.

(** The subcommands of apm the package manager uses. *)
Definition apmCommands : list string :=
  ["install"; "uninstall"; "outdated"; "ls"; "featured"; "view"].

(** The names of the events the package manager emits. *)
Definition eventNames : list string :=
  ["package-installing"; "package-installed"; "package-install-failed";
   "package-uninstalling"; "package-uninstalled"; "package-uninstall-failed";
   "package-updating"; "package-updated"; "package-update-failed";
   "package-update-available";
   "theme-installing"; "theme-installed"; "theme-install-failed";
   "theme-uninstalling"; "theme-uninstalled"; "theme-uninstall-failed";
   "theme-updating"; "theme-updated"; "theme-update-failed";
   "theme-update-available";
   "package-installing-alternative"; "package-installed-alternative";
   "package-install-alternative-failed"].

(** An apm command line of the package manager, or an event of its
    vocabulary; any other effect passes. *)
Definition regular (e : Effect) : bool :=
  match e with
  | Spawn args _ =>
      bool_decide (last args = Some "--no-color") &&
      match head args with
      | Some command => bool_decide (command ∈ apmCommands)
      | None => false
      end
  | Emit eventName _ => bool_decide (eventName ∈ eventNames)
  | _ => true
  end.

(** The calls of the user function [f] in a stretch of the trace. *)
Definition callsTo (f : nat) (tr : list Effect) : list Effect :=
  List.filter
    (λ e, match e with Called g _ _ => bool_decide (g = f) | _ => false end) tr.

Section Steadiness.
Context {H : Type} `{Atom H}.

(** From [st] to [st'] the promises stored by name are the same, no
    promise number is given out twice, promises are kept and settled ones
    are as they were, and what was added to the trace is regular. *)
Definition steady (st st' : PackageManager H) : Prop :=
  packagePromises st' = packagePromises st ∧
  (nextPromise st ≤ nextPromise st')%nat ∧
  (∀ p s, promises st !! p = Some s → s ≠ Pending →
          (p < nextPromise st)%nat → promises st' !! p = Some s) ∧
  ((∀ p, is_Some (promises st !! p) → (p < nextPromise st)%nat) →
   ∀ p, is_Some (promises st' !! p) → (p < nextPromise st')%nat) ∧
  (∀ p, is_Some (promises st !! p) → is_Some (promises st' !! p)) ∧
  ∃ l, trace st' = trace st ++ l ∧ forallb regular l = true.

End Steadiness.

Section Answers.
Context {H : Type} `{Atom H}.

(** What a load with the error message [m] hands to its callback when
    its process ends: the output apm printed, parsed (the empty array for
    a falsy value), after an exit with code 0; otherwise an error with the
    message [m] that carries what went wrong. *)
Definition owed (m : string) (outcome : Outcome) : option Error * Value :=
  match outcome with
  | Exit code out err =>
      if decide (code = 0) then
        match JSON_parse out with
        | inr JFalsy => (None, Json (JArray []))
        | inr j => (None, Json j)
        | inl parseError =>
            (Some {| message := m; stdout := "";
                     stderr := parseError +:+ ": " +:+ out;
                     packageInstallError := None |}, Undefined)
        end
      else
        (Some {| message := m; stdout := out; stderr := err;
                 packageInstallError := None |}, Undefined)
  | WillThrowError reason =>
      (Some {| message := m; stdout := ""; stderr := reason;
               packageInstallError := None |}, Undefined)
  end.

(** The promises are numbered below [nextPromise], and the promises
    stored by name exist and are stored under one name each. *)
Definition sound (st : PackageManager H) : Prop :=
  (∀ p, is_Some (promises st !! p) → (p < nextPromise st)%nat) ∧
  (∀ x p, packagePromises st !! x = Some p → is_Some (promises st !! p)) ∧
  (∀ x y p, packagePromises st !! x = Some p →
            packagePromises st !! y = Some p → x = y).

End Answers.

Section QueryKinds.
Context {H : Type} `{Atom H}.

(** The four loads that go through [runApmCommandAndParseJSON]. *)
Inductive Query :=
| Installed
| Featured (loadThemes : bool)
| Package (packageName : string)
| CompatiblePackageVersion (packageName : string).

Definition load (q : Query) (callback : Fn)
    (st : PackageManager H) : Process * PackageManager H :=
  match q with
  | Installed => loadInstalled callback st
  | Featured loadThemes => loadFeatured loadThemes callback st
  | Package packageName => loadPackage packageName callback st
  | CompatiblePackageVersion packageName =>
      loadCompatiblePackageVersion packageName callback st
  end.

End QueryKinds.

(** ** Versions, repository URLs and proxies *)

(** [s.startsWith(p)] *)
Fixpoint startsWith (p s : string) : bool :=
  match p, s with
  | EmptyString, _ => true
  | String a p', String b s' => if decide (a = b) then startsWith p' s' else false
  | String _ _, EmptyString => false
  end.

(** [s.match(needle)] for a needle without special characters: whether
    [needle] occurs in [s]. *)
Fixpoint includes (needle s : string) : bool :=
  startsWith needle s ||
  match s with
  | EmptyString => false
  | String _ rest => includes needle rest
  end.

(** The rest of [l] after the prefix [p], if [l] starts with [p]. *)
Fixpoint afterPrefix (p l : list ascii) : option (list ascii) :=
  match p with
  | [] => Some l
  | a :: p' =>
      match l with
      | b :: l' => if decide (a = b) then afterPrefix p' l' else None
      | [] => None
      end
  end.

Fixpoint dropLeading (c : ascii) (l : list ascii) : list ascii :=
  match l with
  | a :: rest => if decide (a = c) then dropLeading c rest else l
  | [] => []
  end.

(** [s.replace(/^p/, '')] for a literal [p] *)
Definition replacePrefix (p s : string) : string :=
  string_of_list_ascii
    (default (list_ascii_of_string s)
       (afterPrefix (list_ascii_of_string p) (list_ascii_of_string s))).

(** [s.replace(/p$/, '')] for a literal [p] *)
Definition replaceSuffix (p s : string) : string :=
  string_of_list_ascii
    (reverse
       (default (reverse (list_ascii_of_string s))
          (afterPrefix (reverse (list_ascii_of_string p))
             (reverse (list_ascii_of_string s))))).

(** [s.replace(/c+$/, '')] *)
Definition dropTrailing (c : ascii) (s : string) : string :=
  string_of_list_ascii (reverse (dropLeading c (reverse (list_ascii_of_string s)))).

(** The [repository] of a package's metadata: an object with an optional
    [url], or a string. *)
Inductive Repository :=
| RepositoryObject (url : option string)
| RepositoryString (s : string).

(** [getRepositoryUrl({metadata})]; an object without [url] is itself
    taken for the URL, and [repoUrl.match] is then not a function. *)
Definition getRepositoryUrl (repository : option Repository) : Exception + string :=
  let left :=
    match repository with
    | None => inr ""
    | Some (RepositoryString s) => inr s
    | Some (RepositoryObject (Some url)) => inr url
    | Some (RepositoryObject None) => inl (TypeError "repoUrl.match is not a function")
    end in
  match left with
  | inl e => inl e
  | inr repoUrl =>
      let repoUrl :=
        if includes "git@github" repoUrl then
          let repoName := default "undefined" (split ":" repoUrl !! 1%nat) in
          "https://github.com/" +:+ repoName
        else repoUrl in
      inr (replacePrefix "git+" (dropTrailing "/" (replaceSuffix ".git" repoUrl)))
  end.

Section Proxy.
(** [String.prototype.trim] and [String.prototype.toUpperCase] *)
Context (trim toUpperCase : string → string).

(** [applyProxyToEnv(envName, proxy)] on the environment [process.env]. *)
Definition applyProxyToEnv (envName : string) (proxy : option string)
    (env : gmap string string) : gmap string string :=
  match proxy with
  | None => env
  | Some proxy =>
      let proxy := split " " proxy in
      let tag := toUpperCase (trim (default "" (head proxy))) in
      if decide (tag = "DIRECT") then delete envName env
      else if decide (tag = "PROXY") then
        <[envName := "http://" +:+ default "undefined" (proxy !! 1%nat)]> env
      else env
  end.

(** [setProxyServersAsync]: the two proxies are applied as they are
    resolved, in either order, before the callback runs. *)
Definition setProxyServersAsync (httpProxy httpsProxy : option string)
    (httpsFirst : bool) (env : gmap string string) : gmap string string :=
  if httpsFirst then
    applyProxyToEnv "http_proxy" httpProxy (applyProxyToEnv "https_proxy" httpsProxy env)
  else
    applyProxyToEnv "https_proxy" httpsProxy (applyProxyToEnv "http_proxy" httpProxy env).

End Proxy.

(** ** The rest of the atom.io client *)

Section RegistryClient.
Context {Data : Type}.
(** The truthiness of a payload, and [delete body.versions]. *)
Context (truthy : Data → bool) (deleteVersions : Data → Data).

(** What a lookup ends with: it calls back with data, or goes on to
    [request] a path, or asks apm for the featured list. *)
Inductive Lookup :=
| Served (d : Fetched Data)
| ViaRequest (path : string)
| ViaApm (loadThemes : bool).

(** [if (data)] on what [fetchFromCache] hands over. *)
Definition usable (d : Fetched Data) : bool :=
  match d with
  | CachedData d => truthy d
  | EmptyObject => true
  | Null => false
  end.

Definition package (name : string) (online : bool) (now : Z)
    (localStorage : gmap string (CacheEntry Data)) : Lookup :=
  let packagePath := "packages/" +:+ name in
  let data := (fetchFromCache packagePath false online now localStorage).2 in
  if usable data then Served data else ViaRequest packagePath.

Definition featuredPackages (online : bool) (now : Z)
    (localStorage : gmap string (CacheEntry Data)) : Lookup :=
  let data := (fetchFromCache "packages/featured" false online now localStorage).2 in
  if usable data then Served data else ViaApm false.

Definition featuredThemes (online : bool) (now : Z)
    (localStorage : gmap string (CacheEntry Data)) : Lookup :=
  let data := (fetchFromCache "themes/featured" false online now localStorage).2 in
  if usable data then Served data else ViaApm true.

(** The callback of [request], given the error or the body of the
    answer ([None] for a body that is [null] or [undefined], which
    [delete body.versions] cannot take): the arguments of the caller's
    callback and the storage afterwards. *)
Definition request (path : string) (response : string + option Data) (now : Z)
    (localStorage : gmap string (CacheEntry Data))
    : Exception + (option string * option Data) * gmap string (CacheEntry Data) :=
  match response with
  | inl err => inr ((Some err, None), localStorage)
  | inr None => inl (TypeError "Cannot convert undefined or null to object")
  | inr (Some body) =>
      let body := deleteVersions body in
      inr ((None, Some body), cache path body now localStorage)
  end.

(** The reactions of the client's [getFeatured] to the promise of the
    package manager, for a callback that does not throw. *)
Definition featuredSettled (loadThemes : bool) (result : Error + Data) (now : Z)
    (localStorage : gmap string (CacheEntry Data))
    : (option Error * option Data) * gmap string (CacheEntry Data) :=
  match result with
  | inr packages =>
      let key := if loadThemes then "themes/featured" else "packages/featured" in
      ((None, Some packages), cache key packages now localStorage)
  | inl error => ((Some error, None), localStorage)
  end.

End RegistryClient.

Arguments Lookup Data : clear implicits.

(** [avatarPath(login)] at time [now], for a cache path without a
    trailing separator and a login without one. *)
Definition avatarPath (cachePath login : string) (now : Z) : string :=
  cachePath +:+ "/" +:+ login +:+ "-" +:+ pretty now.

(** Whether [cachedAvatar] takes the file for fresh at time [now]. *)
Definition isFresh (now : Z) (imagePath : string) : bool :=
  match parseInt (stamp (basename imagePath)) with
  | Some createdOn => bool_decide (now - createdOn < expiry_ms)
  | None => false
  end.

(** A host in which the packages named in its state are pinned, and
    whose apm lists the packages pinned and free as outdated (the text
    stands for the JSON apm prints). *)
#[global] Instance pinningAtom : Atom (list string) := {|
  isPackageLoaded _ _ := false;
  isPackageActive _ _ := false;
  isPackageDisabled _ _ := false;
  activatePackage _ h := h;
  loadPackageInHost _ h := h;
  unloadPackage _ h := h;
  deactivatePackage _ h := h;
  removeDisabledPackage _ h := h;
  useProxySettingsWhenCallingApm _ := false;
  versionPinnedPackages h := h;
  getVersion _ := "1.0.0";
  semver_valid _ := true;
  JSON_parse out :=
    if decide (out = "[pinned, free]") then inr (JArray [plain "pinned"; plain "free"])
    else inl "Unexpected token";
  furtherArrayMembers := []
|}.

(** The truthiness of a text. *)
Definition nonEmpty (d : string) : bool := bool_decide (d ≠ "").

(** Three avatar files, two of them of the login a. *)
Definition written : list (string * Z) := [("a", 100); ("a", 200); ("b", 10)].

(** ** Traces *)

Section Traces.
Context {H : Type} `{Atom H}.
Implicit Types st : PackageManager H.

Lemma since_app st st' l : trace st' = trace st ++ l → since st st' = l.
Proof. unfold since. intros ->. apply drop_app_length. Qed.

Lemma emitted_app l k : emitted (l ++ k) = emitted l ++ emitted k.
Proof. apply omap_app. Qed.

Lemma trace_settle p s st : trace (settle p s st) = trace st.
Proof. unfold settle. repeat case_match; reflexivity. Qed.

Lemma cache_settle p s st :
  apmCache_loadOutdated (settle p s st) = apmCache_loadOutdated st.
Proof. unfold settle. repeat case_match; reflexivity. Qed.

(** A callback adds at most its own call to the trace. *)
Lemma trace_call callback error result st :
  trace (call callback error result st) =
  trace st ++
    match callback with
    | UserFunction f => [Called f error result]
    | Settle _ => []
    end.
Proof.
  destruct callback as [f|p]; simpl; [reflexivity|].
  destruct error; rewrite trace_settle, app_nil_r; reflexivity.
Qed.

Lemma cache_call callback error result st :
  apmCache_loadOutdated (call callback error result st) = apmCache_loadOutdated st.
Proof. destruct callback, error; simpl; rewrite ?cache_settle; reflexivity. Qed.

Lemma trace_callIfFunction callback error st :
  trace (callIfFunction callback error st) = trace st ++ callsOf callback error.
Proof.
  destruct callback as [[f|p]|]; simpl; rewrite ?app_nil_r; try reflexivity.
  destruct error; apply trace_settle.
Qed.


Lemma trace_unload n st : trace (unload n st) = trace st.
Proof. unfold unload. repeat case_match; reflexivity. Qed.


Lemma trace_emitPackageEvent e pack error st :
  trace (emitPackageEvent e pack error st) =
  trace st ++ [Emit (kind pack +:+ e) (PackEvent pack error)].
Proof. unfold emitPackageEvent, kind. destruct (isTheme pack); reflexivity. Qed.

(** The trace an operation leaves when it is started. *)
Lemma trace_start op callback st :
  ∃ args auto,
    trace (start op callback st).2 =
    trace st ++ [Emit (kind (packOf op) +:+ started op) (PackEvent (packOf op) None);
                 Spawn args auto].
Proof.
  destruct op as [pack|pack|pack v];
    cbn [start packOf started];
    unfold install, uninstall, update, runCommand; cbn [snd];
    unfold record at 1; cbn [trace];
    rewrite trace_emitPackageEvent, <- app_assoc; cbn [app].
  - rewrite trace_unload. eauto.
  - case_match; cbn [trace onHost]; eauto.
  - eauto.
Qed.

Lemma emitted_callsOf callback error : emitted (callsOf callback error) = [].
Proof. destruct callback as [[f|p]|]; reflexivity. Qed.

(** A lifecycle process that exits with code 0 clears the cache, calls
    back, and emits its success event, in this order. *)
Lemma trace_complete_success op callback st0 st out err now :
  ∃ pack',
    trace (complete (start op callback st0).1 (Exit 0 out err) now st) =
    trace st ++ CacheWrite None 0 :: callsOf callback None ++
      [Emit (terminal op (Exit 0 out err)) (PackEvent pack' None)].
Proof.
  destruct op as [pack|pack|pack v];
    cbn [start]; unfold install, uninstall, update, runCommand; cbn [fst];
    cbn [complete exit terminal ok packOf succeeded];
    (destruct (decide (0 = 0)) as [_|[]]; [|reflexivity]);
    rewrite trace_emitPackageEvent, trace_callIfFunction.
  - eexists. case_match; cbn [trace onHost clearOutdatedCache setLoadOutdated];
      rewrite <- !app_assoc; reflexivity.
  - eexists. cbn [trace onHost]. rewrite trace_unload.
    cbn [trace clearOutdatedCache setLoadOutdated].
    rewrite <- !app_assoc. rewrite bool_decide_eq_true_2 by reflexivity. reflexivity.
  - eexists. cbn [trace clearOutdatedCache setLoadOutdated].
    rewrite <- !app_assoc. rewrite bool_decide_eq_true_2 by reflexivity. reflexivity.
Qed.

(** A lifecycle process that fails, by its exit code or at launch, emits
    its failure event and then calls back; it writes nothing to the cache. *)
Lemma trace_complete_failure op callback st0 st outcome now :
  ok outcome = false →
  ∃ error,
    trace (complete (start op callback st0).1 outcome now st) =
    trace st ++ Emit (terminal op outcome) (PackEvent (packOf op) (Some error))
      :: callsOf callback (Some error).
Proof.
  intros Hok.
  assert (Hterm : terminal op outcome = kind (packOf op) +:+ failed op).
  { unfold terminal. rewrite Hok.
    destruct op, outcome as [[| |] ? ?|]; try reflexivity.
    vm_compute in Hok. discriminate. }
  rewrite Hterm.
  destruct outcome as [code out err|reason].
  - cbn [ok] in Hok. apply bool_decide_eq_false in Hok.
    destruct op as [pack|pack|pack v];
      cbn [start]; unfold install, uninstall, update, runCommand; cbn [fst];
      cbn [complete exit packOf failed];
      (destruct (decide (code = 0)) as [?|_]; [contradiction|]);
      cbn [onError]; rewrite trace_callIfFunction, trace_emitPackageEvent;
      eexists; rewrite <- !app_assoc; try reflexivity.
    case_match; reflexivity.
  - destruct op as [pack|pack|pack v];
      cbn [start]; unfold install, uninstall, update, runCommand; cbn [fst];
      cbn [complete handleProcessErrors onError packOf failed];
      rewrite trace_callIfFunction, trace_emitPackageEvent;
      eexists; rewrite <- !app_assoc; reflexivity.
Qed.

End Traces.

(** ** Lifecycle events and the outdated cache *)

Section Lifecycle.
Context {H : Type} `{Atom H}.
Implicit Types st : PackageManager H.

Lemma started_not_terminal op pack :
  isTerminal op (kind pack +:+ started op) = false.
Proof. unfold kind. destruct op, (isTheme pack); reflexivity. Qed.

Lemma terminal_isTerminal op outcome : isTerminal op (terminal op outcome) = true.
Proof.
  unfold terminal, kind.
  destruct op as [pack|pack|pack v], outcome as [[| |] out err|reason];
    cbn [packOf ok];
    repeat match goal with |- context [isTheme ?p] => destruct (isTheme p) end;
    reflexivity.
Qed.

Lemma terminal_cases op outcome :
  ∃ pack,
    terminal op outcome =
    kind pack +:+ (if ok outcome then succeeded op else failed op).
Proof.
  unfold terminal.
  destruct op as [pack|pack|pack v], outcome as [[| |] out err|reason];
    cbn [packOf ok]; eauto.
Qed.

(** The whole trace of one operation, from its start to the end of its
    process. *)
Lemma trace_operation op callback outcome now st :
  ∃ args auto tail,
    since st (complete (start op callback st).1 outcome now (start op callback st).2) =
    Emit (kind (packOf op) +:+ started op) (PackEvent (packOf op) None)
      :: Spawn args auto :: tail ∧
    emitted tail = [terminal op outcome] ∧
    cacheWhenEmitted (isTerminal op) (apmCache_loadOutdated st) tail =
      Some (if ok outcome then emptyCache else apmCache_loadOutdated st).
Proof.
  destruct (trace_start op callback st) as (args & auto & Hstart).
  exists args, auto.
  destruct (ok outcome) eqn:Hok.
  - destruct outcome as [code out err|]; [|discriminate].
    apply bool_decide_eq_true in Hok. subst code.
    destruct (trace_complete_success op callback st (start op callback st).2 out err now)
      as (pack' & Hend).
    eexists. split; [|split].
    + apply since_app. rewrite Hend, Hstart, <- app_assoc. reflexivity.
    + change (emitted (?e :: ?l)) with (emitted ([e] ++ l)).
      rewrite !emitted_app, emitted_callsOf. reflexivity.
    + cbn [cacheWhenEmitted].
      destruct callback as [[f|p]|]; cbn [callsOf app cacheWhenEmitted];
        rewrite terminal_isTerminal; reflexivity.
  - destruct (trace_complete_failure op callback st (start op callback st).2 outcome now Hok)
      as (error & Hend).
    eexists. split; [|split].
    + apply since_app. rewrite Hend, Hstart, <- app_assoc. reflexivity.
    + change (emitted (?e :: ?l)) with (emitted ([e] ++ l)).
      rewrite emitted_app, emitted_callsOf. reflexivity.
    + cbn [cacheWhenEmitted]. rewrite terminal_isTerminal. reflexivity.
Qed.

(** C1. One lifecycle operation (install, uninstall or update), whatever
    its callback and however its process ends (any exit code, or a failure
    to launch), emits exactly two events: its "-ing" event when it starts,
    and then one terminal event, the success event when the exit code is 0
    and the failure event otherwise. *)
Theorem lifecycle_event_order (op : Operation) (callback : option Fn)
    (outcome : Outcome) (now : Z) (st : PackageManager H) :
  let '(proc, st1) := start op callback st in
  emitted (since st st1) = [kind (packOf op) +:+ started op] ∧
  emitted (since st (complete proc outcome now st1)) =
    [kind (packOf op) +:+ started op; terminal op outcome] ∧
  isTerminal op (kind (packOf op) +:+ started op) = false ∧
  isTerminal op (terminal op outcome) = true ∧
  ∃ pack,
    terminal op outcome =
    kind pack +:+ (if ok outcome then succeeded op else failed op).
Proof.
  destruct (trace_operation op callback outcome now st)
    as (args & auto & tail & Hsince & Hemit & _).
  destruct (trace_start op callback st) as (args' & auto' & Hstart).
  destruct (start op callback st) as [proc st1] eqn:Hs. cbn [fst snd] in *.
  split; [|split; [|split; [|split]]].
  - rewrite (since_app _ _ _ Hstart). reflexivity.
  - rewrite Hsince.
    change (emitted (?e :: ?s :: ?l)) with (emitted [e; s] ++ emitted l).
    rewrite Hemit. reflexivity.
  - apply started_not_terminal.
  - apply terminal_isTerminal.
  - apply terminal_cases.
Qed.

(** C4, as the code has it.  A lifecycle operation whose process exits
    with code 0 has cleared the outdated cache by the time its success
    event is emitted; an operation that fails emits its failure event with
    the cache as it was when the operation started. *)
Theorem cache_at_terminal_event (op : Operation) (callback : option Fn)
    (outcome : Outcome) (now : Z) (st : PackageManager H) :
  let '(proc, st1) := start op callback st in
  cacheWhenEmitted (isTerminal op) (apmCache_loadOutdated st)
    (since st (complete proc outcome now st1)) =
  Some (if ok outcome then emptyCache else apmCache_loadOutdated st).
Proof.
  destruct (trace_operation op callback outcome now st)
    as (args & auto & tail & Hsince & _ & Hcache).
  destruct (start op callback st) as [proc st1] eqn:Hs. cbn [fst snd] in *.
  rewrite Hsince. cbn [cacheWhenEmitted].
  rewrite started_not_terminal. exact Hcache.
Qed.

End Lifecycle.

(** C4, as stated, fails: an install whose process exits with code 1
    emits "package-install-failed" while the outdated cache still holds
    the list stored at time 1000, and leaves it so. *)
Lemma failed_install_keeps_cache :
  let op := Install (plain "bar") in
  let '(proc, st1) := start op None warm in
  let st2 := complete proc (Exit 1 "" "boom") 2000 st1 in
  emitted (since warm st2) = ["package-installing"; "package-install-failed"] ∧
  cacheWhenEmitted (isTerminal op) (apmCache_loadOutdated warm) (since warm st2)
    ≠ Some emptyCache ∧
  apmCache_loadOutdated st2 =
    {| value := Some [plain "foo"]; expiry := 1000 + CACHE_EXPIRY |}.
Proof. vm_compute. repeat split; discriminate. Qed.

(** ** The outdated cache *)

Section Outdated.
Context {H : Type} `{Atom H}.
Implicit Types st : PackageManager H.

Lemma since_refl st : since st st = [].
Proof. apply since_app. symmetry. apply app_nil_r. Qed.

Lemma since_call callback error result st :
  since st (call callback error result st) =
  match callback with
  | UserFunction f => [Called f error result]
  | Settle _ => []
  end.
Proof. apply since_app, trace_call. Qed.

Lemma trace_announce packages st :
  trace (foldl (λ st pack, emitPackageEvent "update-available" pack None st) st packages) =
  trace st ++ updateAvailable packages.
Proof.
  revert st. induction packages as [|pack packages IH]; intros st; cbn [foldl].
  - symmetry. apply app_nil_r.
  - rewrite IH, trace_emitPackageEvent, <- app_assoc. reflexivity.
Qed.

Lemma cache_announce packages st :
  apmCache_loadOutdated
    (foldl (λ st pack, emitPackageEvent "update-available" pack None st) st packages) =
  apmCache_loadOutdated st.
Proof.
  revert st. induction packages as [|pack packages IH]; intros st; cbn [foldl].
  - reflexivity.
  - rewrite IH. unfold emitPackageEvent. reflexivity.
Qed.

Lemma filter_isEmit_updateAvailable packages :
  List.filter isEmit (updateAvailable packages) = updateAvailable packages.
Proof. induction packages as [|p l IH]; [reflexivity|]. cbn. f_equal. exact IH. Qed.

(** A successful load at time [t] stores the packages that are not pinned,
    to expire [CACHE_EXPIRY] later. *)
Lemma outdated_exit_writes m callback out err t packages st :
  JSON_parse out = inr (JArray packages) →
  apmCache_loadOutdated (exit (OutdatedProcess m callback) 0 out err t st) =
  {| value := Some (filter (λ pack, name pack ∉ versionPinnedPackages (host st)) packages);
     expiry := t + CACHE_EXPIRY |}.
Proof.
  intros Hparse. cbn [exit]. destruct (decide (0 = 0)) as [_|[]]; [|reflexivity].
  rewrite Hparse, cache_call, cache_announce. reflexivity.
Qed.

(** The events of the exit callback of [loadOutdated]. *)
Lemma outdated_complete_events m callback outcome t st :
  List.filter isEmit (since st (complete (OutdatedProcess m callback) outcome t st)) =
  match outcome with
  | Exit 0 out _ =>
      match JSON_parse out with
      | inr (JArray packages) =>
          updateAvailable
            (filter (λ pack, name pack ∉ versionPinnedPackages (host st)) packages)
      | _ => []
      end
  | _ => []
  end.
Proof.
  destruct outcome as [code out err|reason].
  - cbn [complete exit]. destruct (decide (code = 0)) as [->|Hne].
    + destruct (JSON_parse out) as [parseError|[|packages|text]].
      * rewrite since_call. destruct callback; reflexivity.
      * erewrite since_app;
          [|rewrite trace_call, trace_announce; cbn [trace setLoadOutdated];
            rewrite <- !app_assoc; reflexivity].
        destruct callback; reflexivity.
      * erewrite since_app;
          [|rewrite trace_call, trace_announce; cbn [trace setLoadOutdated];
            rewrite <- !app_assoc; reflexivity].
        cbn [app List.filter isEmit].
        rewrite List.filter_app, filter_isEmit_updateAvailable.
        destruct callback; cbn; rewrite ?app_nil_r; reflexivity.
      * erewrite since_app; [|cbn; reflexivity]. reflexivity.
    + rewrite since_call. destruct code; try contradiction; destruct callback; reflexivity.
  - cbn [complete handleProcessErrors onError]. rewrite since_call.
    destruct callback; reflexivity.
Qed.

(** C3. A call [loadOutdated(false, callback)] made while the cache holds a
    list written less than ten minutes earlier hands that list to the
    callback and starts no process; a call with [clearCache] true clears
    the cache and runs [apm outdated], whatever the cache held. *)
Theorem outdated_cache_window (st : PackageManager H) (v : list Pack)
    (t now : Z) (callback : Fn)
    (Hcache : apmCache_loadOutdated st = {| value := Some v; expiry := t + CACHE_EXPIRY |})
    (Hrecent : now - t < 10 * 60 * 1000) :
  loadOutdated false callback now st = (None, call callback None (Json (JArray v)) st) ∧
  spawned (since st (call callback None (Json (JArray v)) st)) = [] ∧
  since st (call callback None (Json (JArray v)) st) =
    match callback with
    | UserFunction f => [Called f None (Json (JArray v))]
    | Settle _ => []
    end ∧
  ∀ (st' : PackageManager H) (now' : Z) (callback' : Fn),
    ∃ proc st'' auto,
      loadOutdated true callback' now' st' = (Some proc, st'') ∧
      apmCache_loadOutdated st'' = emptyCache ∧
      since st' st'' =
        [CacheWrite None 0;
         Spawn (["outdated"; "--json"] ++ compatibleArgs st' ++ ["--no-color"]) auto].
Proof.
  split; [|split; [|split]].
  - unfold loadOutdated. rewrite Hcache. cbn [value expiry].
    destruct (Z.gtb_spec (t + CACHE_EXPIRY) now) as [_|Hle]; [reflexivity|].
    unfold CACHE_EXPIRY in Hle. lia.
  - rewrite since_call. destruct callback; reflexivity.
  - apply since_call.
  - intros st' now' callback'. do 3 eexists.
    split; [reflexivity|]. split; [reflexivity|].
    apply since_app. cbn. rewrite <- !app_assoc. reflexivity.
Qed.

(** C10. A call answered from the cache emits no event and leaves the
    cache slot as it was.  A call that starts a process emits nothing
    before the process ends; when the process ends, "update-available"
    is emitted once for each package of a parsed list that is not pinned,
    in the order of the list, and no event is emitted for any other
    outcome. *)
Theorem outdated_events (st : PackageManager H) (v : list Pack) (now : Z)
    (callback : Fn)
    (Hvalue : value (apmCache_loadOutdated st) = Some v)
    (Hfresh : expiry (apmCache_loadOutdated st) > now) :
  (let '(proc, st') := loadOutdated false callback now st in
   proc = None ∧ emitted (since st st') = [] ∧
   List.filter isEmit (since st st') = [] ∧
   apmCache_loadOutdated st' = apmCache_loadOutdated st) ∧
  (∀ clearCache callback' now' (st0 st' : PackageManager H) proc,
     loadOutdated clearCache callback' now' st0 = (Some proc, st') →
     emitted (since st0 st') = [] ∧
     ∃ m, proc = OutdatedProcess m callback') ∧
  (∀ m callback' outcome t (st0 : PackageManager H),
     List.filter isEmit (since st0 (complete (OutdatedProcess m callback') outcome t st0)) =
     match outcome with
     | Exit 0 out _ =>
         match JSON_parse out with
         | inr (JArray packages) =>
             updateAvailable
               (filter (λ pack, name pack ∉ versionPinnedPackages (host st0)) packages)
         | _ => []
         end
     | _ => []
     end).
Proof.
  split; [|split].
  - unfold loadOutdated. rewrite Hvalue.
    destruct (Z.gtb_spec (expiry (apmCache_loadOutdated st)) now) as [_|Hle]; [|lia].
    rewrite since_call, cache_call. destruct callback; repeat split; reflexivity.
  - intros clearCache callback' now' st0 st' proc Hload.
    unfold loadOutdated, runCommand in Hload.
    assert (Hnone : ∀ s : PackageManager H, (None, s) = (Some proc, st') → False)
      by (intros s Hs; discriminate Hs).
    destruct clearCache;
      [|destruct (value (apmCache_loadOutdated st0));
        [destruct (expiry (apmCache_loadOutdated st0) >? now');
         [exfalso; eapply Hnone, Hload|]|]];
      injection Hload as <- <-; (split; [|eexists; reflexivity]);
      (erewrite since_app; [|cbn; rewrite <- ?app_assoc; reflexivity]); reflexivity.
  - intros. apply outdated_complete_events.
Qed.

End Outdated.

(** ** Request deduplication *)

(** C5 fails on the names an array answers by itself.  On a new package
    manager [getPackage("constructor")] returns the inherited member of
    the array and not a promise: nothing is stored under the name, no
    process is started, and every later call does the same. *)
Theorem getPackage_constructor (H : Type) `{Atom H} (h : H) :
  let st := newPackageManager h in
  getPackage "constructor" st = (ArrayMember "constructor", st) ∧
  packagePromises st !! "constructor" = None ∧
  viewsOf "constructor" (trace (run [GetPackage "constructor"; GetPackage "constructor"] st)) = [].
Proof. repeat split. Qed.

(** C2, as stated, fails.  The uninstall of "old" exits with code 1 while
    the install of "new" is still running: the failure event of the
    composite is emitted in the same turn, with the promise of the install
    still pending, and the install reports its own end afterwards. *)
Lemma alternative_fails_before_install_ends :
  let st := newPackageManager () in
  let '(uninstallProcess, installProcess, st1) :=
    installAlternative (plain "old") "new" (UserFunction 0) st in
  let st2 := deliver uninstallProcess (Exit 1 "" "boom") 10 st1 in
  let st3 := deliver installProcess (Exit 0 "[]" "") 20 st2 in
  emitted (since st st2) =
    ["package-installing-alternative"; "package-uninstalling"; "package-installing";
     "package-uninstall-failed"; "package-install-alternative-failed"] ∧
  promises st2 !! 1%nat = Some Pending ∧
  emitted (since st2 st3) = ["package-installed"].
Proof. vm_compute. repeat split. Qed.

Section Dedup.
Context {H : Type} `{Atom H}.
Implicit Types st : PackageManager H.

(** [st'] holds the promises by name of [st] and has started no further
    process. *)
Local Abbreviation frame st st' :=
  (packagePromises st' = packagePromises st ∧
   spawned (trace st') = spawned (trace st)).

Lemma frame_refl st : frame st st.
Proof. split; reflexivity. Qed.

Lemma frame_trans st st' st'' : frame st st' → frame st' st'' → frame st st''.
Proof. intros [-> ->] [-> ->]. split; reflexivity. Qed.

Lemma frame_trace st st' l :
  packagePromises st' = packagePromises st →
  trace st' = trace st ++ l → spawned l = [] → frame st st'.
Proof.
  intros Hp Ht Hl. split; [exact Hp|].
  rewrite Ht. unfold spawned. rewrite omap_app.
  fold (spawned l). rewrite Hl. apply app_nil_r.
Qed.

Lemma frame_record e st :
  (if e is Spawn _ _ then False else True) → frame st (record e st).
Proof.
  intros He. eapply frame_trace; [reflexivity..|]. destruct e; try reflexivity.
  contradiction.
Qed.

Lemma frame_settle p s st : frame st (settle p s st).
Proof. unfold settle. repeat case_match; split; reflexivity. Qed.

Lemma frame_call callback error result st : frame st (call callback error result st).
Proof.
  destruct callback as [f|p]; cbn [call].
  - eapply frame_trace; reflexivity.
  - destruct error; apply frame_settle.
Qed.

Lemma frame_callIfFunction callback error st : frame st (callIfFunction callback error st).
Proof. destruct callback; [apply frame_call | apply frame_refl]. Qed.

Lemma frame_emitPackageEvent e pack error st : frame st (emitPackageEvent e pack error st).
Proof. eapply frame_trace; [reflexivity | apply trace_emitPackageEvent | reflexivity]. Qed.

Lemma frame_unload n st : frame st (unload n st).
Proof. unfold unload. repeat case_match; split; reflexivity. Qed.

Lemma frame_announce packages st :
  frame st (foldl (λ st pack, emitPackageEvent "update-available" pack None st) st packages).
Proof.
  revert st. induction packages as [|pack packages IH]; intros st; cbn [foldl].
  - apply frame_refl.
  - eapply frame_trans; [apply frame_emitPackageEvent | apply IH].
Qed.

Lemma frame_onError proc error st : frame st (onError proc error st).
Proof.
  destruct proc; cbn [onError]; try apply frame_call;
    (eapply frame_trans; [apply frame_emitPackageEvent | apply frame_callIfFunction]).
Qed.

Lemma frame_exit proc code out err now st : frame st (exit proc code out err now st).
Proof.
  destruct proc; cbn [exit]; destruct (decide (code = 0));
    try apply frame_call;
    try (eapply frame_trans; [|apply frame_onError]; case_match;
         first [apply frame_refl | split; reflexivity]);
    try apply frame_onError.
  - eapply frame_trans; [|apply frame_emitPackageEvent].
    eapply frame_trans; [|apply frame_callIfFunction].
    case_match; eapply frame_trace; reflexivity.
  - eapply frame_trans; [|apply frame_emitPackageEvent].
    eapply frame_trans; [|apply frame_callIfFunction].
    eapply frame_trans; [|split; reflexivity].
    eapply frame_trans; [|apply frame_unload].
    eapply frame_trace; reflexivity.
  - eapply frame_trans; [|apply frame_emitPackageEvent].
    eapply frame_trans; [|apply frame_callIfFunction].
    eapply frame_trace; reflexivity.
  - destruct (JSON_parse out) as [parseError|[|packages|text]];
      try apply frame_call;
      try (eapply frame_trace; reflexivity);
      (eapply frame_trans; [|apply frame_call]);
      (eapply frame_trans; [|apply frame_announce]);
      eapply frame_trace; reflexivity.
  - repeat case_match; apply frame_call.
Qed.

Lemma frame_complete proc outcome now st : frame st (complete proc outcome now st).
Proof. destruct outcome; [apply frame_exit | apply frame_onError]. Qed.

Lemma frame_react jobs st : frame st (react jobs st).2.
Proof.
  revert st. induction jobs as [|job jobs IH]; intros st; cbn [react].
  - apply frame_refl.
  - assert (Hfail : ∀ e, frame st (alternativeFailed job e st)).
    { intros e. unfold alternativeFailed.
      eapply frame_trans; [|apply frame_record; exact I].
      eapply frame_trans; [|apply frame_call].
      apply frame_record. exact I. }
    assert (Hdone : frame st (alternativeInstalled job st)).
    { unfold alternativeInstalled.
      eapply frame_trans; [apply frame_call|]. apply frame_record. exact I. }
    repeat case_match; subst; cbn [snd];
      first [ eapply frame_trans; [apply Hfail | apply IH]
            | eapply frame_trans; [apply Hdone | apply IH]
            | match goal with Heq : react jobs st = _ |- _ =>
                specialize (IH st); rewrite Heq in IH; exact IH end ].
Qed.

Lemma frame_deliver proc outcome now st : frame st (deliver proc outcome now st).
Proof.
  unfold deliver, runMicrotasks.
  eapply frame_trans; [apply frame_complete|].
  pose proof (frame_react (alternatives (complete proc outcome now st))
                (complete proc outcome now st)) as Hr.
  destruct (react _ _) as [rest st']. exact Hr.
Qed.

(** The name of a package is stored with a promise exactly when one
    [apm view] was started for it; otherwise none was. *)
Lemma views_invariant x turns (h : H) :
  let st := run turns (newPackageManager h) in
  viewsOf x (trace st) =
  match packagePromises st !! x with
  | Some _ => [["view"; x; "--json"; "--no-color"]]
  | None => []
  end.
Proof.
  cbn zeta. unfold run.
  induction turns as [|t turns IH] using rev_ind.
  - reflexivity.
  - rewrite foldl_app. cbn [foldl].
    set (st := foldl turn (newPackageManager h) turns) in *.
    destruct t as [y|proc outcome now]; cbn [turn].
    + unfold getPackage.
      destruct (packagePromises st !! y) as [p|] eqn:Hy; [exact IH|].
      destruct (decide (y ∈ arrayMembers)); [exact IH|].
      destruct (decide (y ∈ furtherArrayMembers)); [exact IH|].
      cbn [newPromise loadPackage runApmCommandAndParseJSON runCommand snd
           trace packagePromises record].
      unfold viewsOf, spawned in *. rewrite omap_app, List.filter_app, IH.
      cbn [omap app List.filter mbind option_bind].
      destruct (decide (x = y)) as [->|Hne].
      * rewrite lookup_insert_eq, Hy. cbn.
        rewrite bool_decide_eq_true_2 by reflexivity. reflexivity.
      * rewrite lookup_insert_ne by congruence. cbn.
        rewrite bool_decide_eq_false_2 by congruence.
        apply app_nil_r.
    + destruct (frame_deliver proc outcome now st) as [Hp Hs].
      unfold viewsOf in *. rewrite Hp, Hs. exact IH.
Qed.

(** Where C5 holds: for a name [x] that is no member of an array on
    the engine of the host, the first [getPackage(x)] stores a new promise
    and starts one [apm view]; a later call, whatever happened in between,
    returns the stored promise; and no run starts [apm view] for [x] more
    than once. *)
Lemma getPackage_memoized x (Hx : x ∉ arrayMembers)
    (Hengine : x ∉ furtherArrayMembers) turns (h : H) :
  let st := run turns (newPackageManager h) in
  (packagePromises st !! x = None →
   ∃ auto st',
     getPackage x st = (PromiseRef (nextPromise st), st') ∧
     packagePromises st' !! x = Some (nextPromise st) ∧
     since st st' = [Spawn ["view"; x; "--json"; "--no-color"] auto]) ∧
  (∀ p more,
     packagePromises st !! x = Some p →
     getPackage x (run more st) = (PromiseRef p, run more st)) ∧
  (length (viewsOf x (trace st)) ≤ 1)%nat.
Proof.
  cbn zeta. split; [|split].
  - intros Hnone. unfold getPackage. rewrite Hnone.
    destruct (decide (x ∈ arrayMembers)); [contradiction|].
    destruct (decide (x ∈ furtherArrayMembers)); [contradiction|].
    do 2 eexists. split; [reflexivity|]. split.
    + cbn. apply lookup_insert_eq.
    + apply since_app. reflexivity.
  - intros p more Hp.
    assert (Hkeep : packagePromises (run more (run turns (newPackageManager h))) !! x = Some p).
    { revert Hp. generalize (run turns (newPackageManager h)). clear turns.
      unfold run. induction more as [|t more IH] using rev_ind; intros st Hp; [exact Hp|].
      rewrite foldl_app. cbn [foldl]. specialize (IH st Hp).
      set (st' := foldl turn st more) in *.
      destruct t as [y|proc outcome now]; cbn [turn].
      - unfold getPackage.
        destruct (packagePromises st' !! y) as [q|] eqn:Hy; [exact IH|].
        destruct (decide (y ∈ arrayMembers)); [exact IH|].
        destruct (decide (y ∈ furtherArrayMembers)); [exact IH|].
        cbn. rewrite lookup_insert_ne; [exact IH|]. congruence.
      - destruct (frame_deliver proc outcome now st') as [-> _]. exact IH. }
    unfold getPackage. rewrite Hkeep. reflexivity.
  - rewrite (views_invariant x turns h). case_match; cbn; lia.
Qed.

End Dedup.

(** ** Installing an alternative *)

Section Alternatives.
Context {H : Type} `{Atom H}.
Implicit Types st : PackageManager H.

(** From [st] to [st'] the events [names] were emitted, in this order. *)
Local Abbreviation emits st st' names :=
  (∃ l, trace st' = trace st ++ l ∧ emitted l = names).

Lemma emits_refl st : emits st st [].
Proof. exists []. split; [symmetry; apply app_nil_r | reflexivity]. Qed.

Lemma emits_trans st st' st'' a b :
  emits st st' a → emits st' st'' b → emits st st'' (a ++ b).
Proof.
  intros (l & Hl & Ha) (k & Hk & Hb). exists (l ++ k). split.
  - rewrite Hk, Hl. symmetry. apply app_assoc.
  - rewrite emitted_app, Ha, Hb. reflexivity.
Qed.

Lemma emits_since st st' names : emits st st' names → emitted (since st st') = names.
Proof. intros (l & Hl & Ha). rewrite (since_app _ _ _ Hl). exact Ha. Qed.

Lemma emits_call callback error result st :
  emits st (call callback error result st) [].
Proof. eexists. split; [apply trace_call|]. destruct callback; reflexivity. Qed.

Lemma promises_settle p s st :
  promises (settle p s st) =
  match promises st !! p with
  | Some Pending => <[p := s]> (promises st)
  | _ => promises st
  end.
Proof. unfold settle. repeat case_match; reflexivity. Qed.

Lemma alternatives_settle p s st : alternatives (settle p s st) = alternatives st.
Proof. unfold settle. repeat case_match; reflexivity. Qed.

Lemma promises_unload n st : promises (unload n st) = promises st.
Proof. unfold unload. repeat case_match; reflexivity. Qed.

Lemma alternatives_unload n st : alternatives (unload n st) = alternatives st.
Proof. unfold unload. repeat case_match; reflexivity. Qed.

(** The end of a lifecycle process whose callback settles promise [p]:
    the promise is fulfilled when the process succeeded and rejected
    otherwise, and the terminal event of the operation is emitted. *)
Lemma complete_settles op p st0 st outcome now :
  let st' := complete (start op (Some (Settle p)) st0).1 outcome now st in
  (∃ s, (if ok outcome then s = Fulfilled Undefined else ∃ e, s = Rejected e) ∧
        promises st' = promises (settle p s st)) ∧
  alternatives st' = alternatives st ∧
  emits st st' [terminal op outcome].
Proof.
  cbn zeta. split; [|split].
  - destruct outcome as [code out err|reason]; cbn [ok].
    + destruct (decide (code = 0)) as [->|Hne].
      * rewrite bool_decide_eq_true_2 by reflexivity.
        exists (Fulfilled Undefined). split; [reflexivity|].
        destruct op as [pack|pack|pack v]; cbn [start];
          unfold install, uninstall, update, runCommand; cbn [fst complete exit];
          (destruct (decide (0 = 0)) as [_|[]]; [|reflexivity]);
          repeat match goal with
                 | |- context [if ?c then onHost _ _ else _] => destruct c
                 end;
          unfold emitPackageEvent; cbn [promises record callIfFunction call];
          rewrite !promises_settle; cbn [promises clearOutdatedCache setLoadOutdated onHost];
          rewrite ?promises_unload; cbn [promises clearOutdatedCache setLoadOutdated];
          reflexivity.
      * rewrite bool_decide_eq_false_2 by exact Hne.
        destruct op as [pack|pack|pack v]; cbn [start];
          unfold install, uninstall, update, runCommand; cbn [fst complete exit];
          (destruct (decide (code = 0)) as [?|_]; [contradiction|]);
          repeat match goal with
                 | |- context [if ?c then onHost _ _ else _] => destruct c
                 end;
          cbn [onError callIfFunction call]; eexists; (split; [eexists; reflexivity|]);
          rewrite !promises_settle; unfold emitPackageEvent; cbn [promises record onHost];
          reflexivity.
    + destruct op as [pack|pack|pack v]; cbn [start];
        unfold install, uninstall, update, runCommand;
        cbn [fst complete handleProcessErrors onError callIfFunction call];
        eexists; (split; [eexists; reflexivity|]);
        rewrite !promises_settle; unfold emitPackageEvent; cbn [promises record];
        reflexivity.
  - destruct outcome as [code out err|reason];
      destruct op as [pack|pack|pack v]; cbn [start];
      unfold install, uninstall, update, runCommand;
      cbn [fst complete exit handleProcessErrors onError callIfFunction call];
      try destruct (decide (code = 0));
      repeat match goal with
             | |- context [if ?c then onHost _ _ else _] => destruct c
             end;
      unfold emitPackageEvent; cbn [alternatives record];
      rewrite ?alternatives_settle; cbn [alternatives clearOutdatedCache setLoadOutdated onHost];
      rewrite ?alternatives_unload; reflexivity.
  - destruct (ok outcome) eqn:Hok.
    + destruct outcome as [code out err|]; [|discriminate].
      apply bool_decide_eq_true in Hok. subst code.
      destruct (trace_complete_success op (Some (Settle p)) st0 st out err now)
        as (pack' & Hend).
      eexists. split; [exact Hend|]. reflexivity.
    + destruct (trace_complete_failure op (Some (Settle p)) st0 st outcome now Hok)
        as (error & Hend).
      eexists. split; [exact Hend|]. reflexivity.
Qed.

Lemma terminal_not_composite op outcome : isComposite (terminal op outcome) = false.
Proof.
  unfold terminal, kind.
  destruct op as [pack|pack|pack v], outcome as [[| |] out err|reason];
    cbn [packOf ok];
    repeat match goal with |- context [isTheme ?p] => destruct (isTheme p) end;
    reflexivity.
Qed.

(** The reactions of one pending [Promise.all], by the states of its two
    promises. *)
Lemma runMicrotasks_one st job su si :
  alternatives st = [job] →
  promises st !! uninstallPromise job = Some su →
  promises st !! installPromise job = Some si →
  let st' := runMicrotasks st in
  match su, si with
  | Rejected _, _ | _, Rejected _ =>
      alternatives st' = [] ∧ emits st st' ["package-install-alternative-failed"]
  | Fulfilled _, Fulfilled _ =>
      alternatives st' = [] ∧ emits st st' ["package-installed-alternative"]
  | _, _ =>
      alternatives st' = [job] ∧ promises st' = promises st ∧ emits st st' []
  end.
Proof.
  intros Hjob Hu Hi. cbn zeta. unfold runMicrotasks. rewrite Hjob. cbn [react].
  rewrite Hu, Hi.
  assert (Hfail : ∀ e,
    emits st (alternativeFailed job e st) ["package-install-alternative-failed"]).
  { intros e. unfold alternativeFailed. eexists. split.
    - cbn [trace record]. rewrite trace_call. cbn [trace record].
      rewrite <- !app_assoc. reflexivity.
    - destruct (alternativeCallback job); reflexivity. }
  assert (Hdone :
    emits st (alternativeInstalled job st) ["package-installed-alternative"]).
  { unfold alternativeInstalled. eexists. split.
    - cbn [trace record]. rewrite trace_call, <- !app_assoc. reflexivity.
    - destruct (alternativeCallback job); reflexivity. }
  destruct su, si; cbn [react alternatives trace promises];
    first [ split; [reflexivity | split; [reflexivity | apply emits_refl]]
          | split; [reflexivity | apply Hfail]
          | split; [reflexivity | apply Hdone] ].
Qed.

(** What [installAlternative] has done when it returns: two pending
    promises, the two processes started and set to settle them, and one
    [Promise.all] waiting. *)
Lemma installAlternative_starts pack alt callback st :
  alternatives st = [] →
  let n := nextPromise st in
  ∃ stA stB,
    let '(pu, pi, st1) := installAlternative pack alt callback st in
    pu = (start (Uninstall pack) (Some (Settle n)) stA).1 ∧
    pi = (start (Install (plain alt)) (Some (Settle (S n))) stB).1 ∧
    promises st1 = <[S n := Pending]> (<[n := Pending]> (promises st)) ∧
    alternatives st1 =
      [{| uninstallPromise := n; installPromise := S n; eventPack := pack;
          eventAlternative := alt; alternativeCallback := callback |}] ∧
    emits st st1
      ["package-installing-alternative"; kind pack +:+ "uninstalling";
       "package-installing"].
Proof.
  intros Hidle. cbn zeta.
  unfold installAlternative. cbn [newPromise].
  set (s0 := record _ st).
  set (sA := {| apmCache_loadOutdated := apmCache_loadOutdated s0;
                promises := <[nextPromise s0 := Pending]> (promises s0) |}).
  destruct (uninstall pack (Some (Settle (nextPromise s0))) sA) as [pu s1] eqn:Hu.
  set (sB := {| apmCache_loadOutdated := apmCache_loadOutdated s1;
                promises := <[nextPromise s1 := Pending]> (promises s1) |}).
  destruct (install _ (Some (Settle (nextPromise s1))) sB) as [pi s2] eqn:Hi.
  exists sA, sB.
  assert (Hu1 : pu = (uninstall pack (Some (Settle (nextPromise s0))) sA).1)
    by (rewrite Hu; reflexivity).
  assert (Hu2 : s1 = (uninstall pack (Some (Settle (nextPromise s0))) sA).2)
    by (rewrite Hu; reflexivity).
  assert (Hi1 : pi = (install (plain alt) (Some (Settle (nextPromise s1))) sB).1)
    by (unfold plain; rewrite Hi; reflexivity).
  assert (Hi2 : s2 = (install (plain alt) (Some (Settle (nextPromise s1))) sB).2)
    by (unfold plain; rewrite Hi; reflexivity).
  clear Hu Hi.
  assert (Hn1 : nextPromise s1 = S (nextPromise st)).
  { rewrite Hu2. unfold uninstall, runCommand, emitPackageEvent. cbn [snd nextPromise record].
    case_match; reflexivity. }
  assert (Hp1 : promises s1 = <[nextPromise st := Pending]> (promises st)).
  { rewrite Hu2. unfold uninstall, runCommand, emitPackageEvent. cbn [snd promises record].
    case_match; reflexivity. }
  assert (Ha1 : alternatives s1 = alternatives st).
  { rewrite Hu2. unfold uninstall, runCommand, emitPackageEvent. cbn [snd alternatives record].
    case_match; reflexivity. }
  rewrite Hn1 in Hi1, Hi2.
  split; [exact Hu1|]. split; [exact Hi1|]. split; [|split].
  - cbn [promises]. rewrite Hi2.
    unfold install, runCommand, emitPackageEvent. cbn [snd promises record].
    rewrite promises_unload. subst sB. cbn [promises]. rewrite Hn1, Hp1. reflexivity.
  - cbn [alternatives]. rewrite Hi2.
    unfold install, runCommand, emitPackageEvent. cbn [snd alternatives record].
    rewrite alternatives_unload. subst sB. cbn [alternatives].
    rewrite Ha1, Hidle, Hn1. reflexivity.
  - cbn [trace].
    destruct (trace_start (Uninstall pack) (Some (Settle (nextPromise s0))) sA)
      as (a1 & b1 & Ht1).
    destruct (trace_start (Install (plain alt)) (Some (Settle (S (nextPromise st)))) sB)
      as (a2 & b2 & Ht2).
    cbn [start] in Ht1, Ht2. rewrite <- Hu2 in Ht1. rewrite <- Hi2 in Ht2.
    eexists. split.
    + rewrite Ht2. cbn [trace sB]. rewrite Ht1. cbn [trace sA s0 record].
      rewrite <- !app_assoc. reflexivity.
    + reflexivity.
Qed.

(** One of the two processes of a pending [installAlternative] ends; [p]
    is its promise and [q], in state [sq], the promise of the other. *)
Lemma deliver_settling op p q st0 st job outcome now sq :
  alternatives st = [job] →
  uninstallPromise job = p ∧ installPromise job = q ∨
  uninstallPromise job = q ∧ installPromise job = p →
  p ≠ q →
  promises st !! p = Some Pending →
  promises st !! q = Some sq →
  let st' := deliver (start op (Some (Settle p)) st0).1 outcome now st in
  match ok outcome, sq with
  | true, Pending =>
      alternatives st' = [job] ∧
      promises st' = <[p := Fulfilled Undefined]> (promises st) ∧
      emits st st' [terminal op outcome]
  | true, Fulfilled _ =>
      alternatives st' = [] ∧
      emits st st' [terminal op outcome; "package-installed-alternative"]
  | _, _ =>
      alternatives st' = [] ∧
      emits st st' [terminal op outcome; "package-install-alternative-failed"]
  end.
Proof.
  intros Hjob Hrole Hpq Hp Hq. cbn zeta. unfold deliver.
  destruct (complete_settles op p st0 st outcome now) as ((s & Hs & Hprom) & Halt & Hemit).
  set (st1 := complete _ outcome now st) in *.
  rewrite promises_settle, Hp in Hprom. rewrite Hjob in Halt.
  assert (Hp1 : promises st1 !! p = Some s) by (rewrite Hprom; apply lookup_insert_eq).
  assert (Hq1 : promises st1 !! q = Some sq)
    by (rewrite Hprom, lookup_insert_ne by exact Hpq; exact Hq).
  destruct Hrole as [[Hu Hi]|[Hu Hi]].
  - pose proof (runMicrotasks_one st1 job s sq Halt) as Hrun.
    rewrite Hu, Hi in Hrun. specialize (Hrun Hp1 Hq1). cbn zeta in Hrun.
    destruct (ok outcome).
    + subst s. destruct sq.
      * destruct Hrun as (Ha & Hpr & He). split; [exact Ha|]. split; [congruence|].
        apply (emits_trans _ _ _ _ _ Hemit He).
      * destruct Hrun as (Ha & He). split; [exact Ha|].
        apply (emits_trans _ _ _ _ _ Hemit He).
      * destruct Hrun as (Ha & He). split; [exact Ha|].
        apply (emits_trans _ _ _ _ _ Hemit He).
    + destruct Hs as [e ->]. destruct Hrun as (Ha & He).
      destruct sq; (split; [exact Ha|]); apply (emits_trans _ _ _ _ _ Hemit He).
  - pose proof (runMicrotasks_one st1 job sq s Halt) as Hrun.
    rewrite Hu, Hi in Hrun. specialize (Hrun Hq1 Hp1). cbn zeta in Hrun.
    destruct (ok outcome).
    + subst s. destruct sq.
      * destruct Hrun as (Ha & Hpr & He). split; [exact Ha|]. split; [congruence|].
        apply (emits_trans _ _ _ _ _ Hemit He).
      * destruct Hrun as (Ha & He). split; [exact Ha|].
        apply (emits_trans _ _ _ _ _ Hemit He).
      * destruct Hrun as (Ha & He). split; [exact Ha|].
        apply (emits_trans _ _ _ _ _ Hemit He).
    + destruct Hs as [e ->]. destruct sq; destruct Hrun as (Ha & He);
        (split; [exact Ha|]); apply (emits_trans _ _ _ _ _ Hemit He).
Qed.

(** *** Calls and ends of processes among pending jobs *)

Lemma calm_refl n st : calm n st st.
Proof. split; [reflexivity|]. split; [lia | reflexivity]. Qed.

Lemma calm_trans n st st' st'' : calm n st st' → calm n st' st'' → calm n st st''.
Proof.
  intros (Ha & Hn & Hp) (Ha' & Hn' & Hp'). split; [congruence|]. split; [lia|].
  intros p Hlt. rewrite (Hp' p Hlt). exact (Hp p Hlt).
Qed.

Lemma calm_same n st st' :
  alternatives st' = alternatives st → nextPromise st' = nextPromise st →
  promises st' = promises st → calm n st st'.
Proof.
  intros Ha Hn Hp. split; [exact Ha|]. split; [lia|].
  intros p _. rewrite Hp. reflexivity.
Qed.

Lemma calm_record n e st : calm n st (record e st).
Proof. apply calm_same; reflexivity. Qed.

Lemma calm_onHost n f st : calm n st (onHost f st).
Proof. apply calm_same; reflexivity. Qed.

Lemma calm_setLoadOutdated n v e st : calm n st (setLoadOutdated v e st).
Proof. apply calm_same; reflexivity. Qed.

Lemma calm_settle n p s st : (n ≤ p)%nat → calm n st (settle p s st).
Proof.
  intros Hp. unfold settle. destruct (promises st !! p) as [[| |]|];
    try apply calm_refl.
  split; [reflexivity|]. split; [cbn; lia|].
  intros q Hq. cbn [promises setPromise]. apply lookup_insert_ne. lia.
Qed.

Lemma calm_call n callback error result st :
  (∀ p, callback = Settle p → (n ≤ p)%nat) →
  calm n st (call callback error result st).
Proof.
  intros Hsafe. destruct callback as [f|p]; cbn [call]; [apply calm_record|].
  destruct error; apply calm_settle, Hsafe; reflexivity.
Qed.

Lemma calm_callIfFunction n callback error st :
  (∀ p, callback = Some (Settle p) → (n ≤ p)%nat) →
  calm n st (callIfFunction callback error st).
Proof.
  intros Hsafe. destruct callback as [callback|]; cbn [callIfFunction];
    [|apply calm_refl].
  apply calm_call. intros p ->. apply Hsafe. reflexivity.
Qed.

Lemma calm_emitPackageEvent n e pack error st :
  calm n st (emitPackageEvent e pack error st).
Proof. apply calm_record. Qed.

Lemma calm_unload n name st : calm n st (unload name st).
Proof.
  unfold unload. repeat case_match; try apply calm_refl;
    repeat (eapply calm_trans; [|apply calm_onHost]); apply calm_refl.
Qed.

Lemma calm_announce n packages st :
  calm n st
    (foldl (λ st pack, emitPackageEvent "update-available" pack None st) st packages).
Proof.
  revert st. induction packages as [|pack packages IH]; intros st; cbn [foldl].
  - apply calm_refl.
  - eapply calm_trans; [apply (calm_emitPackageEvent n) | apply IH].
Qed.

Lemma calm_runCommand n args proc st : calm n st (runCommand args proc st).2.
Proof. apply calm_record. Qed.

Lemma calm_newPromise n st : (n ≤ nextPromise st)%nat → calm n st (newPromise st).2.
Proof.
  intros Hn. split; [reflexivity|]. split; [cbn; lia|].
  intros p Hp. cbn. apply lookup_insert_ne. lia.
Qed.

Lemma calm_call_any callback error result st :
  calm 0 st (call callback error result st).
Proof. apply calm_call. intros. lia. Qed.

Lemma calm_callIfFunction_any callback error st :
  calm 0 st (callIfFunction callback error st).
Proof. apply calm_callIfFunction. intros. lia. Qed.

Ltac calm_step :=
  first
    [ apply calm_onHost
    | apply calm_setLoadOutdated
    | apply calm_unload
    | apply calm_announce
    | apply calm_emitPackageEvent
    | apply calm_record
    | apply calm_call_any
    | apply calm_callIfFunction_any ].

Ltac calm_chain :=
  repeat first [ calm_step | apply calm_refl | eapply calm_trans; [|calm_step] ].

(** Whatever ends a process leaves the pending jobs in place and takes no
    promise number back. *)
Lemma calm_onError proc error st : calm 0 st (onError proc error st).
Proof. destruct proc; cbn [onError]; calm_chain. Qed.

Lemma calm_exit proc code out err now st : calm 0 st (exit proc code out err now st).
Proof.
  destruct proc; cbn [exit]; destruct (decide (code = 0));
    repeat match goal with
           | |- context [if ?c then onHost _ _ else _] => destruct c
           end;
    try (eapply calm_trans; [|apply calm_onError]);
    try (unfold clearOutdatedCache; calm_chain; fail).
  - destruct (JSON_parse out) as [parseError|[|packages|text]];
      unfold clearOutdatedCache; calm_chain.
  - destruct (JSON_parse out) as [parseError|[|packages|text]]; calm_chain.
Qed.

Lemma calm_complete proc outcome now st : calm 0 st (complete proc outcome now st).
Proof. destruct outcome; [apply calm_exit | apply calm_onError]. Qed.
(** *** Calls leave what is pending alone *)

Lemma calm_install n pack callback st : calm n st (install pack callback st).2.
Proof. unfold install. cbn [snd runCommand]. calm_chain. Qed.

Lemma calm_uninstall n pack callback st : calm n st (uninstall pack callback st).2.
Proof. unfold uninstall. cbn [snd runCommand]. case_match; calm_chain. Qed.

Lemma calm_update n pack newVersion callback st :
  calm n st (update pack newVersion callback st).2.
Proof. unfold update. cbn [snd runCommand]. calm_chain. Qed.

Lemma calm_parse n args errorMessage callback st :
  calm n st (runApmCommandAndParseJSON args errorMessage callback st).2.
Proof. apply calm_record. Qed.

Lemma calm_loadOutdated n clearCache callback now st :
  (∀ p, callback = Settle p → (n ≤ p)%nat) →
  calm n st (loadOutdated clearCache callback now st).2.
Proof.
  intros Hsafe. unfold loadOutdated. cbn zeta.
  destruct clearCache; [cbn [snd runCommand]; unfold clearOutdatedCache; calm_chain|].
  destruct (value (apmCache_loadOutdated st)); [|cbn [snd runCommand]; calm_chain].
  destruct (expiry (apmCache_loadOutdated st) >? now);
    [|cbn [snd runCommand]; calm_chain].
  cbn [snd]. apply calm_call, Hsafe.
Qed.

Lemma calm_getPackage n x st :
  (n ≤ nextPromise st)%nat → calm n st (getPackage x st).2.
Proof.
  intros Hn. unfold getPackage.
  destruct (packagePromises st !! x); [apply calm_refl|].
  destruct (decide (x ∈ arrayMembers)); [apply calm_refl|].
  destruct (decide (x ∈ furtherArrayMembers)); [apply calm_refl|].
  split; [reflexivity|]. split; [cbn; lia|].
  intros p Hp. cbn. apply lookup_insert_ne. lia.
Qed.

(** A call of a caller that is no [installAlternative] leaves the jobs
    and the promises made so far as they are. *)
Lemma calm_serve st r :
  fromCaller r = true →
  (∀ pack alt callback, r ≠ CallInstallAlternative pack alt callback) →
  (∀ proc outcome now, r ≠ Completes proc outcome now) →
  calm (nextPromise st) st (serve st r).
Proof.
  intros Hr Halt Hend.
  assert (Hown : ∀ callback, ownFunction callback = true →
            ∀ p, callback = Settle p → (nextPromise st ≤ p)%nat)
    by (intros callback Hc p ->; discriminate).
  assert (Hnew : calm (nextPromise st) st (newPromise st).2)
    by (apply calm_newPromise; lia).
  destruct r; cbn [serve fromCaller] in *.
  - apply calm_install.
  - apply calm_uninstall.
  - apply calm_update.
  - exfalso. eapply Halt. reflexivity.
  - apply calm_loadOutdated, Hown, Hr.
  - apply calm_parse.
  - apply calm_parse.
  - apply calm_parse.
  - apply calm_parse.
  - apply calm_getPackage. lia.
  - unfold getInstalled, loadInstalled, runApmCommandAndParseJSON, runCommand.
    cbn [newPromise snd] in *. eapply calm_trans; [exact Hnew | apply calm_record].
  - unfold getFeatured, loadFeatured, runApmCommandAndParseJSON, runCommand.
    cbn [newPromise snd] in *. eapply calm_trans; [exact Hnew | apply calm_record].
  - unfold getOutdated. cbn [newPromise] in *.
    match goal with
    | |- context [loadOutdated ?c ?cb ?t ?s] =>
        pose proof (calm_loadOutdated (nextPromise st) c cb t s) as Hl;
        destruct (loadOutdated c cb t s) as [proc s1]
    end.
    cbn [snd] in *. eapply calm_trans; [exact Hnew|]. apply Hl.
    intros p [= <-]. lia.
  - exfalso. eapply Hend. reflexivity.
Qed.

(** *** The jobs that wait *)

Lemma due_same st st' job :
  promises st' !! uninstallPromise job = promises st !! uninstallPromise job →
  promises st' !! installPromise job = promises st !! installPromise job →
  due st' job = due st job.
Proof. intros Hu Hi. unfold due. rewrite Hu, Hi. reflexivity. Qed.

Lemma waiting_new (h : H) : waiting (newPackageManager h).
Proof. intros job Hjob. inversion Hjob. Qed.

Lemma waiting_calm st st' : waiting st → calm (nextPromise st) st st' → waiting st'.
Proof.
  intros Hw (Ha & Hn & Hp) job Hjob. rewrite Ha in Hjob.
  destruct (Hw job Hjob) as (Hdue & Hu & Hi & Hown).
  split; [|split; [lia|split; [lia | exact Hown]]].
  rewrite (due_same st st'); [exact Hdue | apply Hp, Hu | apply Hp, Hi].
Qed.

(** The reactions of jobs whose callbacks are functions of the callers
    settle nothing: the jobs that are decided react and go, the others
    stay. *)
Lemma react_own jobs :
  ∀ st,
    (∀ job, job ∈ jobs → ownFunction (alternativeCallback job) = true) →
    promises (react jobs st).2 = promises st ∧
    nextPromise (react jobs st).2 = nextPromise st ∧
    (react jobs st).1 = filter (λ job, due st job = false) jobs.
Proof.
  induction jobs as [|job jobs IH]; intros st Hown; cbn [react].
  - repeat split.
  - assert (Hjob : ∃ f, alternativeCallback job = UserFunction f).
    { specialize (Hown job ltac:(left)). destruct (alternativeCallback job); eauto.
      discriminate. }
    destruct Hjob as [f Hf].
    assert (Hrest : ∀ j, j ∈ jobs → ownFunction (alternativeCallback j) = true)
      by (intros j Hj; apply Hown; right; exact Hj).
    assert (Hgo : ∀ st', promises st' = promises st → nextPromise st' = nextPromise st →
              due st job = true →
              promises (react jobs st').2 = promises st ∧
              nextPromise (react jobs st').2 = nextPromise st ∧
              (react jobs st').1 = filter (λ job, due st job = false) (job :: jobs)).
    { intros st' Hp Hn Hdue. destruct (IH st' Hrest) as (Hp' & Hn' & Hr).
      split; [congruence|]. split; [congruence|].
      rewrite filter_cons, decide_False by (rewrite Hdue; discriminate).
      rewrite Hr. apply list_filter_iff. intros j.
      unfold due. rewrite Hp. reflexivity. }
    assert (Hstay : due st job = false →
              promises (let '(rest, st0) := react jobs st in (job :: rest, st0)).2 =
                promises st ∧
              nextPromise (let '(rest, st0) := react jobs st in (job :: rest, st0)).2 =
                nextPromise st ∧
              (let '(rest, st0) := react jobs st in (job :: rest, st0)).1 =
                filter (λ job, due st job = false) (job :: jobs)).
    { intros Hdue. destruct (IH st Hrest) as (Hp' & Hn' & Hr).
      destruct (react jobs st) as [rest st0]. cbn [fst snd] in *.
      split; [exact Hp'|]. split; [exact Hn'|].
      rewrite filter_cons, decide_True by exact Hdue. rewrite Hr. reflexivity. }
    unfold due in Hgo, Hstay.
    destruct (promises st !! uninstallPromise job) as [[|v|e]|];
      destruct (promises st !! installPromise job) as [[|v'|e']|];
      first [ apply Hstay; reflexivity
            | apply Hgo; [| |reflexivity];
              unfold alternativeFailed, alternativeInstalled; rewrite Hf; reflexivity ].
Qed.

Lemma waiting_deliver proc outcome now st :
  waiting st → waiting (deliver proc outcome now st).
Proof.
  intros Hw. unfold deliver.
  destruct (calm_complete proc outcome now st) as (Ha & Hn & _).
  set (st1 := complete proc outcome now st) in *.
  assert (Hown : ∀ job, job ∈ alternatives st1 →
            ownFunction (alternativeCallback job) = true).
  { intros job Hjob. rewrite Ha in Hjob. apply (Hw job Hjob). }
  destruct (react_own (alternatives st1) st1 Hown) as (Hp & Hn' & Hr).
  unfold runMicrotasks. destruct (react (alternatives st1) st1) as [rest st2].
  cbn [fst snd] in *. intros job Hjob. cbn [alternatives] in Hjob.
  rewrite Hr in Hjob. apply list_elem_of_filter in Hjob as [Hdue Hjob].
  rewrite Ha in Hjob. destruct (Hw job Hjob) as (_ & Hu & Hi & Hf).
  split; [|split; [cbn; lia|split; [cbn; lia | exact Hf]]].
  rewrite <- Hdue. unfold due. cbn [promises]. rewrite Hp. reflexivity.
Qed.
Lemma nextPromise_install pack callback st :
  nextPromise (install pack callback st).2 = nextPromise st.
Proof.
  unfold install, runCommand, emitPackageEvent. cbn [snd nextPromise record].
  unfold unload. repeat case_match; reflexivity.
Qed.

(** What [installAlternative] has done when it returns, whatever else
    is pending: two new pending promises, the two processes started and
    set to settle them, and one more [Promise.all] waiting. *)
Lemma installAlternative_begins pack alt callback st :
  let n := nextPromise st in
  ∃ stA stB,
    let '(pu, pi, st1) := installAlternative pack alt callback st in
    pu = (start (Uninstall pack) (Some (Settle n)) stA).1 ∧
    pi = (start (Install (plain alt)) (Some (Settle (S n))) stB).1 ∧
    promises st1 = <[S n := Pending]> (<[n := Pending]> (promises st)) ∧
    nextPromise st1 = S (S n) ∧
    alternatives st1 =
      alternatives st ++
      [{| uninstallPromise := n; installPromise := S n; eventPack := pack;
          eventAlternative := alt; alternativeCallback := callback |}] ∧
    emits st st1
      ["package-installing-alternative"; kind pack +:+ "uninstalling";
       "package-installing"].
Proof.
  cbn zeta.
  unfold installAlternative. cbn [newPromise].
  set (s0 := record _ st).
  set (sA := {| apmCache_loadOutdated := apmCache_loadOutdated s0;
                promises := <[nextPromise s0 := Pending]> (promises s0) |}).
  destruct (uninstall pack (Some (Settle (nextPromise s0))) sA) as [pu s1] eqn:Hu.
  set (sB := {| apmCache_loadOutdated := apmCache_loadOutdated s1;
                promises := <[nextPromise s1 := Pending]> (promises s1) |}).
  destruct (install _ (Some (Settle (nextPromise s1))) sB) as [pi s2] eqn:Hi.
  exists sA, sB.
  assert (Hu1 : pu = (uninstall pack (Some (Settle (nextPromise s0))) sA).1)
    by (rewrite Hu; reflexivity).
  assert (Hu2 : s1 = (uninstall pack (Some (Settle (nextPromise s0))) sA).2)
    by (rewrite Hu; reflexivity).
  assert (Hi1 : pi = (install (plain alt) (Some (Settle (nextPromise s1))) sB).1)
    by (unfold plain; rewrite Hi; reflexivity).
  assert (Hi2 : s2 = (install (plain alt) (Some (Settle (nextPromise s1))) sB).2)
    by (unfold plain; rewrite Hi; reflexivity).
  clear Hu Hi.
  assert (Hn1 : nextPromise s1 = S (nextPromise st)).
  { rewrite Hu2. unfold uninstall, runCommand, emitPackageEvent. cbn [snd nextPromise record].
    case_match; reflexivity. }
  assert (Hp1 : promises s1 = <[nextPromise st := Pending]> (promises st)).
  { rewrite Hu2. unfold uninstall, runCommand, emitPackageEvent. cbn [snd promises record].
    case_match; reflexivity. }
  assert (Ha1 : alternatives s1 = alternatives st).
  { rewrite Hu2. unfold uninstall, runCommand, emitPackageEvent. cbn [snd alternatives record].
    case_match; reflexivity. }
  assert (Hn2 : nextPromise s2 = S (S (nextPromise st))).
  { rewrite Hi2, nextPromise_install. subst sB. cbn [nextPromise]. rewrite Hn1.
    reflexivity. }
  rewrite Hn1 in Hi1, Hi2.
  split; [exact Hu1|]. split; [exact Hi1|]. split; [|split; [|split]].
  - cbn [promises]. rewrite Hi2.
    unfold install, runCommand, emitPackageEvent. cbn [snd promises record].
    rewrite promises_unload. subst sB. cbn [promises]. rewrite Hn1, Hp1. reflexivity.
  - cbn [nextPromise]. exact Hn2.
  - cbn [alternatives]. rewrite Hi2.
    unfold install, runCommand, emitPackageEvent. cbn [snd alternatives record].
    rewrite alternatives_unload. subst sB. cbn [alternatives].
    rewrite Ha1, Hn1. reflexivity.
  - cbn [trace].
    destruct (trace_start (Uninstall pack) (Some (Settle (nextPromise s0))) sA)
      as (a1 & b1 & Ht1).
    destruct (trace_start (Install (plain alt)) (Some (Settle (S (nextPromise st)))) sB)
      as (a2 & b2 & Ht2).
    cbn [start] in Ht1, Ht2. rewrite <- Hu2 in Ht1. rewrite <- Hi2 in Ht2.
    eexists. split.
    + rewrite Ht2. cbn [trace sB]. rewrite Ht1. cbn [trace sA s0 record].
      rewrite <- !app_assoc. reflexivity.
    + reflexivity.
Qed.

Lemma waiting_installAlternative pack alt callback st :
  waiting st → ownFunction callback = true →
  waiting (installAlternative pack alt callback st).2.
Proof.
  intros Hw Hown.
  destruct (installAlternative_begins pack alt callback st) as (sa & sb & Hstart).
  destruct (installAlternative pack alt callback st) as [[pu pi] st1].
  cbn zeta in Hstart. destruct Hstart as (_ & _ & Hprom & Hnext & Halt & _).
  cbn [snd]. intros job Hjob. rewrite Halt in Hjob. rewrite Hnext.
  apply elem_of_app in Hjob as [Hjob|Hjob].
  - destruct (Hw job Hjob) as (Hdue & Hu & Hi & Hf).
    split; [|split; [lia|split; [lia | exact Hf]]].
    rewrite <- Hdue. apply due_same; rewrite Hprom, !lookup_insert_ne by lia; reflexivity.
  - apply list_elem_of_singleton in Hjob as ->. cbn.
    split; [|split; [lia|split; [lia | exact Hown]]].
    unfold due. cbn. rewrite Hprom, lookup_insert_ne, !lookup_insert_eq by lia.
    reflexivity.
Qed.

Lemma waiting_serve st r : waiting st → fromCaller r = true → waiting (serve st r).
Proof.
  intros Hw Hr.
  destruct r as [| | |pack alt callback| | | | | | | | | |proc outcome now];
    try (apply (waiting_calm st); [exact Hw|];
         apply calm_serve; [exact Hr | discriminate | discriminate]).
  - apply waiting_installAlternative; [exact Hw | exact Hr].
  - apply waiting_deliver, Hw.
Qed.

(** Whatever callers have asked and whichever processes have ended, no
    reaction is left to run between two turns. *)
Lemma waiting_session requests st :
  forallb fromCaller requests = true → waiting st → waiting (session requests st).
Proof.
  revert st. induction requests as [|r requests IH]; intros st Hall Hw; [exact Hw|].
  cbn [forallb] in Hall. apply andb_true_iff in Hall as [Hr Hall].
  apply (IH (serve st r) Hall), waiting_serve; assumption.
Qed.
(** *** One job among others *)

(** Jobs that wait are passed over by the reactions. *)
Lemma react_passes old :
  ∀ rest st,
    (∀ j, j ∈ old → due st j = false) →
    react (old ++ rest) st = (old ++ (react rest st).1, (react rest st).2).
Proof.
  induction old as [|j old IH]; intros rest st Hold; cbn [app react].
  - destruct (react rest st); reflexivity.
  - assert (Hj : due st j = false) by (apply Hold; left).
    assert (Hrest : ∀ j', j' ∈ old → due st j' = false)
      by (intros j' Hj'; apply Hold; right; exact Hj').
    rewrite (IH rest st Hrest). unfold due in Hj.
    destruct (promises st !! uninstallPromise j) as [[|v|e]|];
      destruct (promises st !! installPromise j) as [[|v'|e']|];
      try discriminate; reflexivity.
Qed.

Lemma runMicrotasks_among st old tail :
  alternatives st = old ++ tail →
  (∀ j, j ∈ old → due st j = false) →
  alternatives (runMicrotasks st) = old ++ (react tail st).1 ∧
  promises (runMicrotasks st) = promises (react tail st).2 ∧
  trace (runMicrotasks st) = trace (react tail st).2.
Proof.
  intros Halt Hold. unfold runMicrotasks. rewrite Halt, (react_passes old tail st Hold).
  repeat split.
Qed.

(** The reaction of one job whose callback is a function of its caller,
    by the states of its two promises. *)
Lemma react_last st job su si f :
  promises st !! uninstallPromise job = Some su →
  promises st !! installPromise job = Some si →
  alternativeCallback job = UserFunction f →
  promises (react [job] st).2 = promises st ∧
  match su, si with
  | Rejected _, _ | _, Rejected _ =>
      (react [job] st).1 = [] ∧
      emits st (react [job] st).2 ["package-install-alternative-failed"]
  | Fulfilled _, Fulfilled _ =>
      (react [job] st).1 = [] ∧
      emits st (react [job] st).2 ["package-installed-alternative"]
  | _, _ => (react [job] st).1 = [job] ∧ emits st (react [job] st).2 []
  end.
Proof.
  intros Hu Hi Hf. cbn [react]. rewrite Hu, Hi.
  assert (Hfail : ∀ e,
    promises (alternativeFailed job e st) = promises st ∧
    emits st (alternativeFailed job e st) ["package-install-alternative-failed"]).
  { intros e. unfold alternativeFailed. rewrite Hf. split; [reflexivity|].
    eexists. split; [cbn [trace record call]; rewrite <- !app_assoc|];
      reflexivity. }
  assert (Hdone :
    promises (alternativeInstalled job st) = promises st ∧
    emits st (alternativeInstalled job st) ["package-installed-alternative"]).
  { unfold alternativeInstalled. rewrite Hf. split; [reflexivity|].
    eexists. split; [cbn [trace record call]; rewrite <- !app_assoc|];
      reflexivity. }
  destruct su as [|v|e], si as [|v'|e']; cbn [fst snd];
    first [ split; [reflexivity | split; [reflexivity | apply emits_refl]]
          | split; [apply Hfail | split; [reflexivity | apply Hfail]]
          | split; [apply Hdone | split; [reflexivity | apply Hdone]] ].
Qed.

(** One of the two processes of a pending [installAlternative] ends while
    other jobs wait; [p] is its promise and [q], in state [sq], the
    promise of the other. *)
Lemma deliver_job op p q st0 st old job f outcome now sq :
  alternatives st = old ++ [job] →
  (∀ j, j ∈ old →
     due st j = false ∧ uninstallPromise j ≠ p ∧ installPromise j ≠ p) →
  uninstallPromise job = p ∧ installPromise job = q ∨
  uninstallPromise job = q ∧ installPromise job = p →
  p ≠ q →
  promises st !! p = Some Pending →
  promises st !! q = Some sq →
  alternativeCallback job = UserFunction f →
  let st' := deliver (start op (Some (Settle p)) st0).1 outcome now st in
  (∃ s, promises st' = <[p := s]> (promises st) ∧
        if ok outcome then s = Fulfilled Undefined else ∃ e, s = Rejected e) ∧
  match ok outcome, sq with
  | true, Pending =>
      alternatives st' = old ++ [job] ∧ emits st st' [terminal op outcome]
  | true, Fulfilled _ =>
      alternatives st' = old ∧
      emits st st' [terminal op outcome; "package-installed-alternative"]
  | _, _ =>
      alternatives st' = old ∧
      emits st st' [terminal op outcome; "package-install-alternative-failed"]
  end.
Proof.
  intros Hjobs Hold Hrole Hpq Hp Hq Hf. cbn zeta. unfold deliver.
  destruct (complete_settles op p st0 st outcome now) as ((s & Hs & Hprom) & Halt & Hemit).
  set (st1 := complete _ outcome now st) in *.
  rewrite promises_settle, Hp in Hprom. rewrite Hjobs in Halt.
  assert (Hp1 : promises st1 !! p = Some s) by (rewrite Hprom; apply lookup_insert_eq).
  assert (Hq1 : promises st1 !! q = Some sq)
    by (rewrite Hprom, lookup_insert_ne by exact Hpq; exact Hq).
  assert (Hold1 : ∀ j, j ∈ old → due st1 j = false).
  { intros j Hj. destruct (Hold j Hj) as (Hdue & Hu & Hi). rewrite <- Hdue.
    apply due_same; rewrite Hprom; apply lookup_insert_ne; congruence. }
  destruct (runMicrotasks_among st1 old [job] Halt Hold1) as (Ha & Hpr & Htr).
  assert (Hwrap : ∀ names, emits st1 (react [job] st1).2 names →
            emits st (runMicrotasks st1) (terminal op outcome :: names)).
  { intros names (l & Hl & Hn). destruct Hemit as (k & Hk & Hkn).
    exists (k ++ l). split.
    - rewrite Htr, Hl, Hk. symmetry. apply app_assoc.
    - rewrite emitted_app, Hkn, Hn. reflexivity. }
  destruct Hrole as [[Hu Hi]|[Hu Hi]].
  - destruct (react_last st1 job s sq f) as (Hsame & Hcase);
      [rewrite Hu; exact Hp1 | rewrite Hi; exact Hq1 | exact Hf|].
    split; [exists s; split; [congruence | exact Hs]|].
    destruct (ok outcome).
    + subst s. destruct sq; destruct Hcase as (Hr & He); rewrite Hr in Ha;
        rewrite ?app_nil_r in Ha; (split; [exact Ha | apply Hwrap, He]).
    + destruct Hs as [e ->]. destruct Hcase as (Hr & He). rewrite Hr, app_nil_r in Ha.
      destruct sq; (split; [exact Ha | apply Hwrap, He]).
  - destruct (react_last st1 job sq s f) as (Hsame & Hcase);
      [rewrite Hu; exact Hq1 | rewrite Hi; exact Hp1 | exact Hf|].
    split; [exists s; split; [congruence | exact Hs]|].
    destruct (ok outcome).
    + subst s. destruct sq; destruct Hcase as (Hr & He); rewrite Hr in Ha;
        rewrite ?app_nil_r in Ha; (split; [exact Ha | apply Hwrap, He]).
    + destruct Hs as [e ->].
      destruct sq; destruct Hcase as (Hr & He); rewrite Hr, app_nil_r in Ha;
        (split; [exact Ha | apply Hwrap, He]).
Qed.

(** A lifecycle process ends while the pending jobs wait for other
    promises than its own. *)
Lemma deliver_others op p st0 st outcome now :
  (∀ j, j ∈ alternatives st →
     due st j = false ∧ uninstallPromise j ≠ p ∧ installPromise j ≠ p) →
  let st' := deliver (start op (Some (Settle p)) st0).1 outcome now st in
  emits st st' [terminal op outcome].
Proof.
  intros Hold. cbn zeta. unfold deliver.
  destruct (complete_settles op p st0 st outcome now) as ((s & Hs & Hprom) & Halt & Hemit).
  set (st1 := complete _ outcome now st) in *.
  assert (Hold1 : ∀ j, j ∈ alternatives st → due st1 j = false).
  { intros j Hj. destruct (Hold j Hj) as (Hdue & Hu & Hi). rewrite <- Hdue.
    apply due_same; rewrite Hprom, promises_settle; repeat case_match;
      try reflexivity; apply lookup_insert_ne; congruence. }
  destruct (runMicrotasks_among st1 (alternatives st) []) as (_ & _ & Htr);
    [rewrite Halt; symmetry; apply app_nil_r | exact Hold1|].
  cbn [react snd] in Htr. destruct Hemit as (k & Hk & Hkn).
  exists k. split; [rewrite Htr; exact Hk | exact Hkn].
Qed.

(** The two turns that end an [installAlternative] while other jobs
    wait: the process of operation [op1] with promise [p] first, then that
    of [op2] with promise [q]. *)
Lemma alternative_turns_among op1 op2 p q sa sb st old job f o1 o2 t1 t2 :
  alternatives st = old ++ [job] →
  (∀ j, j ∈ old →
     due st j = false ∧
     (uninstallPromise j ≠ p ∧ installPromise j ≠ p) ∧
     (uninstallPromise j ≠ q ∧ installPromise j ≠ q)) →
  uninstallPromise job = p ∧ installPromise job = q ∨
  uninstallPromise job = q ∧ installPromise job = p →
  p ≠ q →
  promises st !! p = Some Pending →
  promises st !! q = Some Pending →
  alternativeCallback job = UserFunction f →
  let st1 := deliver (start op1 (Some (Settle p)) sa).1 o1 t1 st in
  let st2 := deliver (start op2 (Some (Settle q)) sb).1 o2 t2 st1 in
  emitted (since st st1) =
    terminal op1 o1 :: (if ok o1 then [] else ["package-install-alternative-failed"]) ∧
  emitted (since st1 st2) =
    terminal op2 o2 ::
      (if ok o1
       then [if ok o2 then "package-installed-alternative"
             else "package-install-alternative-failed"]
       else []).
Proof.
  intros Hjobs Hold Hrole Hpq Hp Hq Hf. cbn zeta.
  assert (Hold_p : ∀ j, j ∈ old →
            due st j = false ∧ uninstallPromise j ≠ p ∧ installPromise j ≠ p)
    by (intros j Hj; destruct (Hold j Hj) as (? & ? & _); auto).
  pose proof (deliver_job op1 p q sa st old job f o1 t1 Pending
                Hjobs Hold_p Hrole Hpq Hp Hq Hf) as H1.
  cbn zeta in H1.
  set (st1 := deliver _ o1 t1 st) in *.
  destruct H1 as ((s & Hprom & Hs) & H1).
  assert (Hold1 : ∀ j, j ∈ old →
            due st1 j = false ∧ uninstallPromise j ≠ q ∧ installPromise j ≠ q).
  { intros j Hj. destruct (Hold j Hj) as (Hdue & (Hu & Hi) & Hq').
    split; [|exact Hq']. rewrite <- Hdue.
    apply due_same; rewrite Hprom; apply lookup_insert_ne; congruence. }
  assert (Hq1 : promises st1 !! q = Some Pending)
    by (rewrite Hprom, lookup_insert_ne by exact Hpq; exact Hq).
  destruct (ok o1).
  - destruct H1 as (Ha & He). split; [apply emits_since, He|]. subst s.
    assert (Hrole' : uninstallPromise job = q ∧ installPromise job = p ∨
                     uninstallPromise job = p ∧ installPromise job = q) by tauto.
    assert (Hp1 : promises st1 !! p = Some (Fulfilled Undefined))
      by (rewrite Hprom; apply lookup_insert_eq).
    pose proof (deliver_job op2 q p sb st1 old job f o2 t2 _ Ha Hold1 Hrole'
                  (not_eq_sym Hpq) Hq1 Hp1 Hf) as H2.
    cbn zeta in H2. destruct H2 as (_ & H2).
    destruct (ok o2); destruct H2 as (_ & He2); apply emits_since, He2.
  - destruct H1 as (Ha & He). split; [apply emits_since, He|].
    apply emits_since, deliver_others. rewrite Ha. exact Hold1.
Qed.
(** C2, as the code has it.  In whatever state callers and processes
    have left the package manager, with other calls of
    [installAlternative] pending or not: after [installAlternative] has
    emitted "package-installing-alternative" and started both operations,
    the composite reports in the turn in which it is decided:
    "package-installed-alternative" follows the terminal event of the
    second operation when both succeeded, and
    "package-install-alternative-failed" follows the terminal event of the
    first operation that fails, whether or not the other has ended; an
    operation that ends after that emits its own terminal event only. *)
Theorem alternative_terminal_event (requests : list Request) (h : H)
    (pack : Pack) (alternativePackageName : string) (f : nat)
    (uo io : Outcome) (t1 t2 : Z)
    (Hcallers : forallb fromCaller requests = true) :
  let st := session requests (newPackageManager h) in
  let '(uninstallProcess, installProcess, st1) :=
    installAlternative pack alternativePackageName (UserFunction f) st in
  let uninstalled := terminal (Uninstall pack) uo in
  let installed := terminal (Install (plain alternativePackageName)) io in
  let done := "package-installed-alternative" in
  let failure := "package-install-alternative-failed" in
  emitted (since st st1) =
    ["package-installing-alternative"; kind pack +:+ "uninstalling";
     "package-installing"] ∧
  (let stU := deliver uninstallProcess uo t1 st1 in
   emitted (since st1 stU) = uninstalled :: (if ok uo then [] else [failure]) ∧
   emitted (since stU (deliver installProcess io t2 stU)) =
     installed :: (if ok uo then [if ok io then done else failure] else [])) ∧
  (let stI := deliver installProcess io t1 st1 in
   emitted (since st1 stI) = installed :: (if ok io then [] else [failure]) ∧
   emitted (since stI (deliver uninstallProcess uo t2 stI)) =
     uninstalled :: (if ok io then [if ok uo then done else failure] else [])).
Proof.
  cbn zeta. set (st := session requests (newPackageManager h)).
  assert (Hw : waiting st) by (apply waiting_session; [exact Hcallers | apply waiting_new]).
  destruct (installAlternative_begins pack alternativePackageName (UserFunction f) st)
    as (sa & sb & Hstart).
  destruct (installAlternative pack alternativePackageName (UserFunction f) st)
    as [[pu pi] st1].
  cbn zeta in Hstart. destruct Hstart as (-> & -> & Hprom & _ & Halt & Hemit).
  assert (Hne : nextPromise st ≠ S (nextPromise st)) by lia.
  assert (Hu : promises st1 !! nextPromise st = Some Pending).
  { rewrite Hprom, lookup_insert_ne by lia. apply lookup_insert_eq. }
  assert (Hi : promises st1 !! S (nextPromise st) = Some Pending).
  { rewrite Hprom. apply lookup_insert_eq. }
  assert (Hold : ∀ j, j ∈ alternatives st →
            due st1 j = false ∧
            (uninstallPromise j ≠ nextPromise st ∧ installPromise j ≠ nextPromise st) ∧
            (uninstallPromise j ≠ S (nextPromise st) ∧
             installPromise j ≠ S (nextPromise st))).
  { intros j Hj. destruct (Hw j Hj) as (Hdue & Hju & Hji & _).
    split; [|lia]. rewrite <- Hdue.
    apply due_same; rewrite Hprom, !lookup_insert_ne by lia; reflexivity. }
  assert (Hold' : ∀ j, j ∈ alternatives st →
            due st1 j = false ∧
            (uninstallPromise j ≠ S (nextPromise st) ∧
             installPromise j ≠ S (nextPromise st)) ∧
            (uninstallPromise j ≠ nextPromise st ∧ installPromise j ≠ nextPromise st))
    by (intros j Hj; destruct (Hold j Hj) as (? & ? & ?); auto).
  split; [apply emits_since, Hemit|]. split.
  - exact (alternative_turns_among (Uninstall pack) (Install (plain alternativePackageName))
             _ _ sa sb st1 (alternatives st) _ f uo io t1 t2 Halt Hold
             (or_introl (conj eq_refl eq_refl)) Hne Hu Hi eq_refl).
  - exact (alternative_turns_among (Install (plain alternativePackageName)) (Uninstall pack)
             _ _ sb sa st1 (alternatives st) _ f io uo t1 t2 Halt Hold'
             (or_intror (conj eq_refl eq_refl)) (not_eq_sym Hne) Hi Hu eq_refl).
Qed.

End Alternatives.

(** ** The registry cache *)

(** C6. [fetchFromCache] always calls back without an error.  It hands
    over the cached payload when an entry exists and the system is offline,
    or the caller forces the cache, or the entry is younger than twelve
    hours; [null] when the system is online, the cache is not forced, and
    the entry is absent or expired; and an empty object when the system is
    offline and nothing is cached under the path. *)
Theorem fetchFromCache_cases {Data : Type} (packagePath : string)
    (force online : bool) (now : Z)
    (localStorage : gmap string (CacheEntry Data)) :
  let cached := localStorage !! cacheKeyForPath packagePath in
  let result := fetchFromCache packagePath force online now localStorage in
  result.1 = None ∧
  (∀ entry,
     cached = Some entry →
     online = false ∨ force = true ∨ now - createdOn entry < expiry_ms →
     result.2 = CachedData (data entry)) ∧
  (online = true → force = false →
   cached = None ∨
     (∃ entry, cached = Some entry ∧ ¬ now - createdOn entry < expiry_ms) →
   result.2 = Null) ∧
  (online = false → cached = None → result.2 = EmptyObject).
Proof.
  cbn zeta. unfold fetchFromCache.
  destruct (localStorage !! cacheKeyForPath packagePath) as [entry|] eqn:Hc.
  - destruct (Z.ltb_spec (now - createdOn entry) expiry_ms) as [Hlt|Hge].
    + rewrite !orb_true_r. repeat split; try discriminate.
      * intros e [= <-] _. reflexivity.
      * intros _ _ [Hnone|(e & [= <-] & Hold)]; [discriminate | contradiction].
    + rewrite !orb_false_r. destruct online, force; cbn; repeat split; try discriminate;
        try (intros e [= <-] _; reflexivity).
      intros e [= <-] [?|[?|?]]; try discriminate. lia.
  - destruct online; cbn; repeat split; try discriminate; intros; reflexivity.
Qed.

(** ** Avatars *)

(** What [cachedAvatar] finds is within the twelve hours, online or not. *)
Lemma cachedAvatar_fresh files now imagePath :
  cachedAvatar files now = (None, Some imagePath) →
  ∃ createdOn,
    parseInt (stamp (basename imagePath)) = Some createdOn ∧
    now - createdOn < expiry_ms.
Proof.
  destruct files as [err|files]; cbn [cachedAvatar]; [discriminate|].
  intros [= Hfind]. apply find_some in Hfind as [_ Hfresh].
  destruct (parseInt (stamp (basename imagePath))) as [t|]; [|discriminate].
  exists t. split; [reflexivity|]. apply bool_decide_eq_true in Hfresh. exact Hfresh.
Qed.

(** Without a file within the twelve hours [avatar] answers [null] when
    the system is offline, whatever older files exist. *)
Lemma avatar_offline_without_fresh login files now :
  (cachedAvatar (inr files) now).2 = None →
  avatar login (inr files) false now = Answer None None.
Proof.
  unfold avatar. destruct (cachedAvatar (inr files) now) as [e cached].
  cbn [snd]. intros ->. reflexivity.
Qed.

(** C7 fails for a stale file when the system is offline.  The only file
    cached for "a" was written at time 1000 and is one millisecond past
    its twelve hours: [cachedAvatar] passes over it, and [avatar], whose
    own test would let an offline caller have a stale file, answers
    [null]. *)
Theorem avatar_offline_stale :
  let now := 1000 + expiry_ms + 1 in
  cachedAvatar (inr ["/cache/a-1000"]) now = (None, None) ∧
  avatar "a" (inr ["/cache/a-1000"]) false now = Answer None None ∧
  avatar "a" (inr ["/cache/a-1000"]) true now = Download "a" ∧
  avatar "a" (inr ["/cache/a-1000"]) false (now - 2) =
    Answer None (Some "/cache/a-1000").
Proof. vm_compute. repeat split. Qed.

(** ** Search *)

(** An entry with a [releases] property makes the filter of [search]
    throw, wherever it stands in the body. *)
Lemma filter_throws body pkg :
  pkg ∈ body → releases pkg ≠ None →
  filterThrowing hasRelease body = inl (ReferenceError "releases").
Proof.
  intros Hin Hrel. induction body as [|x body IH]; [inversion Hin|].
  cbn [filterThrowing]. unfold hasRelease at 1.
  destruct (releases x) eqn:Hx; [reflexivity|].
  apply elem_of_cons in Hin as [->|Hin]; [congruence|].
  rewrite (IH Hin). reflexivity.
Qed.

(** [search] resolves for no body but one without any [releases], and
    then with the empty list. *)
Lemma search_resolves_empty query body packages :
  search query (inr body) = Resolved packages →
  packages = [] ∧ ∀ pkg, pkg ∈ body → releases pkg = None.
Proof.
  cbn [search]. intros Hs.
  assert (Hkept : ∀ kept, filterThrowing hasRelease body = inr kept →
                    kept = [] ∧ ∀ pkg, pkg ∈ body → releases pkg = None).
  { clear Hs. induction body as [|x body IH]; intros kept; cbn [filterThrowing].
    - intros [= <-]. split; [reflexivity|]. intros pkg Hin. inversion Hin.
    - unfold hasRelease at 1. destruct (releases x) eqn:Hx; [discriminate|].
      destruct (filterThrowing hasRelease body) as [e|kept'] eqn:Hf; [discriminate|].
      intros [= <-]. destruct (IH kept' eq_refl) as [-> Hall].
      split; [reflexivity|]. intros pkg Hin.
      apply elem_of_cons in Hin as [->|Hin]; [exact Hx | exact (Hall pkg Hin)]. }
  destruct (filterThrowing hasRelease body) as [e|kept]; [discriminate|].
  destruct (Hkept kept eq_refl) as [-> Hall]. injection Hs as <-.
  split; [reflexivity | exact Hall].
Qed.

(** C9 fails on every body with a published package.  For the body whose
    only entry has [releases.latest] "1.0.0" the filter reads the
    undeclared variable [releases] and throws a ReferenceError: the
    promise is neither resolved nor rejected. *)
Theorem search_published_throws :
  search "x" (inr [published]) = Thrown (ReferenceError "releases") ∧
  ∀ query body pkg,
    pkg ∈ body → releases pkg ≠ None →
    search query (inr body) = Thrown (ReferenceError "releases").
Proof.
  split; [reflexivity|].
  intros query body pkg Hin Hrel. cbn [search].
  rewrite (filter_throws body pkg Hin Hrel). reflexivity.
Qed.

(** ** The sweep of the avatar cache *)

Section Names.

Lemma append_assoc a b c : (a +:+ b) +:+ c = a +:+ b +:+ c.
Proof.
  induction a as [|x a IH]; [reflexivity|].
  change (String x ((a +:+ b) +:+ c) = String x (a +:+ b +:+ c)).
  rewrite IH. reflexivity.
Qed.

Lemma split_nonempty sep s : split sep s ≠ [].
Proof.
  destruct s as [|c s]; cbn [split]; [discriminate|].
  destruct (decide (c = sep)); [discriminate|].
  destruct (split sep s); discriminate.
Qed.

Lemma join_cons_char sep c part parts :
  join sep (String c part :: parts) = String c (join sep (part :: parts)).
Proof. destruct parts; reflexivity. Qed.

(** Joining the parts of a split gives the text back. *)
Lemma join_split sep s : join (String sep "") (split sep s) = s.
Proof.
  induction s as [|c s IH]; cbn [split]; [reflexivity|].
  destruct (decide (c = sep)) as [->|Hne].
  - pose proof (split_nonempty sep s) as Hs.
    destruct (split sep s) as [|part parts]; [contradiction|].
    change (join (String sep "") ("" :: part :: parts))
      with (String sep (join (String sep "") (part :: parts))).
    rewrite IH. reflexivity.
  - pose proof (split_nonempty sep s) as Hs.
    destruct (split sep s) as [|part parts]; [contradiction|].
    rewrite join_cons_char, IH. reflexivity.
Qed.

Lemma split_two sep s :
  sep ∈ list_ascii_of_string s → (2 ≤ length (split sep s))%nat.
Proof.
  induction s as [|c s IH]; cbn [list_ascii_of_string split]; intros Hin.
  - inversion Hin.
  - pose proof (split_nonempty sep s) as Hs.
    destruct (decide (c = sep)) as [->|Hne].
    + destruct (split sep s); [contradiction|]. cbn. lia.
    + apply elem_of_cons in Hin as [->|Hin]; [contradiction|].
      specialize (IH Hin). destruct (split sep s); [contradiction|]. exact IH.
Qed.

Lemma join_snoc sep init x :
  init ≠ [] → join sep (init ++ [x]) = join sep init +:+ sep +:+ x.
Proof.
  induction init as [|a init IH]; [contradiction|]. intros _.
  destruct init as [|b init].
  - reflexivity.
  - change (join sep ((a :: b :: init) ++ [x]))
      with (a +:+ sep +:+ join sep ((b :: init) ++ [x])).
    rewrite IH by discriminate.
    change (join sep (a :: b :: init)) with (a +:+ sep +:+ join sep (b :: init)).
    rewrite !append_assoc. reflexivity.
Qed.

Lemma snoc_last {A} (l : list A) :
  l ≠ [] → ∃ x, last l = Some x ∧ l = removelast l ++ [x].
Proof.
  induction l as [|a l IH]; [contradiction|]. intros _.
  destruct l as [|b l].
  - exists a. split; reflexivity.
  - destruct IH as (x & Hx & Hl); [discriminate|].
    exists x. split; [exact Hx|].
    change (removelast (a :: b :: l)) with (a :: removelast (b :: l)).
    cbn [app]. rewrite <- Hl. reflexivity.
Qed.

(** The name the sweep rebuilds for a file whose name holds a hyphen is
    the name of the file. *)
Lemma rebuilt filename :
  "-"%char ∈ list_ascii_of_string filename →
  loginOf filename +:+ "-" +:+ stamp filename = filename.
Proof.
  intros Hin. pose proof (split_two _ _ Hin) as Hlen.
  destruct (snoc_last (split "-" filename) (split_nonempty _ _)) as (x & Hx & Hl).
  unfold loginOf, stamp. rewrite Hx. cbn [default from_option id].
  rewrite <- join_snoc.
  - rewrite <- Hl. apply join_split.
  - intros Hnil. rewrite Hl, Hnil in Hlen. cbn in Hlen. lia.
Qed.

End Names.

Section Sweep.

(** A list of names that is not empty has a greatest one. *)
Lemma max_exists (l : list string) :
  l ≠ [] → ∃ m, m ∈ l ∧ ∀ x, x ∈ l → String.le x m.
Proof.
  induction l as [|a l IH]; [contradiction|]. intros _.
  destruct l as [|b l].
  - exists a. split; [left|]. intros x Hx.
    apply list_elem_of_singleton in Hx as ->. reflexivity.
  - destruct IH as (m & Hm & Hmax); [discriminate|].
    destruct (total String.le a m) as [Ham|Hma].
    + exists m. split; [right; exact Hm|]. intros x Hx.
      apply elem_of_cons in Hx as [->|Hx]; [exact Ham | exact (Hmax x Hx)].
    + exists a. split; [left|]. intros x Hx.
      apply elem_of_cons in Hx as [->|Hx]; [reflexivity|].
      etrans; [exact (Hmax x Hx) | exact Hma].
Qed.

(** The sweep deletes, of the distinct names of one login, those that are
    not the greatest. *)
Lemma expired_spec (children : list string) (g : string) :
  NoDup children →
  g ∈ expired children ↔ g ∈ children ∧ ∃ f, f ∈ children ∧ ¬ String.le f g.
Proof.
  intros Hnd. unfold expired, sort.
  pose proof (merge_sort_Permutation String.le children) as Hperm.
  assert (Hsorted : StronglySorted String.le (merge_sort String.le children))
    by (apply StronglySorted_merge_sort; apply _).
  destruct (decide (merge_sort String.le children = [])) as [Hnil|Hne].
  - rewrite Hnil in *. apply Permutation_nil_l in Hperm. subst children. cbn.
    split; [intros Hin; inversion Hin | intros [Hin _]; inversion Hin].
  - destruct (snoc_last _ Hne) as (m & _ & Hl).
    set (init := removelast (merge_sort String.le children)) in *.
    rewrite Hl in Hperm, Hsorted.
    assert (Hnd' : NoDup (init ++ [m])) by (rewrite Hperm; exact Hnd).
    apply NoDup_app in Hnd' as (_ & Hdisj & _).
    assert (Hle : ∀ x, x ∈ init → String.le x m).
    { intros x Hx. eapply StronglySorted_app_1_elem_of; [exact Hsorted | exact Hx | left]. }
    assert (Hin : ∀ x, x ∈ children ↔ x ∈ init ∨ x = m).
    { intros x. rewrite <- Hperm, elem_of_app, list_elem_of_singleton. reflexivity. }
    split.
    + intros Hg. split; [apply Hin; left; exact Hg|].
      exists m. split; [apply Hin; right; reflexivity|].
      intros Hmg. apply (Hdisj g Hg).
      assert (g = m) as -> by (apply (anti_symm String.le); [apply Hle, Hg | exact Hmg]).
      left.
    + intros [Hg (f & Hf & Hnle)].
      apply Hin in Hg as [Hg| ->]; [exact Hg|].
      exfalso. apply Hnle. apply Hin in Hf as [Hf| ->]; [apply Hle, Hf | reflexivity].
Qed.

Lemma elem_of_removelast {A} (l : list A) x : x ∈ removelast l → x ∈ l.
Proof.
  induction l as [|a l IH]; [intros Hin; inversion Hin|].
  destruct l as [|b l]; [intros Hin; inversion Hin|].
  change (removelast (a :: b :: l)) with (a :: removelast (b :: l)).
  intros Hin. apply elem_of_cons in Hin as [->|Hin]; [left | right; exact (IH Hin)].
Qed.

Lemma elem_of_expired children g : g ∈ expired children → g ∈ children.
Proof.
  intros Hin. apply elem_of_removelast in Hin. unfold sort in Hin.
  rewrite (merge_sort_Permutation String.le children) in Hin. exact Hin.
Qed.

(** Deleting one child: it leaves the directory unless it was not there
    or the file system refuses, and a refusal other than ENOENT prints
    one warning. *)
Lemma deleteAvatar_effects cachePath refused (c : string) (dir : gset string)
    (w : list string) :
  ∃ dir1 extra,
    deleteAvatar cachePath refused (dir, w) c = (dir1, w ++ extra) ∧
    (∀ g, g ∈ dir1 ↔ g ∈ dir ∧ (g = c → is_Some (refused g))) ∧
    ∀ x, x ∈ extra ↔
      ∃ code,
        c ∈ dir ∧ refused c = Some code ∧ code ≠ "ENOENT" ∧
        x = "Error deleting avatar (" +:+ code +:+ "): " +:+ cachePath +:+ "/" +:+ c.
Proof.
  unfold deleteAvatar, unlink. cbn zeta.
  destruct (decide (c ∈ dir)) as [Hin|Hout].
  - destruct (refused c) as [code|] eqn:Hc.
    + destruct (decide (code = "ENOENT")) as [->|Hne].
      * exists dir, []. rewrite app_nil_r. split; [reflexivity|]. split.
        -- intros g. split; [|tauto]. intros Hg. split; [exact Hg|].
           intros ->. rewrite Hc. eauto.
        -- intros x. split; [intros Hx; inversion Hx|].
           intros (code & _ & [= <-] & Hne & _). contradiction.
      * eexists dir, [_]. split; [reflexivity|]. split.
        -- intros g. split; [|tauto]. intros Hg. split; [exact Hg|].
           intros ->. rewrite Hc. eauto.
        -- intros x. rewrite list_elem_of_singleton. split.
           ++ intros ->. exists code. auto.
           ++ intros (code' & _ & [= <-] & _ & ->). reflexivity.
    + exists (dir ∖ {[c]}), []. rewrite app_nil_r. split; [reflexivity|]. split.
      * intros g. rewrite elem_of_difference, elem_of_singleton. split.
        -- intros [Hg Hne]. split; [exact Hg|]. intros ->. contradiction.
        -- intros [Hg Hs]. split; [exact Hg|]. intros ->.
           destruct (Hs eq_refl) as [code Hcode]. congruence.
      * intros x. split; [intros Hx; inversion Hx|].
        intros (code & _ & Hcode & _). congruence.
  - destruct (decide ("ENOENT" = "ENOENT")) as [_|[]]; [|reflexivity].
    exists dir, []. rewrite app_nil_r. split; [reflexivity|]. split.
    + intros g. split; [|tauto]. intros Hg. split; [exact Hg|].
      intros ->. contradiction.
    + intros x. split; [intros Hx; inversion Hx|].
      intros (code & Hin & _). contradiction.
Qed.

(** Deleting a list of children: those that are there and not refused
    leave the directory, and every refusal other than ENOENT prints its
    warning. *)
Lemma foldl_deleteAvatar cachePath refused (l : list string) (dir : gset string)
    (w : list string) :
  ∃ dir' more,
    foldl (deleteAvatar cachePath refused) (dir, w) l = (dir', w ++ more) ∧
    (∀ g, g ∈ dir' ↔ g ∈ dir ∧ (g ∈ l → is_Some (refused g))) ∧
    ∀ x, x ∈ more ↔
      ∃ child code,
        child ∈ l ∧ child ∈ dir ∧ refused child = Some code ∧ code ≠ "ENOENT" ∧
        x = "Error deleting avatar (" +:+ code +:+ "): " +:+ cachePath +:+ "/" +:+ child.
Proof.
  revert dir w. induction l as [|c l IH]; intros dir w; cbn [foldl].
  - exists dir, []. rewrite app_nil_r. split; [reflexivity|]. split.
    + intros g. split; [|tauto]. intros Hg. split; [exact Hg|].
      intros Hin. inversion Hin.
    + intros x. split; [intros Hx; inversion Hx|].
      intros (child & code & Hin & _). inversion Hin.
  - destruct (deleteAvatar_effects cachePath refused c dir w)
      as (dir1 & extra & -> & Hdir1 & Hextra).
    destruct (IH dir1 (w ++ extra)) as (dir' & more & -> & Hdir' & Hmore).
    exists dir', (extra ++ more). rewrite app_assoc.
    split; [reflexivity|]. split.
    + intros g. rewrite Hdir', Hdir1. split.
      * intros [[Hg Hc] Hl]. split; [exact Hg|]. intros Hin.
        apply elem_of_cons in Hin as [->|Hin]; [apply Hc; reflexivity | exact (Hl Hin)].
      * intros [Hg Hall]. split; [split; [exact Hg|]|].
        -- intros ->. apply Hall. left.
        -- intros Hin. apply Hall. right. exact Hin.
    + intros x. rewrite elem_of_app, Hextra, Hmore. split.
      * intros [(code & Hin & Hc & Hne & ->)|(child & code & Hin & Hd & Hc & Hne & ->)].
        -- exists c, code. split; [left|]. auto.
        -- exists child, code. split; [right; exact Hin|].
           apply Hdir1 in Hd as [Hd _]. auto.
      * intros (child & code & Hin & Hd & Hc & Hne & ->).
        apply elem_of_cons in Hin as [->|Hin].
        -- left. exists code. auto.
        -- right. exists child, code. split; [exact Hin|]. split; [|auto].
           apply Hdir1. split; [exact Hd|]. intros _. rewrite Hc. eauto.
Qed.

(** The second loop of the sweep over the groups. *)
Lemma sweep_effects cachePath refused (files : list (string * list string))
    (dir : gset string) (w : list string) :
  ∃ dir' more,
    foldl (λ st group, foldl (deleteAvatar cachePath refused) st (expired group.2))
      (dir, w) files = (dir', w ++ more) ∧
    (∀ g, g ∈ dir' ↔
       g ∈ dir ∧
       ∀ group, group ∈ files → g ∈ expired group.2 → is_Some (refused g)) ∧
    ∀ x, x ∈ more ↔
      ∃ group child code,
        group ∈ files ∧ child ∈ expired group.2 ∧ child ∈ dir ∧
        refused child = Some code ∧ code ≠ "ENOENT" ∧
        x = "Error deleting avatar (" +:+ code +:+ "): " +:+ cachePath +:+ "/" +:+ child.
Proof.
  revert dir w. induction files as [|group files IH]; intros dir w; cbn [foldl].
  - exists dir, []. rewrite app_nil_r. split; [reflexivity|]. split.
    + intros g. split; [|tauto]. intros Hg. split; [exact Hg|].
      intros group Hin. inversion Hin.
    + intros x. split; [intros Hx; inversion Hx|].
      intros (group & child & code & Hin & _). inversion Hin.
  - destruct (foldl_deleteAvatar cachePath refused (expired group.2) dir w)
      as (dir1 & extra & -> & Hdir1 & Hextra).
    destruct (IH dir1 (w ++ extra)) as (dir' & more & -> & Hdir' & Hmore).
    exists dir', (extra ++ more). rewrite app_assoc.
    split; [reflexivity|]. split.
    + intros g. rewrite Hdir', Hdir1. split.
      * intros [[Hg Hc] Hl]. split; [exact Hg|]. intros group' Hin.
        apply elem_of_cons in Hin as [->|Hin]; [exact Hc | exact (Hl _ Hin)].
      * intros [Hg Hall]. split; [split; [exact Hg|]|].
        -- apply Hall. left.
        -- intros group' Hin. apply Hall. right. exact Hin.
    + intros x. rewrite elem_of_app, Hextra, Hmore. split.
      * intros [(child & code & Hin & Hd & Hc & Hne & ->)
               |(group' & child & code & Hg & Hin & Hd & Hc & Hne & ->)].
        -- exists group, child, code. split; [left|]. auto.
        -- exists group', child, code. split; [right; exact Hg|].
           apply Hdir1 in Hd as [Hd _]. auto.
      * intros (group' & child & code & Hg & Hin & Hd & Hc & Hne & ->).
        apply elem_of_cons in Hg as [->|Hg].
        -- left. exists child, code. auto.
        -- right. exists group', child, code. split; [exact Hg|]. split; [exact Hin|].
           split; [|auto]. apply Hdir1. split; [exact Hd|]. intros _. rewrite Hc. eauto.
Qed.

(** Where no child to delete is refused, the sweep removes the children
    it deletes and prints nothing. *)
Lemma sweep_fold cachePath refused (files : list (string * list string))
    (dir : gset string) (w : list string) :
  (∀ group c, group ∈ files → c ∈ expired group.2 → refused c = None) →
  let r := foldl (λ st group, foldl (deleteAvatar cachePath refused) st
                                (expired group.2)) (dir, w) files in
  r.2 = w ∧
  ∀ g, g ∈ r.1 ↔ g ∈ dir ∧ ∀ group, group ∈ files → g ∉ expired group.2.
Proof.
  intros Hfree. cbn zeta.
  destruct (sweep_effects cachePath refused files dir w)
    as (dir' & more & -> & Hdir' & Hmore). cbn [fst snd].
  split.
  - destruct more as [|x more]; [apply app_nil_r|]. exfalso.
    destruct (proj1 (Hmore x)) as (group & child & code & Hg & Hin & _ & Hc & _); [left|].
    rewrite (Hfree _ _ Hg Hin) in Hc. discriminate.
  - intros g. rewrite Hdir'. split.
    + intros [Hg Hall]. split; [exact Hg|]. intros group Hin Hexp.
      destruct (Hall _ Hin Hexp) as [code Hc].
      rewrite (Hfree _ _ Hin Hexp) in Hc. discriminate.
    + intros [Hg Hall]. split; [exact Hg|]. intros group Hin Hexp.
      destruct (Hall _ Hin Hexp).
Qed.

Lemma childrenOf_push k key c files :
  childrenOf k (push key c files) =
  if decide (k = key) then childrenOf key files ++ [c] else childrenOf k files.
Proof.
  induction files as [|[k' cs] files IH]; cbn [push childrenOf].
  - repeat case_decide; subst; try congruence; reflexivity.
  - destruct (decide (k' = key)); cbn [childrenOf]; [|rewrite IH];
      repeat case_decide; subst; try congruence; reflexivity.
Qed.

Lemma keys_push key c files :
  (push key c files).*1 =
  if decide (key ∈ files.*1) then files.*1 else files.*1 ++ [key].
Proof.
  induction files as [|[k' cs] files IH]; cbn [push fmap list_fmap fst].
  - rewrite decide_False; [reflexivity|]. intros Hin. inversion Hin.
  - destruct (decide (k' = key)) as [->|Hne]; cbn [fmap list_fmap fst].
    + rewrite decide_True by left. reflexivity.
    + change (list_fmap _ _ fst ?l) with (l.*1) in *. rewrite IH.
      destruct (decide (key ∈ files.*1)) as [Hin|Hout].
      * rewrite decide_True by (right; exact Hin). reflexivity.
      * rewrite decide_False; [reflexivity|].
        intros Hin. apply elem_of_cons in Hin as [->|Hin]; contradiction.
Qed.

Lemma group_lookup files k cs :
  NoDup files.*1 → (k, cs) ∈ files → cs = childrenOf k files.
Proof.
  induction files as [|[k' cs'] files IH]; intros Hnd Hin; [inversion Hin|].
  cbn [fmap list_fmap fst] in Hnd. apply NoDup_cons in Hnd as [Hk' Hnd].
  cbn [childrenOf]. apply elem_of_cons in Hin as [[= -> ->]|Hin].
  - rewrite decide_True by reflexivity. reflexivity.
  - destruct (decide (k' = k)) as [->|Hne]; [|exact (IH Hnd Hin)].
    exfalso. apply Hk'. apply (list_elem_of_fmap_2 fst _ _ Hin).
Qed.

Lemma grouped_push files seen f :
  "-"%char ∈ list_ascii_of_string f →
  grouped files seen →
  grouped (push (loginOf f) (loginOf f +:+ "-" +:+ stamp f) files) (seen ++ [f]).
Proof.
  intros Hf (Hnd & Hch & Hkeys). rewrite (rebuilt f Hf).
  split; [|split].
  - rewrite keys_push. destruct (decide (loginOf f ∈ files.*1)); [exact Hnd|].
    apply NoDup_app. split; [exact Hnd|]. split; [|apply NoDup_singleton].
    intros x Hx Hx'. apply list_elem_of_singleton in Hx' as ->. contradiction.
  - intros k. rewrite childrenOf_push, filter_app, !Hch.
    rewrite filter_cons, filter_nil.
    destruct (decide (k = loginOf f)) as [->|Hne].
    + rewrite decide_True by reflexivity. reflexivity.
    + rewrite decide_False by congruence. symmetry. apply app_nil_r.
  - intros k. rewrite keys_push.
    assert (Hsnoc : (∃ c, c ∈ seen ++ [f] ∧ loginOf c = k) ↔
                    (∃ c, c ∈ seen ∧ loginOf c = k) ∨ loginOf f = k).
    { split.
      - intros (c & Hc & Hk). apply elem_of_app in Hc as [Hc|Hc]; [left; eauto|].
        apply list_elem_of_singleton in Hc as ->. right. exact Hk.
      - intros [(c & Hc & Hk)|Hk].
        + exists c. split; [apply elem_of_app; left; exact Hc | exact Hk].
        + exists f. split; [apply elem_of_app; right; left | exact Hk]. }
    rewrite Hsnoc, <- Hkeys.
    destruct (decide (loginOf f ∈ files.*1)) as [Hin|Hout].
    + split; [tauto|]. intros [?| <-]; assumption.
    + rewrite elem_of_app, list_elem_of_singleton. split; intros [?|?]; auto.
Qed.

Lemma groupByLogin_spec rest :
  ∀ files seen,
    grouped files seen →
    (∀ f, f ∈ rest →
       "-"%char ∈ list_ascii_of_string f ∧ loginOf f ∉ objectMembers) →
    ∃ groups, groupByLogin rest files = Some groups ∧ grouped groups (seen ++ rest).
Proof.
  induction rest as [|f rest IH]; intros files seen Hg Hrest; cbn [groupByLogin].
  - exists files. split; [reflexivity|]. rewrite app_nil_r. exact Hg.
  - destruct (Hrest f) as [Hf Hobj]; [left|].
    pose proof (grouped_push files seen f Hf Hg) as Hg'.
    destruct (IH _ _ Hg') as (groups & Hgroups & Hfinal).
    { intros f' Hf'. apply Hrest. right. exact Hf'. }
    exists groups. rewrite <- app_assoc in Hfinal.
    split; [|exact Hfinal].
    destruct (decide (loginOf f ∈ files.*1)); [exact Hgroups|].
    rewrite decide_False by exact Hobj. exact Hgroups.
Qed.

End Sweep.

(** C8, as the code has it.  Over a directory of distinct files named
    login-stamp, which the file system lets the client delete, with no
    login among the names every object answers, one sweep leaves for each
    login exactly one file, the last of that login's names in sorted
    order, that is the greatest as text.  For the names a-100, a-200, a-50
    and b-10 these are a-50 and b-10.  Deleting a file that is no longer
    there changes nothing and prints no warning. *)
Theorem sweep_keeps_greatest_name (cachePath : string)
    (refused : string → option string) (listing : list string)
    (Hdistinct : NoDup listing)
    (Hnamed : ∀ f, f ∈ listing → "-"%char ∈ list_ascii_of_string f)
    (Hlogin : ∀ f, f ∈ listing → loginOf f ∉ objectMembers)
    (Hfiles : ∀ f, f ∈ listing → refused f = None) :
  (∃ dir',
     expireAvatarCache cachePath refused (Some listing) (list_to_set listing) =
       Some (dir', []) ∧
     (∀ g, g ∈ dir' ↔
        g ∈ listing ∧ ∀ f, f ∈ listing → loginOf f = loginOf g → String.le f g) ∧
     (∀ f, f ∈ listing →
        ∃ g, g ∈ dir' ∧ loginOf g = loginOf f ∧
             ∀ g', g' ∈ dir' → loginOf g' = loginOf f → g' = g)) ∧
  expireAvatarCache "/cache" noRefusal (Some sweepInput) (list_to_set sweepInput) =
    Some (list_to_set ["a-50"; "b-10"], []) ∧
  (∀ child dir warnings,
     child ∉ dir →
     deleteAvatar cachePath refused (dir, warnings) child = (dir, warnings)).
Proof.
  split; [|split].
  - destruct (groupByLogin_spec listing [] []) as (groups & Hgroups & Hnd & Hch & Hkeys).
    { split; [constructor|]. split; [reflexivity|].
      intros k. split; [intros Hin; inversion Hin | intros (c & Hc & _); inversion Hc]. }
    { intros f Hf. split; [apply Hnamed, Hf | apply Hlogin, Hf]. }
    cbn [app] in Hch, Hkeys.
    unfold expireAvatarCache. cbn [default from_option id]. rewrite Hgroups.
    cbn [mbind option_bind].
    assert (Hfree : ∀ group c, group ∈ groups → c ∈ expired group.2 → refused c = None).
    { intros [k cs] c Hg Hc. cbn [snd] in Hc. apply elem_of_expired in Hc.
      rewrite (group_lookup _ _ _ Hnd Hg), Hch in Hc.
      apply list_elem_of_filter in Hc as [_ Hc]. exact (Hfiles c Hc). }
    destruct (sweep_fold cachePath refused groups (list_to_set listing) [] Hfree)
      as [Hw Hmem].
    destruct (foldl _ _ groups) as [dir' w]. cbn [fst snd] in Hw, Hmem. subst w.
    assert (Hchar : ∀ g, g ∈ dir' ↔
      g ∈ listing ∧ ∀ f, f ∈ listing → loginOf f = loginOf g → String.le f g).
    { intros g. rewrite Hmem, elem_of_list_to_set. split.
      - intros [Hg Hkept]. split; [exact Hg|]. intros f Hf Hsame.
        destruct (decide (String.le f g)) as [Hle|Hnle]; [exact Hle|]. exfalso.
        assert (Hk : loginOf g ∈ groups.*1) by (apply Hkeys; eauto).
        apply list_elem_of_fmap in Hk as ([k cs] & Hk & Hin). cbn [fst] in Hk. subst k.
        apply (Hkept _ Hin). cbn [snd].
        rewrite (group_lookup _ _ _ Hnd Hin), Hch.
        apply expired_spec; [apply NoDup_filter, Hdistinct|].
        split; [apply list_elem_of_filter; split; [reflexivity | exact Hg]|].
        exists f. split; [apply list_elem_of_filter; split; assumption | exact Hnle].
      - intros [Hg Hmax]. split; [exact Hg|]. intros [k cs] Hin. cbn [snd].
        rewrite (group_lookup _ _ _ Hnd Hin), Hch.
        intros Hexp. apply expired_spec in Hexp; [|apply NoDup_filter, Hdistinct].
        destruct Hexp as [Hgk (f & Hf & Hnle)].
        apply list_elem_of_filter in Hgk as [Hgk _].
        apply list_elem_of_filter in Hf as [Hfk Hf].
        apply Hnle, Hmax; [exact Hf | congruence]. }
    exists dir'. split; [reflexivity|]. split; [exact Hchar|].
    intros f Hf.
    destruct (max_exists (filter (λ c, loginOf c = loginOf f) listing))
      as (m & Hm & Hmax).
    { intros Hnil.
      assert (Hin : f ∈ filter (λ c, loginOf c = loginOf f) listing)
        by (apply list_elem_of_filter; split; [reflexivity | exact Hf]).
      rewrite Hnil in Hin. inversion Hin. }
    apply list_elem_of_filter in Hm as [Hmk Hm].
    exists m. split; [|split; [exact Hmk|]].
    + apply Hchar. split; [exact Hm|]. intros f' Hf' Hsame.
      apply Hmax, list_elem_of_filter. split; [congruence | exact Hf'].
    + intros g' Hg' Hsame. apply Hchar in Hg' as [Hg' Hmax'].
      apply (anti_symm String.le).
      * apply Hmax, list_elem_of_filter. split; assumption.
      * apply Hmax'; [exact Hm | congruence].
  - vm_compute. reflexivity.
  - intros child dir warnings Hout. unfold deleteAvatar, unlink. cbn zeta.
    destruct (decide (child ∈ dir)); [contradiction|].
    destruct (decide ("ENOENT" = "ENOENT")) as [_|[]]; reflexivity.
Qed.

(** C8, as stated, fails on its own example: of the names a-100, a-200
    and a-50 the sweep sorts a-50 last and keeps it, and deletes a-200. *)
Lemma sweep_keeps_a50 :
  sort ["a-100"; "a-200"; "a-50"] = ["a-100"; "a-200"; "a-50"] ∧
  expireAvatarCache "/cache" noRefusal (Some sweepInput) (list_to_set sweepInput) ≠
    Some (list_to_set ["a-200"; "b-10"], []) ∧
  ∃ dir',
    expireAvatarCache "/cache" noRefusal (Some sweepInput) (list_to_set sweepInput) =
      Some (dir', []) ∧
    "a-50" ∈ dir' ∧ "a-200" ∉ dir'.
Proof.
  split; [vm_compute; reflexivity|].
  assert (Hrun : expireAvatarCache "/cache" noRefusal (Some sweepInput)
                   (list_to_set sweepInput) =
                 Some (list_to_set ["a-50"; "b-10"], []))
    by (vm_compute; reflexivity).
  rewrite Hrun. split.
  - intros Heq. vm_compute in Heq. discriminate Heq.
  - eexists. split; [reflexivity|]. split.
    + apply elem_of_list_to_set. left.
    + intros Hin. apply elem_of_list_to_set in Hin.
      repeat (apply elem_of_cons in Hin as [Hin|Hin]; [discriminate|]).
      inversion Hin.
Qed.

(** ** Versions, repository URLs and proxies *)

Section Texts.

(** The first part of a split holds no separator, and the text is this
    part alone or this part, a separator and a rest. *)
Lemma split_head sep s :
  ∃ h t,
    split sep s = h :: t ∧ (sep ∉ list_ascii_of_string h) ∧
    (s = h ∧ t = [] ∨ ∃ rest, s = h +:+ String sep rest).
Proof.
  induction s as [|c s IH]; cbn [split].
  - exists "", []. split; [reflexivity|]. split; [|left; split; reflexivity].
    intros Hin. inversion Hin.
  - destruct (decide (c = sep)) as [->|Hne].
    + exists "", (split sep s). split; [reflexivity|].
      split; [intros Hin; inversion Hin|]. right. exists s. reflexivity.
    + destruct IH as (h & t & Hs & Hh & Hcase). rewrite Hs.
      exists (String c h), t. split; [reflexivity|]. split.
      * cbn [list_ascii_of_string]. intros Hin.
        apply elem_of_cons in Hin as [->|Hin]; [congruence | contradiction].
      * destruct Hcase as [[-> ->]|[rest ->]];
          [left; split; reflexivity | right; exists rest; reflexivity].
Qed.

Lemma split_none sep s : sep ∉ list_ascii_of_string s → split sep s = [s].
Proof.
  induction s as [|c s IH]; cbn [split list_ascii_of_string]; [reflexivity|].
  intros Hout. destruct (decide (c = sep)) as [->|Hne]; [exfalso; apply Hout; left|].
  rewrite IH; [reflexivity|]. intros Hin. apply Hout. right. exact Hin.
Qed.

(** [normalizeVersion] cuts a version at its first hyphen: the result
    holds no hyphen, the version is the result alone or the result, a
    hyphen and a rest, and normalizing twice is normalizing once. *)
Theorem normalizeVersion_cuts_at_hyphen (version : string) :
  ("-"%char ∉ list_ascii_of_string (normalizeVersion version)) ∧
  (version = normalizeVersion version ∨
   ∃ rest, version = normalizeVersion version +:+ "-" +:+ rest) ∧
  normalizeVersion (normalizeVersion version) = normalizeVersion version.
Proof.
  unfold normalizeVersion.
  destruct (split_head "-" version) as (h & t & Hs & Hh & Hcase).
  rewrite Hs. cbn [head default from_option id].
  split; [exact Hh|]. split.
  - destruct Hcase as [[-> _]|[rest ->]]; [left; reflexivity | right; eauto].
  - rewrite (split_none _ _ Hh). reflexivity.
Qed.

Lemma chars_append a b :
  list_ascii_of_string (a +:+ b) = list_ascii_of_string a ++ list_ascii_of_string b.
Proof.
  induction a as [|c a IH]; [reflexivity|].
  change (String c a +:+ b) with (String c (a +:+ b)).
  cbn [list_ascii_of_string app]. rewrite IH. reflexivity.
Qed.

Lemma afterPrefix_Some p l l' : afterPrefix p l = Some l' → l = p ++ l'.
Proof.
  revert l. induction p as [|a p IH]; intros l; cbn [afterPrefix].
  - intros [= ->]. reflexivity.
  - destruct l as [|b l]; [discriminate|].
    destruct (decide (a = b)) as [->|]; [|discriminate].
    intros Hl. rewrite (IH _ Hl). reflexivity.
Qed.

Lemma afterPrefix_app p l : afterPrefix p (p ++ l) = Some l.
Proof.
  induction p as [|a p IH]; cbn [afterPrefix app]; [reflexivity|].
  rewrite decide_True by reflexivity. exact IH.
Qed.

Lemma head_dropLeading c l : head (dropLeading c l) ≠ Some c.
Proof.
  induction l as [|a l IH]; cbn [dropLeading]; [discriminate|].
  destruct (decide (a = c)); [exact IH|]. cbn. congruence.
Qed.

Lemma dropLeading_id c l : head l ≠ Some c → dropLeading c l = l.
Proof.
  destruct l as [|a l]; cbn [dropLeading head]; [reflexivity|].
  intros Hne. rewrite decide_False; [reflexivity | congruence].
Qed.

Lemma last_dropTrailing c s :
  last (list_ascii_of_string (dropTrailing c s)) ≠ Some c.
Proof.
  unfold dropTrailing. rewrite list_ascii_of_string_of_list_ascii, last_reverse.
  apply head_dropLeading.
Qed.

Lemma replaceSuffix_append p s : replaceSuffix p (s +:+ p) = s.
Proof.
  unfold replaceSuffix. rewrite chars_append, reverse_app, afterPrefix_app.
  cbn [default from_option id]. rewrite reverse_involutive.
  apply string_of_list_ascii_of_string.
Qed.

Lemma dropTrailing_id c s :
  last (list_ascii_of_string s) ≠ Some c → dropTrailing c s = s.
Proof.
  intros Hlast. unfold dropTrailing.
  rewrite dropLeading_id by (rewrite head_reverse; exact Hlast).
  rewrite reverse_involutive. apply string_of_list_ascii_of_string.
Qed.

(** Removing the prefix keeps the end of the text. *)
Lemma last_replacePrefix p s c :
  last (list_ascii_of_string s) ≠ Some c →
  last (list_ascii_of_string (replacePrefix p s)) ≠ Some c.
Proof.
  intros Hlast. unfold replacePrefix. rewrite list_ascii_of_string_of_list_ascii.
  destruct (afterPrefix _ _) as [l'|] eqn:Hafter; cbn [default from_option id];
    [|exact Hlast].
  apply afterPrefix_Some in Hafter. rewrite Hafter in Hlast.
  destruct l' as [|a l'] using rev_ind; [discriminate|].
  rewrite app_assoc, last_snoc in Hlast. rewrite last_snoc. exact Hlast.
Qed.

(** [getRepositoryUrl] throws for a repository object without [url] and
    for nothing else, and the URL it returns never ends with a slash. *)
Theorem getRepositoryUrl_has_no_trailing_slash (repository : option Repository) :
  match getRepositoryUrl repository with
  | inl _ => repository = Some (RepositoryObject None)
  | inr url =>
      repository ≠ Some (RepositoryObject None) ∧
      last (list_ascii_of_string url) ≠ Some "/"%char
  end.
Proof.
  unfold getRepositoryUrl.
  destruct repository as [[[url|]|s]|]; try reflexivity;
    (split; [discriminate|]); apply last_replacePrefix, last_dropTrailing.
Qed.

(** The SSH address of a GitHub repository becomes its HTTPS address: for
    a repository name [r] without a colon that does not end with a slash,
    [git@github.com:r.git] gives [https://github.com/r], whether the
    metadata holds the address as a string or under [url]. *)
Theorem getRepositoryUrl_of_ssh_address (r : string)
    (Hcolon : ":"%char ∉ list_ascii_of_string r)
    (Hname : ∃ c, last (list_ascii_of_string r) = Some c ∧ c ≠ "/"%char) :
  let address := "git@github.com:" +:+ r +:+ ".git" in
  getRepositoryUrl (Some (RepositoryString address)) = inr ("https://github.com/" +:+ r) ∧
  getRepositoryUrl (Some (RepositoryObject (Some address))) =
    inr ("https://github.com/" +:+ r).
Proof.
  cbn zeta.
  assert (Hgen : ∀ repoUrl, repoUrl = "git@github.com:" +:+ r +:+ ".git" →
    (let repoUrl :=
       if includes "git@github" repoUrl then
         "https://github.com/" +:+ default "undefined" (split ":" repoUrl !! 1%nat)
       else repoUrl in
     replacePrefix "git+" (dropTrailing "/" (replaceSuffix ".git" repoUrl))) =
    "https://github.com/" +:+ r).
  { intros repoUrl ->. cbn zeta.
    assert (Hinc : includes "git@github" ("git@github.com:" +:+ r +:+ ".git") = true)
      by reflexivity.
    rewrite Hinc.
    assert (Hsplit : split ":" ("git@github.com:" +:+ r +:+ ".git") =
                     ["git@github.com"; r +:+ ".git"]).
    { assert (Hrest : split ":" (r +:+ ".git") = [r +:+ ".git"]).
      { apply split_none. rewrite chars_append. intros Hin.
        apply elem_of_app in Hin as [Hin|Hin]; [contradiction|].
        cbn in Hin. repeat (apply elem_of_cons in Hin as [Hin|Hin]; [discriminate|]).
        inversion Hin. }
      change ("git@github.com:" +:+ r +:+ ".git")
        with (String "g" (String "i" (String "t" (String "@" (String "g" (String "i"
             (String "t" (String "h" (String "u" (String "b" (String "." (String "c"
             (String "o" (String "m" (String ":" (r +:+ ".git")))))))))))))))).
      cbn [split]. rewrite Hrest. reflexivity. }
    rewrite Hsplit. cbn [lookup list_lookup default from_option id].
    change ("https://github.com/" +:+ r +:+ ".git")
      with ("https://github.com/" +:+ (r +:+ ".git")).
    rewrite <- append_assoc, replaceSuffix_append.
    destruct Hname as (c & Hlast & Hc).
    rewrite dropTrailing_id.
    - unfold replacePrefix.
      assert (Hafter : afterPrefix (list_ascii_of_string "git+")
                (list_ascii_of_string ("https://github.com/" +:+ r)) = None)
        by reflexivity.
      rewrite Hafter. cbn [default from_option id].
      apply string_of_list_ascii_of_string.
    - rewrite chars_append.
      destruct (list_ascii_of_string r) as [|a l] using rev_ind; [discriminate|].
      rewrite app_assoc, last_snoc. rewrite last_snoc in Hlast. congruence. }
  split; unfold getRepositoryUrl; cbn zeta; rewrite Hgen; reflexivity.
Qed.

End Texts.

Section ProxyEnvironment.
Context (trim toUpperCase : string → string).

(** [applyProxyToEnv] changes at most the variable it is given. *)
Lemma applyProxyToEnv_other envName proxy env k :
  k ≠ envName →
  applyProxyToEnv trim toUpperCase envName proxy env !! k = env !! k.
Proof.
  intros Hne. unfold applyProxyToEnv. destruct proxy as [proxy|]; [|reflexivity].
  repeat case_decide; [apply lookup_delete_ne | apply lookup_insert_ne | reflexivity];
    congruence.
Qed.

(** What [applyProxyToEnv] leaves in its variable depends on the proxy
    alone, not on the environment before. *)
Lemma applyProxyToEnv_own envName proxy env env' :
  env !! envName = env' !! envName →
  applyProxyToEnv trim toUpperCase envName proxy env !! envName =
  applyProxyToEnv trim toUpperCase envName proxy env' !! envName.
Proof.
  intros Hsame. unfold applyProxyToEnv. destruct proxy as [proxy|]; [|exact Hsame].
  repeat case_decide; rewrite ?lookup_delete_eq, ?lookup_insert_eq; auto.
Qed.

(** [setProxyServersAsync] gives the same environment in whichever order
    the two proxies are resolved, and changes no variable but
    [http_proxy] and [https_proxy]. *)
Theorem setProxyServersAsync_order (httpProxy httpsProxy : option string)
    (env : gmap string string) :
  setProxyServersAsync trim toUpperCase httpProxy httpsProxy true env =
  setProxyServersAsync trim toUpperCase httpProxy httpsProxy false env ∧
  ∀ httpsFirst k,
    k ≠ "http_proxy" → k ≠ "https_proxy" →
    setProxyServersAsync trim toUpperCase httpProxy httpsProxy httpsFirst env !! k =
    env !! k.
Proof.
  split.
  - unfold setProxyServersAsync. apply map_eq. intros k.
    destruct (decide (k = "http_proxy")) as [->|Hhttp].
    + rewrite (applyProxyToEnv_other "https_proxy" _ _ "http_proxy") by discriminate.
      apply applyProxyToEnv_own.
      apply applyProxyToEnv_other. discriminate.
    + rewrite (applyProxyToEnv_other "http_proxy" _ _ k) by exact Hhttp.
      destruct (decide (k = "https_proxy")) as [->|Hhttps].
      * apply applyProxyToEnv_own. symmetry.
        apply applyProxyToEnv_other. discriminate.
      * rewrite !applyProxyToEnv_other by assumption. reflexivity.
  - intros httpsFirst k Hhttp Hhttps. unfold setProxyServersAsync.
    destruct httpsFirst; rewrite !applyProxyToEnv_other by assumption; reflexivity.
Qed.

End ProxyEnvironment.

(** ** The registry client over its cache *)

Section Registry.
Context {Data : Type} (truthy : Data → bool) (deleteVersions : Data → Data).

Lemma append_inj_r a p q : a +:+ p = a +:+ q → p = q.
Proof.
  induction a as [|c a IH]; [intros Heq; exact Heq|].
  intros [= Heq]. exact (IH Heq).
Qed.

Lemma cacheKeyForPath_inj p q : cacheKeyForPath p = cacheKeyForPath q → p = q.
Proof. apply append_inj_r. Qed.

(** Caching under one path changes what [fetchFromCache] finds under no
    other path. *)
Lemma fetchFromCache_other path other (d : Data) t force online now localStorage :
  other ≠ path →
  fetchFromCache other force online now (cache path d t localStorage) =
  fetchFromCache other force online now localStorage.
Proof.
  intros Hne. unfold fetchFromCache, cache. rewrite lookup_insert_ne; [reflexivity|].
  intros Heq. apply Hne. symmetry. exact (cacheKeyForPath_inj _ _ Heq).
Qed.

(** What [fetchFromCache] finds under the path just cached. *)
Lemma fetchFromCache_cached path (d : Data) t online now localStorage :
  (fetchFromCache path false online now (cache path d t localStorage)).2 =
  if negb online || (now - t <? expiry_ms) then CachedData d else Null.
Proof.
  unfold fetchFromCache, cache. rewrite lookup_insert_eq. cbn [createdOn data negb].
  destruct online; cbn [negb orb]; destruct (now - t <? expiry_ms); reflexivity.
Qed.

(** A package the registry answered with at time [t] is served from the
    cache, without its [versions], for the next twelve hours, and for as
    long as the system is offline; once the entry is twelve hours old and
    the system is online, [package] asks the registry again. *)
Theorem package_served_after_request (name : string) (body : Data) (t now : Z)
    (online : bool) (localStorage : gmap string (CacheEntry Data))
    (Hbody : truthy (deleteVersions body) = true) :
  ∃ localStorage',
    request deleteVersions ("packages/" +:+ name) (inr (Some body)) t localStorage =
      inr ((None, Some (deleteVersions body)), localStorage') ∧
    package truthy name online now localStorage' =
      if negb online || (now - t <? expiry_ms)
      then Served (CachedData (deleteVersions body))
      else ViaRequest ("packages/" +:+ name).
Proof.
  eexists. split; [reflexivity|]. unfold package. cbn zeta.
  rewrite fetchFromCache_cached.
  destruct (negb online || (now - t <? expiry_ms)); cbn [usable]; [|reflexivity].
  rewrite Hbody. reflexivity.
Qed.

(** The featured list apm answered with at time [t] is cached under the
    key of its kind, and served from there for twelve hours and while
    offline; a rejected promise is handed to the callback and leaves the
    storage as it was. *)
Theorem featured_served_after_apm (loadThemes : bool) (packages : Data) (t now : Z)
    (online : bool) (localStorage : gmap string (CacheEntry Data))
    (Hlist : truthy packages = true) :
  (∃ localStorage',
     featuredSettled loadThemes (inr packages) t localStorage =
       ((None, Some packages), localStorage') ∧
     (if loadThemes then featuredThemes truthy online now localStorage'
      else featuredPackages truthy online now localStorage') =
       if negb online || (now - t <? expiry_ms)
       then Served (CachedData packages)
       else ViaApm loadThemes) ∧
  ∀ error,
    featuredSettled loadThemes (inl error) t localStorage =
      ((Some error, None), localStorage).
Proof.
  split; [|reflexivity].
  eexists. split; [reflexivity|].
  destruct loadThemes; unfold featuredThemes, featuredPackages; cbn zeta;
    rewrite fetchFromCache_cached;
    destruct (negb online || (now - t <? expiry_ms)); cbn [usable];
    rewrite ?Hlist; reflexivity.
Qed.

(** Whatever the registry answers about one package changes no lookup of
    another package and no lookup of the featured themes; it leaves the
    featured packages alone unless the package is called [featured],
    whose path is the key of the featured packages: the list cached for
    these is then served as the package of that name. *)
Theorem request_leaves_other_lookups (name : string) (response : string + option Data)
    (t : Z) (localStorage localStorage' : gmap string (CacheEntry Data))
    (answer : option string * option Data)
    (Hrequest : request deleteVersions ("packages/" +:+ name) response t localStorage =
                inr (answer, localStorage')) :
  (∀ other online now,
     other ≠ name →
     package truthy other online now localStorage' =
     package truthy other online now localStorage) ∧
  (∀ online now,
     featuredThemes truthy online now localStorage' =
     featuredThemes truthy online now localStorage) ∧
  (∀ online now,
     name ≠ "featured" →
     featuredPackages truthy online now localStorage' =
     featuredPackages truthy online now localStorage) ∧
  (∀ packages online now,
     truthy packages = true →
     package truthy "featured" online now
       (featuredSettled false (inr packages) t localStorage).2 =
     if negb online || (now - t <? expiry_ms) then Served (CachedData packages)
     else ViaRequest "packages/featured").
Proof.
  assert (Hother : ∀ path force online now,
    path ≠ "packages/" +:+ name →
    fetchFromCache path force online now localStorage' =
    fetchFromCache path force online now localStorage).
  { intros path force online now Hne. unfold request in Hrequest.
    destruct response as [err|[body|]]; [| |discriminate].
    - injection Hrequest as _ <-. reflexivity.
    - injection Hrequest as _ <-. apply fetchFromCache_other. exact Hne. }
  split; [|split; [|split]].
  - intros other online now Hne. unfold package. cbn zeta. rewrite Hother; [reflexivity|].
    intros Heq. apply Hne. exact (append_inj_r _ _ _ Heq).
  - intros online now. unfold featuredThemes. cbn zeta.
    rewrite Hother; [reflexivity | discriminate].
  - intros online now Hne. unfold featuredPackages. cbn zeta.
    rewrite Hother; [reflexivity|].
    intros Heq. apply Hne. symmetry. exact (append_inj_r "packages/" _ _ Heq).
  - intros packages online now Hlist. unfold package, featuredSettled. cbn zeta.
    cbn [snd]. change ("packages/" +:+ "featured") with "packages/featured".
    rewrite fetchFromCache_cached.
    destruct (negb online || (now - t <? expiry_ms)); cbn [usable];
      rewrite ?Hlist; reflexivity.
Qed.

End Registry.

(** ** Sessions *)

Section Sessions.
Context {H : Type} `{Atom H}.
Implicit Types st : PackageManager H.

Lemma steady_refl st : steady st st.
Proof.
  split; [reflexivity|]. split; [lia|]. split; [auto|]. split; [auto|].
  split; [auto|].
  exists []. split; [symmetry; apply app_nil_r | reflexivity].
Qed.

Lemma steady_trans st st' st'' : steady st st' → steady st' st'' → steady st st''.
Proof.
  intros (Hp & Hn & Hs & Hb & Hd & l & Hl & Hr)
         (Hp' & Hn' & Hs' & Hb' & Hd' & l' & Hl' & Hr').
  split; [congruence|]. split; [lia|]. split; [|split; [|split]].
  - intros p s Hps Hne Hlt. apply Hs'; [apply Hs; assumption | exact Hne | lia].
  - auto.
  - auto.
  - exists (l ++ l'). split; [rewrite Hl', Hl; symmetry; apply app_assoc|].
    rewrite forallb_app, Hr, Hr'. reflexivity.
Qed.

(** A step that leaves the promises alone and adds [l] to the trace. *)
Lemma steady_trace st st' l :
  packagePromises st' = packagePromises st →
  promises st' = promises st →
  nextPromise st' = nextPromise st →
  trace st' = trace st ++ l → forallb regular l = true → steady st st'.
Proof.
  intros Hp Hpr Hn Ht Hl. split; [exact Hp|]. split; [lia|]. split; [|split; [|split]].
  - intros p s Hps _ _. rewrite Hpr. exact Hps.
  - rewrite Hpr, Hn. auto.
  - rewrite Hpr. auto.
  - exists l. split; assumption.
Qed.

Lemma steady_record e st : regular e = true → steady st (record e st).
Proof.
  intros He. apply (steady_trace _ _ [e]); try reflexivity.
  cbn. rewrite He. reflexivity.
Qed.

Lemma steady_onHost f st : steady st (onHost f st).
Proof. apply (steady_trace _ _ []); try reflexivity. symmetry. apply app_nil_r. Qed.

Lemma steady_setLoadOutdated v e st : steady st (setLoadOutdated v e st).
Proof. apply (steady_trace _ _ [CacheWrite v e]); reflexivity. Qed.

Lemma steady_settle p s st : steady st (settle p s st).
Proof.
  unfold settle. destruct (promises st !! p) as [[| |]|] eqn:Hp; try apply steady_refl.
  split; [reflexivity|]. split; [cbn; lia|]. split; [|split; [|split]].
  - intros q s' Hq Hne _. cbn. rewrite lookup_insert_ne; [exact Hq|].
    intros ->. rewrite Hp in Hq. congruence.
  - intros Hb q. cbn. destruct (decide (p = q)) as [->|Hne].
    + intros _. apply Hb. rewrite Hp. eauto.
    + rewrite lookup_insert_ne by exact Hne. apply Hb.
  - intros q Hq. cbn. destruct (decide (p = q)) as [->|Hne].
    + rewrite lookup_insert_eq. eauto.
    + rewrite lookup_insert_ne by exact Hne. exact Hq.
  - exists []. split; [symmetry; apply app_nil_r | reflexivity].
Qed.

Lemma steady_newPromise st : steady st (newPromise st).2.
Proof.
  split; [reflexivity|]. split; [cbn; lia|]. split; [|split; [|split]].
  - intros q s Hq _ Hlt. cbn. rewrite lookup_insert_ne by lia. exact Hq.
  - intros Hb q. cbn. destruct (decide (nextPromise st = q)) as [<-|Hne].
    + intros _. lia.
    + rewrite lookup_insert_ne by exact Hne. intros Hq. specialize (Hb q Hq). lia.
  - intros q Hq. cbn. destruct (decide (nextPromise st = q)) as [<-|Hne].
    + rewrite lookup_insert_eq. eauto.
    + rewrite lookup_insert_ne by exact Hne. exact Hq.
  - exists []. split; [symmetry; apply app_nil_r | reflexivity].
Qed.

Lemma steady_call callback error result st : steady st (call callback error result st).
Proof.
  destruct callback as [f|p]; cbn [call].
  - apply steady_record. reflexivity.
  - destruct error; apply steady_settle.
Qed.

Lemma steady_callIfFunction callback error st :
  steady st (callIfFunction callback error st).
Proof. destruct callback; [apply steady_call | apply steady_refl]. Qed.

Lemma steady_emitPackageEvent e pack error st :
  e ∈ ["installing"; "installed"; "install-failed"; "uninstalling"; "uninstalled";
       "uninstall-failed"; "updating"; "updated"; "update-failed";
       "update-available"] →
  steady st (emitPackageEvent e pack error st).
Proof.
  intros He. unfold emitPackageEvent. apply steady_record.
  repeat (apply elem_of_cons in He as [->|He];
          [destruct (isTheme pack); reflexivity|]).
  inversion He.
Qed.

Lemma steady_unload n st : steady st (unload n st).
Proof.
  unfold unload. repeat case_match; try apply steady_refl;
    repeat (eapply steady_trans; [|apply steady_onHost]); apply steady_refl.
Qed.

Lemma steady_announce packages st :
  steady st (foldl (λ st pack, emitPackageEvent "update-available" pack None st) st packages).
Proof.
  revert st. induction packages as [|pack packages IH]; intros st; cbn [foldl].
  - apply steady_refl.
  - eapply steady_trans; [|apply IH].
    apply steady_emitPackageEvent. repeat (left || right).
Qed.

(** [runCommand] on arguments that start with a subcommand of apm. *)
Lemma steady_runCommand command args proc st :
  command ∈ apmCommands → steady st (runCommand (command :: args) proc st).2.
Proof.
  intros Hc. unfold runCommand. cbn [snd]. apply steady_record.
  unfold regular. rewrite last_snoc. cbn [app head].
  rewrite (bool_decide_eq_true_2 _ eq_refl).
  rewrite (bool_decide_eq_true_2 _ Hc). reflexivity.
Qed.

Ltac member := repeat (left || right).

Ltac steady_step :=
  first
    [ apply steady_onHost
    | apply steady_setLoadOutdated
    | apply steady_settle
    | apply steady_call
    | apply steady_callIfFunction
    | apply steady_unload
    | apply steady_announce
    | apply steady_emitPackageEvent; member
    | apply steady_record; reflexivity ].

Ltac steady_chain :=
  repeat first
    [ steady_step | apply steady_refl | eapply steady_trans; [|steady_step] ].

Lemma steady_onError proc error st : steady st (onError proc error st).
Proof. destruct proc; cbn [onError]; steady_chain. Qed.

Lemma steady_exit proc code out err now st : steady st (exit proc code out err now st).
Proof.
  destruct proc; cbn [exit]; destruct (decide (code = 0));
    repeat match goal with
           | |- context [if ?c then onHost _ _ else _] => destruct c
           end;
    try (eapply steady_trans; [|apply steady_onError]);
    try (unfold clearOutdatedCache; steady_chain; fail).
  - destruct (JSON_parse out) as [parseError|[|packages|text]];
      unfold clearOutdatedCache; steady_chain.
  - destruct (JSON_parse out) as [parseError|[|packages|text]]; steady_chain.
Qed.

Lemma steady_complete proc outcome now st : steady st (complete proc outcome now st).
Proof. destruct outcome; [apply steady_exit | apply steady_onError]. Qed.

Lemma steady_react jobs st : steady st (react jobs st).2.
Proof.
  revert st. induction jobs as [|job jobs IH]; intros st; cbn [react].
  - apply steady_refl.
  - assert (Hfail : ∀ e, steady st (alternativeFailed job e st))
      by (intros e; unfold alternativeFailed; steady_chain).
    assert (Hdone : steady st (alternativeInstalled job st))
      by (unfold alternativeInstalled; steady_chain).
    repeat case_match; subst; cbn [snd];
      first [ eapply steady_trans; [apply Hfail | apply IH]
            | eapply steady_trans; [apply Hdone | apply IH]
            | match goal with Heq : react jobs st = _ |- _ =>
                specialize (IH st); rewrite Heq in IH; exact IH end ].
Qed.

(** Replacing the list of pending alternatives changes nothing else. *)
Lemma steady_alternatives st jobs :
  steady st
    {| apmCache_loadOutdated := apmCache_loadOutdated st;
       packagePromises := packagePromises st;
       promises := promises st;
       nextPromise := nextPromise st;
       alternatives := jobs;
       host := host st;
       trace := trace st |}.
Proof. apply (steady_trace _ _ []); try reflexivity. symmetry. apply app_nil_r. Qed.

Lemma steady_deliver proc outcome now st : steady st (deliver proc outcome now st).
Proof.
  unfold deliver, runMicrotasks.
  eapply steady_trans; [apply steady_complete|].
  pose proof (steady_react (alternatives (complete proc outcome now st))
                (complete proc outcome now st)) as Hr.
  destruct (react _ _) as [rest st']. cbn [snd] in Hr.
  eapply steady_trans; [exact Hr | apply steady_alternatives].
Qed.

Lemma steady_install pack callback st : steady st (install pack callback st).2.
Proof.
  unfold install. eapply steady_trans; [|apply steady_runCommand; member].
  steady_chain.
Qed.

Lemma steady_uninstall pack callback st : steady st (uninstall pack callback st).2.
Proof.
  unfold uninstall. eapply steady_trans; [|apply steady_runCommand; member].
  case_match; steady_chain.
Qed.

Lemma steady_update pack newVersion callback st :
  steady st (update pack newVersion callback st).2.
Proof.
  unfold update. repeat case_match;
    (eapply steady_trans; [|apply steady_runCommand; member]); steady_chain.
Qed.

Lemma steady_parse command args errorMessage callback st :
  command ∈ apmCommands →
  steady st (runApmCommandAndParseJSON (command :: args) errorMessage callback st).2.
Proof. intros Hc. unfold runApmCommandAndParseJSON. apply steady_runCommand, Hc. Qed.

Lemma steady_loadOutdated clearCache callback now st :
  steady st (loadOutdated clearCache callback now st).2.
Proof.
  unfold loadOutdated.
  assert (Hfresh : ∀ st0, steady st st0 →
    steady st
      (let '(proc, st1) :=
         runCommand (["outdated"; "--json"] ++ compatibleArgs st0)
           (OutdatedProcess "Fetching outdated packages and themes failed." callback) st0 in
       (Some proc, st1)).2).
  { intros st0 Hst0. eapply steady_trans; [exact Hst0|].
    refine (steady_runCommand "outdated" _ (OutdatedProcess "" callback) st0 _).
    member. }
  destruct clearCache.
  - apply Hfresh. unfold clearOutdatedCache. steady_chain.
  - destruct (value (apmCache_loadOutdated st)).
    + destruct (expiry (apmCache_loadOutdated st) >? now).
      * cbn [snd]. steady_chain.
      * apply Hfresh, steady_refl.
    + apply Hfresh, steady_refl.
Qed.

Lemma steady_installAlternative pack alt callback st :
  steady st (installAlternative pack alt callback st).2.
Proof.
  unfold installAlternative.
  set (s0 := record _ st).
  assert (Hs0 : steady st s0) by (apply steady_record; reflexivity).
  pose proof (steady_newPromise s0) as HA.
  destruct (newPromise s0) as [pu sA]. cbn [snd] in HA.
  pose proof (steady_uninstall pack (Some (Settle pu)) sA) as H1.
  destruct (uninstall pack (Some (Settle pu)) sA) as [uninstallProcess s1].
  cbn [snd] in H1.
  pose proof (steady_newPromise s1) as HB.
  destruct (newPromise s1) as [pi sB]. cbn [snd] in HB.
  match goal with
  | |- context [install ?d ?c sB] =>
      pose proof (steady_install d c sB) as H2; destruct (install d c sB) as [installProcess s2]
  end.
  cbn [snd] in H2 |- *.
  eapply steady_trans; [|apply steady_alternatives].
  repeat (eapply steady_trans; [eassumption|]). apply steady_refl.
Qed.

Lemma steady_loadFeatured loadThemes callback st :
  steady st (loadFeatured loadThemes callback st).2.
Proof. unfold loadFeatured. cbn [app]. apply (steady_parse "featured"). member. Qed.

(** Every request but a first [getPackage] leaves the state steady. *)
Lemma steady_serve st r :
  (∀ x, r ≠ CallGetPackage x) → steady st (serve st r).
Proof.
  intros Hr. destruct r; cbn [serve].
  - apply steady_install.
  - apply steady_uninstall.
  - apply steady_update.
  - apply steady_installAlternative.
  - apply steady_loadOutdated.
  - apply (steady_parse "ls"). member.
  - apply steady_loadFeatured.
  - apply (steady_parse "view"). member.
  - apply (steady_parse "view"). member.
  - exfalso. eapply Hr. reflexivity.
  - unfold getInstalled. pose proof (steady_newPromise st) as Hn.
    destruct (newPromise st) as [p s0]. cbn [snd] in Hn.
    pose proof (steady_parse "ls" ["--json"] "Fetching local packages failed."
                  (Settle p) s0) as Hl.
    unfold loadInstalled.
    destruct (runApmCommandAndParseJSON _ _ _ s0) as [proc s1]. cbn [snd] in *.
    eapply steady_trans; [exact Hn | apply Hl; member].
  - unfold getFeatured. pose proof (steady_newPromise st) as Hn.
    destruct (newPromise st) as [p s0]. cbn [snd] in Hn.
    pose proof (steady_loadFeatured loadThemes (Settle p) s0) as Hl.
    destruct (loadFeatured loadThemes (Settle p) s0) as [proc s1].
    cbn [snd] in *. eapply steady_trans; eassumption.
  - unfold getOutdated. pose proof (steady_newPromise st) as Hn.
    destruct (newPromise st) as [p s0]. cbn [snd] in Hn.
    pose proof (steady_loadOutdated clearCache (Settle p) now s0) as Hl.
    destruct (loadOutdated clearCache (Settle p) now s0) as [proc s1].
    cbn [snd] in *. eapply steady_trans; eassumption.
  - apply steady_deliver.
Qed.

(** [getPackage] is steady up to the name it may store. *)
Lemma getPackage_step x st :
  let st' := (getPackage x st).2 in
  ∃ s1,
    steady st s1 ∧ promises st' = promises s1 ∧ nextPromise st' = nextPromise s1 ∧
    trace st' = trace s1 ∧
    (packagePromises st' = packagePromises st ∨
     packagePromises st !! x = None ∧
     packagePromises st' = <[x := nextPromise st]> (packagePromises st) ∧
     promises st' !! nextPromise st = Some Pending ∧
     (nextPromise st < nextPromise st')%nat).
Proof.
  cbn zeta. unfold getPackage.
  destruct (packagePromises st !! x) as [p|] eqn:Hx.
  { exists st. cbn [snd]. split; [apply steady_refl|]. do 3 (split; [reflexivity|]).
    left. reflexivity. }
  destruct (decide (x ∈ arrayMembers)).
  { exists st. cbn [snd]. split; [apply steady_refl|]. do 3 (split; [reflexivity|]).
    left. reflexivity. }
  destruct (decide (x ∈ furtherArrayMembers)).
  { exists st. cbn [snd]. split; [apply steady_refl|]. do 3 (split; [reflexivity|]).
    left. reflexivity. }
  pose proof (steady_newPromise st) as Hn.
  cbn [newPromise] in *.
  set (s0 := {| apmCache_loadOutdated := apmCache_loadOutdated st;
                promises := <[nextPromise st := Pending]> (promises st) |}) in *.
  cbn [snd] in Hn.
  pose proof (steady_parse "view" [x; "--json"]
                ("Fetching package '" +:+ x +:+ "' failed.") (Settle (nextPromise st)) s0)
    as Hl.
  unfold loadPackage.
  destruct (runApmCommandAndParseJSON _ _ _ s0) as [proc s1] eqn:Hrun.
  cbn [snd] in *. exists s1.
  assert (Hs1 : promises s1 = promises s0 ∧ nextPromise s1 = nextPromise s0 ∧
                packagePromises s1 = packagePromises s0).
  { unfold runApmCommandAndParseJSON, runCommand in Hrun.
    injection Hrun as _ <-. split; [reflexivity|]. split; reflexivity. }
  destruct Hs1 as (Hpr & Hnx & Hpp).
  split; [eapply steady_trans; [exact Hn | apply Hl; repeat (left || right)]|].
  do 3 (split; [reflexivity|]). right. split; [reflexivity|]. split; [|split].
  - rewrite Hpp. reflexivity.
  - rewrite Hpr. apply lookup_insert_eq.
  - rewrite Hnx. cbn. lia.
Qed.

Lemma sound_new (h : H) : sound (newPackageManager h).
Proof.
  split; [|split].
  - intros p [s Hp]. cbn in Hp. rewrite lookup_empty in Hp. discriminate.
  - intros x p Hx. cbn in Hx. rewrite lookup_empty in Hx. discriminate.
  - intros x y p Hx. cbn in Hx. rewrite lookup_empty in Hx. discriminate.
Qed.

(** One request keeps the state sound, the names stored and the promises
    settled, and adds only regular effects. *)
Lemma serve_keeps st r :
  sound st →
  sound (serve st r) ∧
  (∀ x p, packagePromises st !! x = Some p →
          packagePromises (serve st r) !! x = Some p) ∧
  (∀ p s, promises st !! p = Some s → s ≠ Pending →
          promises (serve st r) !! p = Some s) ∧
  ∃ l, trace (serve st r) = trace st ++ l ∧ forallb regular l = true.
Proof.
  intros (Hb & Hex & Hinj).
  assert (Hsteady : ∀ st', steady st st' →
    sound st' ∧
    (∀ x p, packagePromises st !! x = Some p → packagePromises st' !! x = Some p) ∧
    (∀ p s, promises st !! p = Some s → s ≠ Pending → promises st' !! p = Some s) ∧
    ∃ l, trace st' = trace st ++ l ∧ forallb regular l = true).
  { intros st' (Hp & Hn & Hs & Hb' & Hd & Hl).
    split; [|split; [|split]].
    - split; [auto|]. split.
      + intros x p Hx. rewrite Hp in Hx. apply Hd, (Hex x p Hx).
      + rewrite Hp. exact Hinj.
    - rewrite Hp. auto.
    - intros p s Hps Hne. apply Hs; [exact Hps | exact Hne | apply Hb; eauto].
    - exact Hl. }
  assert (Hcase : (∃ x, r = CallGetPackage x) ∨ ∀ x, r ≠ CallGetPackage x)
    by (destruct r; eauto; right; discriminate).
  destruct Hcase as [[x ->]|Hother].
  - cbn [serve]. destruct (getPackage_step x st) as (s1 & Hs1 & Hpr & Hnx & Htr & Hpp).
    cbn zeta in *. destruct (Hsteady s1 Hs1) as ((Hb1 & Hex1 & Hinj1) & Hkeep & Hset & Hl).
    set (st' := (getPackage x st).2) in *.
    destruct Hpp as [Hpp|(Hnone & Hpp & Hpend & Hlt)].
    + split; [|split; [|split]].
      * split; [rewrite Hpr, Hnx; exact Hb1|]. split.
        -- intros y p Hy. rewrite Hpp in Hy. rewrite Hpr.
           destruct Hs1 as (_ & _ & _ & _ & Hd & _). apply Hd, (Hex y p Hy).
        -- rewrite Hpp. exact Hinj.
      * rewrite Hpp. auto.
      * rewrite Hpr. exact Hset.
      * rewrite Htr. exact Hl.
    + assert (Hold : ∀ y p, packagePromises st !! y = Some p → (p < nextPromise st)%nat)
        by (intros y p Hy; apply Hb, (Hex y p Hy)).
      split; [|split; [|split]].
      * split; [rewrite Hpr, Hnx; exact Hb1|]. split.
        -- intros y p. rewrite Hpp. destruct (decide (x = y)) as [->|Hne].
           ++ rewrite lookup_insert_eq. intros [= <-]. rewrite Hpend. eauto.
           ++ rewrite lookup_insert_ne by exact Hne. intros Hy. rewrite Hpr.
              destruct Hs1 as (_ & _ & _ & _ & Hd & _). apply Hd, (Hex y p Hy).
        -- intros y z p. rewrite Hpp.
           destruct (decide (x = y)) as [Hy|Hy], (decide (x = z)) as [Hz|Hz]; subst;
             rewrite ?lookup_insert_eq, ?lookup_insert_ne by assumption.
           ++ reflexivity.
           ++ intros [= <-] Hz'. specialize (Hold _ _ Hz'). lia.
           ++ intros Hy' [= <-]. specialize (Hold _ _ Hy'). lia.
           ++ apply Hinj.
      * intros y p Hy. rewrite Hpp, lookup_insert_ne; [exact Hy|]. congruence.
      * rewrite Hpr. exact Hset.
      * rewrite Htr. exact Hl.
  - apply Hsteady, steady_serve, Hother.
Qed.

Lemma session_snoc requests r st :
  session (requests ++ [r]) st = serve (session requests st) r.
Proof. unfold session. rewrite foldl_app. reflexivity. Qed.

Lemma session_app requests more st :
  session (requests ++ more) st = session more (session requests st).
Proof. unfold session. apply foldl_app. Qed.

Lemma session_keeps requests st :
  sound st →
  sound (session requests st) ∧
  (∀ x p, packagePromises st !! x = Some p →
          packagePromises (session requests st) !! x = Some p) ∧
  (∀ p s, promises st !! p = Some s → s ≠ Pending →
          promises (session requests st) !! p = Some s) ∧
  ∃ l, trace (session requests st) = trace st ++ l ∧ forallb regular l = true.
Proof.
  intros Hsound. induction requests as [|r requests IH] using rev_ind.
  - split; [exact Hsound|]. split; [auto|]. split; [auto|].
    exists []. split; [symmetry; apply app_nil_r | reflexivity].
  - rewrite session_snoc. destruct IH as (Hs & Hk & Hp & l & Hl & Hr).
    destruct (serve_keeps (session requests st) r Hs) as (Hs' & Hk' & Hp' & l' & Hl' & Hr').
    split; [exact Hs'|]. split; [auto|]. split; [auto|].
    exists (l ++ l'). split; [rewrite Hl', Hl; symmetry; apply app_assoc|].
    rewrite forallb_app, Hr, Hr'. reflexivity.
Qed.

Lemma steady_runMicrotasks st : steady st (runMicrotasks st).
Proof.
  unfold runMicrotasks.
  pose proof (steady_react (alternatives st) st) as Hr.
  destruct (react _ _) as [rest st']. cbn [snd] in Hr.
  eapply steady_trans; [exact Hr | apply steady_alternatives].
Qed.

(** Whatever is asked of a new package manager, and in whatever order
    processes end, every process it starts runs a subcommand of apm with
    [--no-color] as the last argument, and every event it emits has one of
    the twenty-three names of its vocabulary. *)
Theorem session_effects_regular (requests : list Request) (h : H) :
  let st := session requests (newPackageManager h) in
  (∀ args auto,
     Spawn args auto ∈ trace st →
     last args = Some "--no-color" ∧
     ∃ command, head args = Some command ∧ command ∈ apmCommands) ∧
  (∀ eventName payload, Emit eventName payload ∈ trace st → eventName ∈ eventNames).
Proof.
  cbn zeta.
  destruct (session_keeps requests (newPackageManager h) (sound_new h))
    as (_ & _ & _ & l & Hl & Hr).
  assert (Hall : ∀ e, e ∈ trace (session requests (newPackageManager h)) →
                      regular e = true).
  { intros e He. rewrite Hl in He. apply elem_of_app in He as [He|He].
    - cbn in He. apply list_elem_of_singleton in He as ->. reflexivity.
    - rewrite forallb_forall in Hr. apply Hr. apply list_elem_of_In. exact He. }
  split.
  - intros args auto He. specialize (Hall _ He). cbn [regular] in Hall.
    apply andb_true_iff in Hall as [Hlast Hhead].
    apply bool_decide_eq_true in Hlast. split; [exact Hlast|].
    destruct (head args) as [command|]; [|discriminate].
    exists command. split; [reflexivity|]. apply bool_decide_eq_true in Hhead. exact Hhead.
  - intros eventName payload He. specialize (Hall _ He). cbn [regular] in Hall.
    apply bool_decide_eq_true in Hall. exact Hall.
Qed.

(** In every session the promises that [getPackage] stored by name exist,
    and no promise is stored under two names. *)
Theorem session_promises_by_name (requests : list Request) (h : H) :
  let st := session requests (newPackageManager h) in
  ∀ x p,
    packagePromises st !! x = Some p →
    is_Some (promises st !! p) ∧
    ∀ y, packagePromises st !! y = Some p → y = x.
Proof.
  cbn zeta.
  destruct (session_keeps requests (newPackageManager h) (sound_new h))
    as ((_ & Hex & Hinj) & _).
  intros x p Hx. split; [apply (Hex x p Hx)|].
  intros y Hy. apply (Hinj y x p Hy Hx).
Qed.

(** The answer of [getPackage] is for good.  The first call for a name
    that is no member of an array on the engine of the host leaves a
    pending promise; when the [apm view] it started ends, the promise is
    fulfilled with the parsed output if apm exited with code 0 and
    printed JSON, and rejected otherwise with the error of the load;
    whatever is asked afterwards, [getPackage] returns this promise,
    settled as it was, and starts no further process for the name. *)
Theorem getPackage_settles_for_good (requests more : list Request) (h : H)
    (x : string) (outcome : Outcome) (now : Z)
    (Hx : x ∉ arrayMembers)
    (Hengine : x ∉ furtherArrayMembers)
    (Hfirst : packagePromises (session requests (newPackageManager h)) !! x = None) :
  let st := session requests (newPackageManager h) in
  let p := nextPromise st in
  let st1 := (getPackage x st).2 in
  let proc := (loadPackage x (Settle p) st).1 in
  let st2 := deliver proc outcome now st1 in
  let st3 := session more st2 in
  let s :=
    match owed ("Fetching package '" +:+ x +:+ "' failed.") outcome with
    | (Some error, _) => Rejected error
    | (None, result) => Fulfilled result
    end in
  promises st1 !! p = Some Pending ∧
  promises st2 !! p = Some s ∧
  promises st3 !! p = Some s ∧
  getPackage x st3 = (PromiseRef p, st3).
Proof.
  cbn zeta. set (st := session requests (newPackageManager h)) in *.
  destruct (session_keeps requests (newPackageManager h) (sound_new h))
    as (Hsound & _). fold st in Hsound.
  destruct (serve_keeps st (CallGetPackage x) Hsound) as (Hsound1 & _).
  cbn [serve] in Hsound1.
  destruct (getPackage_step x st) as (s1 & _ & _ & _ & _ & Hpp). cbn zeta in Hpp.
  assert (Hnew : packagePromises (getPackage x st).2 !! x = Some (nextPromise st) ∧
                 promises (getPackage x st).2 !! nextPromise st = Some Pending).
  { unfold getPackage in *. rewrite Hfirst in *.
    destruct (decide (x ∈ arrayMembers)); [contradiction|].
    destruct (decide (x ∈ furtherArrayMembers)); [contradiction|].
    cbn. rewrite !lookup_insert_eq. split; reflexivity. }
  clear Hpp. destruct Hnew as [Hstored Hpend].
  set (st1 := (getPackage x st).2) in *.
  split; [exact Hpend|].
  set (proc := (loadPackage x (Settle (nextPromise st)) st).1).
  set (s := match owed ("Fetching package '" +:+ x +:+ "' failed.") outcome with
            | (Some error, _) => Rejected error
            | (None, result) => Fulfilled result
            end).
  assert (Hs : promises (complete proc outcome now st1) !! nextPromise st = Some s).
  { subst proc s. unfold loadPackage, runApmCommandAndParseJSON, runCommand. cbn [fst].
    destruct outcome as [code out err|reason]; cbn [complete exit owed].
    - destruct (decide (code = 0)) as [->|Hne].
      + destruct (JSON_parse out) as [m|[|items|text]]; cbn [call];
          unfold settle; rewrite Hpend; cbn; rewrite lookup_insert_eq; reflexivity.
      + cbn [call]. unfold settle. rewrite Hpend. cbn. rewrite lookup_insert_eq.
        reflexivity.
    - cbn [handleProcessErrors onError call]. unfold settle. rewrite Hpend. cbn.
      rewrite lookup_insert_eq. reflexivity. }
  assert (Hsettled : s ≠ Pending).
  { subst s. destruct (owed _ outcome) as [[e|] v]; discriminate. }
  destruct (serve_keeps st1 (Completes proc outcome now) Hsound1) as (Hsound2 & Hkeep2 & _).
  cbn [serve] in Hsound2, Hkeep2.
  assert (Hs2 : promises (deliver proc outcome now st1) !! nextPromise st = Some s).
  { unfold deliver.
    destruct (steady_runMicrotasks (complete proc outcome now st1))
      as (_ & _ & Hset & _).
    apply Hset; [exact Hs | exact Hsettled|].
    destruct (steady_complete proc outcome now st1) as (_ & Hn & _ & Hb & _).
    apply Hb; [apply Hsound1 | eauto]. }
  split; [exact Hs2|].
  destruct (session_keeps more _ Hsound2) as (_ & Hkeep3 & Hset3 & _).
  split; [apply Hset3; assumption|].
  unfold getPackage. rewrite (Hkeep3 x _ (Hkeep2 x _ Hstored)). reflexivity.
Qed.

End Sessions.

(** ** Callbacks *)

Section Callbacks.
Context {H : Type} `{Atom H}.
Implicit Types st : PackageManager H.

(** A load through [runApmCommandAndParseJSON] starts one process, apm
    with the arguments of the load and [--no-color], and nothing else;
    when the process ends, however it ends, the callback is called
    exactly once, no event is emitted and the outdated cache is not
    touched.  The callback gets the parsed output (the empty array for a
    falsy one) when apm exited with code 0 and printed JSON; otherwise it
    gets no result and an error with the message of the load, which
    carries the message of the parser and the output, or the output and
    the error output of apm, or the reason the process could not start. *)
Theorem query_calls_back_once (q : Query) (f : nat) (st st2 : PackageManager H)
    (outcome : Outcome) (now : Z) :
  let args :=
    match q with
    | Installed => ["ls"; "--json"]
    | Featured loadThemes =>
        ["featured"; "--json"] ++ (if loadThemes then ["--themes"] else []) ++
        (if semver_valid (getVersion (host st))
         then ["--compatible"; getVersion (host st)] else [])
    | Package packageName => ["view"; packageName; "--json"]
    | CompatiblePackageVersion packageName =>
        ["view"; packageName; "--json"; "--compatible";
         normalizeVersion (getVersion (host st))]
    end in
  let m :=
    match q with
    | Installed => "Fetching local packages failed."
    | Featured _ => "Fetching featured packages failed."
    | Package packageName | CompatiblePackageVersion packageName =>
        "Fetching package '" +:+ packageName +:+ "' failed."
    end in
  let '(proc, st1) := load q (UserFunction f) st in
  let st3 := complete proc outcome now st2 in
  since st st1 =
    [Spawn (args ++ ["--no-color"])
       (negb (useProxySettingsWhenCallingApm (host st)))] ∧
  apmCache_loadOutdated st3 = apmCache_loadOutdated st2 ∧
  since st2 st3 = [Called f (owed m outcome).1 (owed m outcome).2].
Proof.
  assert (Hgen : ∀ args m,
    let '(proc, st1) := runApmCommandAndParseJSON args m (UserFunction f) st in
    let st3 := complete proc outcome now st2 in
    since st st1 =
      [Spawn (args ++ ["--no-color"])
         (negb (useProxySettingsWhenCallingApm (host st)))] ∧
    apmCache_loadOutdated st3 = apmCache_loadOutdated st2 ∧
    since st2 st3 = [Called f (owed m outcome).1 (owed m outcome).2]).
  { intros args m. unfold runApmCommandAndParseJSON, runCommand. cbn zeta.
    split; [apply since_app; reflexivity|].
    destruct outcome as [code out err|reason]; cbn [complete exit owed].
    - destruct (decide (code = 0)) as [->|Hne].
      + destruct (JSON_parse out) as [parseError|[|items|text]];
          (split; [reflexivity|]); apply since_app; reflexivity.
      + split; [reflexivity|]. apply since_app. reflexivity.
    - cbn [handleProcessErrors onError]. split; [reflexivity|].
      apply since_app. reflexivity. }
  cbn zeta.
  destruct q as [|loadThemes|x|x]; cbn [load];
    unfold loadInstalled, loadFeatured, loadPackage, loadCompatiblePackageVersion,
      compatibleArgs; cbn zeta; apply Hgen.
Qed.

(** A lifecycle operation calls its callback exactly once.  On success
    the cache is cleared, then the callback is called without an error,
    then the success event is emitted; on failure the failure event comes
    first and the callback second, both with the same error, which
    carries the message of the operation and the text of the failure, and
    for install and update the flag that tells a package from a theme. *)
Theorem lifecycle_calls_back_once (op : Operation) (f : nat)
    (st0 st : PackageManager H) (outcome : Outcome) (now : Z) :
  let proc := (start op (Some (UserFunction f)) st0).1 in
  let tr := since st (complete proc outcome now st) in
  if ok outcome then
    ∃ pack',
      tr = [CacheWrite None 0; Called f None Undefined;
            Emit (terminal op outcome) (PackEvent pack' None)]
  else
    ∃ error,
      tr = [Emit (terminal op outcome) (PackEvent (packOf op) (Some error));
            Called f (Some error) Undefined] ∧
      message error = errorMessageOf proc ∧
      stderr error =
        match outcome with
        | Exit _ _ err => err
        | WillThrowError reason => reason
        end ∧
      packageInstallError error =
        match op with
        | Uninstall _ => None
        | _ => Some (negb (theme (packOf op)))
        end.
Proof.
  cbn zeta. destruct (ok outcome) eqn:Hok.
  - destruct outcome as [code out err|]; [|discriminate].
    apply bool_decide_eq_true in Hok. subst code.
    destruct (trace_complete_success op (Some (UserFunction f)) st0 st out err now)
      as (pack' & Hend).
    exists pack'. apply since_app. exact Hend.
  - assert (Hterm : terminal op outcome = kind (packOf op) +:+ failed op).
    { unfold terminal. rewrite Hok.
      destruct op, outcome as [[| |] ? ?|]; try reflexivity.
      vm_compute in Hok. discriminate. }
    rewrite Hterm. destruct outcome as [code out err|reason].
    + cbn [ok] in Hok. apply bool_decide_eq_false in Hok.
      destruct op as [pack|pack|pack v]; cbn [start];
        unfold install, uninstall, update, runCommand; cbn [fst];
        cbn [complete exit packOf failed];
        (destruct (decide (code = 0)) as [?|_]; [contradiction|]);
        repeat match goal with
               | |- context [if ?c then onHost _ _ else _] => destruct c
               end;
        cbn [onError callIfFunction call]; eexists;
        (split; [apply since_app;
                 cbn [trace record onHost]; rewrite trace_emitPackageEvent;
                 cbn [trace onHost]; rewrite <- !app_assoc; reflexivity|]);
        repeat split.
    + destruct op as [pack|pack|pack v]; cbn [start];
        unfold install, uninstall, update, runCommand; cbn [fst];
        cbn [complete handleProcessErrors onError callIfFunction call packOf failed];
        eexists;
        (split; [apply since_app;
                 cbn [trace record]; rewrite trace_emitPackageEvent;
                 rewrite <- !app_assoc; reflexivity|]);
        repeat split.
Qed.

End Callbacks.

Section AlternativeCallback.
Context {H : Type} `{Atom H}.
Implicit Types st : PackageManager H.

(** From [st] to [st'] the user function [f] was called as [l] says. *)
Local Abbreviation calls f st st' l :=
  (∃ tr, trace st' = trace st ++ tr ∧ callsTo f tr = l).

Lemma calls_trans f st st' st'' a b :
  calls f st st' a → calls f st' st'' b → calls f st st'' (a ++ b).
Proof.
  intros (l & Hl & Ha) (k & Hk & Hb). exists (l ++ k). split.
  - rewrite Hk, Hl. symmetry. apply app_assoc.
  - unfold callsTo in *. rewrite List.filter_app, Ha, Hb. reflexivity.
Qed.

Lemma calls_since f st st' l : calls f st st' l → callsTo f (since st st') = l.
Proof. intros (tr & Htr & Hl). rewrite (since_app _ _ _ Htr). exact Hl. Qed.

(** The end of a lifecycle process whose callback settles a promise
    calls no user function. *)
Lemma complete_calls_nothing f op p st0 st outcome now :
  calls f st (complete (start op (Some (Settle p)) st0).1 outcome now st) [].
Proof.
  destruct (ok outcome) eqn:Hok.
  - destruct outcome as [code out err|]; [|discriminate].
    apply bool_decide_eq_true in Hok. subst code.
    destruct (trace_complete_success op (Some (Settle p)) st0 st out err now)
      as (pack' & Hend).
    eexists. split; [exact Hend | reflexivity].
  - destruct (trace_complete_failure op (Some (Settle p)) st0 st outcome now Hok)
      as (error & Hend).
    eexists. split; [exact Hend | reflexivity].
Qed.

(** The reactions of one pending [Promise.all] whose callback is the user
    function [f]. *)
Lemma runMicrotasks_calls f st job su si :
  alternatives st = [job] →
  alternativeCallback job = UserFunction f →
  promises st !! uninstallPromise job = Some su →
  promises st !! installPromise job = Some si →
  let st' := runMicrotasks st in
  let arg := EventArg (eventPack job) (eventAlternative job) in
  match su, si with
  | Rejected e, _ => calls f st st' [Called f (Some e) arg]
  | Fulfilled _, Rejected e | Pending, Rejected e =>
      calls f st st' [Called f (Some e) arg]
  | Fulfilled _, Fulfilled _ => calls f st st' [Called f None arg]
  | _, _ => calls f st st' []
  end.
Proof.
  intros Hjob Hf Hu Hi. cbn zeta. unfold runMicrotasks. rewrite Hjob. cbn [react].
  rewrite Hu, Hi.
  assert (Hfail : ∀ e,
    calls f st (alternativeFailed job e st)
      [Called f (Some e) (EventArg (eventPack job) (eventAlternative job))]).
  { intros e. unfold alternativeFailed. rewrite Hf. eexists. split.
    - cbn [trace record call]. rewrite <- !app_assoc. reflexivity.
    - cbn. rewrite (bool_decide_eq_true_2 _ eq_refl). reflexivity. }
  assert (Hdone :
    calls f st (alternativeInstalled job st)
      [Called f None (EventArg (eventPack job) (eventAlternative job))]).
  { unfold alternativeInstalled. rewrite Hf. eexists. split.
    - cbn [trace record call]. rewrite <- !app_assoc. reflexivity.
    - cbn. rewrite (bool_decide_eq_true_2 _ eq_refl). reflexivity. }
  destruct su, si; cbn [react trace];
    first [ apply Hfail | apply Hdone
          | exists []; split; [symmetry; apply app_nil_r | reflexivity] ].
Qed.

(** The two turns that end an [installAlternative] with callback [f]. *)
Lemma alternative_calls f op1 op2 p q sa sb st job o1 o2 t1 t2 :
  alternatives st = [job] →
  alternativeCallback job = UserFunction f →
  uninstallPromise job = p ∧ installPromise job = q ∨
  uninstallPromise job = q ∧ installPromise job = p →
  p ≠ q →
  promises st !! p = Some Pending →
  promises st !! q = Some Pending →
  let st1 := deliver (start op1 (Some (Settle p)) sa).1 o1 t1 st in
  let st2 := deliver (start op2 (Some (Settle q)) sb).1 o2 t2 st1 in
  let arg := EventArg (eventPack job) (eventAlternative job) in
  if ok o1 then
    callsTo f (since st st1) = [] ∧
    ∃ error, callsTo f (since st1 st2) = [Called f error arg] ∧
             (error = None ↔ ok o2 = true)
  else
    (∃ e, callsTo f (since st st1) = [Called f (Some e) arg]) ∧
    callsTo f (since st1 st2) = [].
Proof.
  intros Hjob Hf Hrole Hpq Hp Hq. cbn zeta.
  (* first turn *)
  destruct (complete_settles op1 p sa st o1 t1) as ((s1 & Hs1 & Hprom1) & Halt1 & _).
  pose proof (complete_calls_nothing f op1 p sa st o1 t1) as Hc1.
  pose proof (deliver_settling op1 p q sa st job o1 t1 Pending Hjob Hrole Hpq Hp Hq) as Hd1.
  cbn zeta in Hd1. unfold deliver in *.
  set (c1 := complete (start op1 (Some (Settle p)) sa).1 o1 t1 st) in *.
  rewrite promises_settle, Hp in Hprom1. rewrite Hjob in Halt1.
  assert (Hp1 : promises c1 !! p = Some s1) by (rewrite Hprom1; apply lookup_insert_eq).
  assert (Hq1 : promises c1 !! q = Some Pending)
    by (rewrite Hprom1, lookup_insert_ne by exact Hpq; exact Hq).
  assert (Hrun1 :
    if ok o1 then calls f c1 (runMicrotasks c1) []
    else ∃ e, calls f c1 (runMicrotasks c1)
                [Called f (Some e) (EventArg (eventPack job) (eventAlternative job))]).
  { destruct Hrole as [[Hu Hi]|[Hu Hi]].
    - pose proof (runMicrotasks_calls f c1 job s1 Pending Halt1 Hf) as Hr.
      rewrite Hu, Hi in Hr. specialize (Hr Hp1 Hq1). cbn zeta in Hr.
      destruct (ok o1); [subst s1; exact Hr|]. destruct Hs1 as [e ->]. eauto.
    - pose proof (runMicrotasks_calls f c1 job Pending s1 Halt1 Hf) as Hr.
      rewrite Hu, Hi in Hr. specialize (Hr Hq1 Hp1). cbn zeta in Hr.
      destruct (ok o1); [subst s1; exact Hr|]. destruct Hs1 as [e ->]. eauto. }
  set (st1 := runMicrotasks c1) in *.
  destruct (ok o1).
  - destruct Hd1 as (Ha1 & Hpr1 & _).
    split; [apply calls_since, (calls_trans _ _ _ _ _ _ Hc1 Hrun1)|].
    (* second turn, the alternative still pending *)
    destruct (complete_settles op2 q sb st1 o2 t2) as ((s2 & Hs2 & Hprom2) & Halt2 & _).
    pose proof (complete_calls_nothing f op2 q sb st1 o2 t2) as Hc2.
    set (c2 := complete (start op2 (Some (Settle q)) sb).1 o2 t2 st1) in *.
    assert (Hq1' : promises st1 !! q = Some Pending)
      by (rewrite Hpr1, lookup_insert_ne by exact Hpq; exact Hq).
    rewrite promises_settle, Hq1' in Hprom2. rewrite Ha1 in Halt2.
    assert (Hq2 : promises c2 !! q = Some s2) by (rewrite Hprom2; apply lookup_insert_eq).
    assert (Hp2 : promises c2 !! p = Some (Fulfilled Undefined)).
    { rewrite Hprom2, lookup_insert_ne by (intros ->; apply Hpq; reflexivity).
      rewrite Hpr1. apply lookup_insert_eq. }
    destruct Hrole as [[Hu Hi]|[Hu Hi]].
    + pose proof (runMicrotasks_calls f c2 job (Fulfilled Undefined) s2 Halt2 Hf) as Hr.
      rewrite Hu, Hi in Hr. specialize (Hr Hp2 Hq2). cbn zeta in Hr.
      destruct (ok o2).
      * subst s2. eexists. split; [apply calls_since, (calls_trans _ _ _ _ _ _ Hc2 Hr)|].
        tauto.
      * destruct Hs2 as [e ->]. eexists.
        split; [apply calls_since, (calls_trans _ _ _ _ _ _ Hc2 Hr)|].
        split; discriminate.
    + pose proof (runMicrotasks_calls f c2 job s2 (Fulfilled Undefined) Halt2 Hf) as Hr.
      rewrite Hu, Hi in Hr. specialize (Hr Hq2 Hp2). cbn zeta in Hr.
      destruct (ok o2).
      * subst s2. eexists. split; [apply calls_since, (calls_trans _ _ _ _ _ _ Hc2 Hr)|].
        tauto.
      * destruct Hs2 as [e ->]. eexists.
        split; [apply calls_since, (calls_trans _ _ _ _ _ _ Hc2 Hr)|].
        split; discriminate.
  - destruct Hd1 as (Ha1 & _). destruct Hrun1 as (e & Hrun1).
    split; [exists e; apply calls_since, (calls_trans _ _ _ _ _ _ Hc1 Hrun1)|].
    destruct (complete_settles op2 q sb st1 o2 t2) as (_ & Halt2 & _).
    pose proof (complete_calls_nothing f op2 q sb st1 o2 t2) as Hc2.
    rewrite Ha1 in Halt2.
    assert (Hidle : calls f (complete (start op2 (Some (Settle q)) sb).1 o2 t2 st1)
                      (runMicrotasks (complete (start op2 (Some (Settle q)) sb).1 o2 t2 st1)) []).
    { unfold runMicrotasks. rewrite Halt2. cbn [react trace].
      exists []. split; [symmetry; apply app_nil_r | reflexivity]. }
    apply calls_since, (calls_trans _ _ _ _ _ _ Hc2 Hidle).
Qed.

(** [installAlternative] calls its callback exactly once, in whichever
    order the uninstall and the install end: without an error in the turn
    in which the second of them succeeds after the first did, and with an
    error in the turn in which the first of them fails; a later end of the
    other operation does not call it again. *)
Theorem alternative_calls_back_once (pack : Pack) (alternativePackageName : string)
    (f : nat) (st : PackageManager H) (uo io : Outcome) (t1 t2 : Z)
    (Hidle : alternatives st = []) :
  let '(uninstallProcess, installProcess, st1) :=
    installAlternative pack alternativePackageName (UserFunction f) st in
  let arg := EventArg pack alternativePackageName in
  callsTo f (since st st1) = [] ∧
  (let stU := deliver uninstallProcess uo t1 st1 in
   let stUI := deliver installProcess io t2 stU in
   if ok uo then
     callsTo f (since st1 stU) = [] ∧
     ∃ error, callsTo f (since stU stUI) = [Called f error arg] ∧
              (error = None ↔ ok io = true)
   else
     (∃ e, callsTo f (since st1 stU) = [Called f (Some e) arg]) ∧
     callsTo f (since stU stUI) = []) ∧
  (let stI := deliver installProcess io t1 st1 in
   let stIU := deliver uninstallProcess uo t2 stI in
   if ok io then
     callsTo f (since st1 stI) = [] ∧
     ∃ error, callsTo f (since stI stIU) = [Called f error arg] ∧
              (error = None ↔ ok uo = true)
   else
     (∃ e, callsTo f (since st1 stI) = [Called f (Some e) arg]) ∧
     callsTo f (since stI stIU) = []).
Proof.
  pose proof (installAlternative_starts pack alternativePackageName (UserFunction f) st Hidle)
    as Hstart. cbn zeta in Hstart. destruct Hstart as (sa & sb & Hstart).
  assert (Hquiet : callsTo f
    (since st (installAlternative pack alternativePackageName (UserFunction f) st).2) = []).
  { unfold installAlternative. cbn [newPromise].
    unfold uninstall, install, runCommand, emitPackageEvent.
    cbn [snd trace record]. rewrite trace_unload.
    destruct (isPackageActive (name pack) _); cbn [trace record onHost];
      (erewrite since_app; [|rewrite <- !app_assoc; reflexivity]); reflexivity. }
  destruct (installAlternative pack alternativePackageName (UserFunction f) st)
    as [[pu pi] st1].
  destruct Hstart as (-> & -> & Hprom & Halt & _). cbn [snd] in Hquiet.
  cbn zeta.
  assert (Hne : nextPromise st ≠ S (nextPromise st)) by lia.
  assert (Hu : promises st1 !! nextPromise st = Some Pending).
  { rewrite Hprom, lookup_insert_ne by lia. apply lookup_insert_eq. }
  assert (Hi : promises st1 !! S (nextPromise st) = Some Pending).
  { rewrite Hprom. apply lookup_insert_eq. }
  split; [exact Hquiet|].
  set (job := {| uninstallPromise := nextPromise st;
                 installPromise := S (nextPromise st);
                 eventPack := pack;
                 eventAlternative := alternativePackageName;
                 alternativeCallback := UserFunction f |}) in *.
  split.
  - exact (alternative_calls f (Uninstall pack) (Install (plain alternativePackageName))
             _ _ sa sb st1 job uo io t1 t2 Halt eq_refl
             (or_introl (conj eq_refl eq_refl)) Hne Hu Hi).
  - exact (alternative_calls f (Install (plain alternativePackageName)) (Uninstall pack)
             _ _ sb sa st1 job io uo t1 t2 Halt eq_refl
             (or_intror (conj eq_refl eq_refl)) (not_eq_sym Hne) Hi Hu).
Qed.

End AlternativeCallback.

Section Requery.
Context {H : Type} `{Atom H}.
Implicit Types st : PackageManager H.





End Requery.

(** ** Stamps: the decimal text of a time *)

Section Stamps.

Lemma digit_pretty_N_char (d : N) :
  (d < 10)%N → digit (pretty_N_char d) = Some (Z.of_N d).
Proof.
  intros Hd.
  assert (d = 0 ∨ d = 1 ∨ d = 2 ∨ d = 3 ∨ d = 4 ∨ d = 5 ∨ d = 6 ∨ d = 7 ∨ d = 8 ∨ d = 9)%N
    as Hcases by lia.
  repeat (destruct Hcases as [->|Hcases]; [reflexivity|]). subst d. reflexivity.
Qed.

(** The digits are written in front of the text that follows. *)
Lemma pretty_N_go_append (x : N) : ∀ s, pretty_N_go x s = pretty_N_go x "" +:+ s.
Proof.
  induction (N.lt_wf_0 x) as [x _ IH]. intros s.
  destruct (decide (x = 0%N)) as [->|Hx]; [reflexivity|].
  rewrite (pretty_N_go_step x s), (pretty_N_go_step x "") by lia.
  assert (Hlt : (x `div` 10 < x)%N) by (apply N.div_lt; lia).
  rewrite (IH _ Hlt (String _ s)), (IH _ Hlt (String _ "")).
  rewrite append_assoc. reflexivity.
Qed.

Lemma pretty_N_go_snoc (x : N) :
  (0 < x)%N →
  pretty_N_go x "" =
  pretty_N_go (x `div` 10) "" +:+ String (pretty_N_char (x `mod` 10)) "".
Proof.
  intros Hx. rewrite pretty_N_go_step by exact Hx. apply pretty_N_go_append.
Qed.

Lemma pretty_N_go_digits (x : N) c :
  c ∈ list_ascii_of_string (pretty_N_go x "") → is_Some (digit c).
Proof.
  induction (N.lt_wf_0 x) as [x _ IH].
  destruct (decide (x = 0%N)) as [->|Hx]; [intros Hin; inversion Hin|].
  rewrite pretty_N_go_snoc, chars_append by lia. intros Hin.
  apply elem_of_app in Hin as [Hin|Hin].
  - apply (IH (x `div` 10)%N); [apply N.div_lt; lia | exact Hin].
  - apply list_elem_of_singleton in Hin as ->.
    rewrite digit_pretty_N_char by (apply N.mod_lt; lia). eauto.
Qed.

Lemma digits_append p s acc :
  (∀ c, c ∈ list_ascii_of_string p → is_Some (digit c)) →
  digits acc (p +:+ s) = digits (digits acc p) s.
Proof.
  revert acc. induction p as [|c p IH]; intros acc Hp; [reflexivity|].
  change (String c p +:+ s) with (String c (p +:+ s)). cbn [digits].
  destruct (Hp c) as [d Hd]; [left|]. rewrite Hd.
  apply IH. intros c' Hc'. apply Hp. right. exact Hc'.
Qed.

Lemma digits_pretty_N_go (x : N) : digits 0 (pretty_N_go x "") = Z.of_N x.
Proof.
  induction (N.lt_wf_0 x) as [x _ IH].
  destruct (decide (x = 0%N)) as [->|Hx]; [reflexivity|].
  rewrite pretty_N_go_snoc by lia.
  rewrite digits_append by (intros c; apply pretty_N_go_digits).
  rewrite IH by (apply N.div_lt; lia). cbn [digits].
  rewrite digit_pretty_N_char by (apply N.mod_lt; lia).
  rewrite (N.div_mod x 10) at 3 by lia. lia.
Qed.

(** The text of a time holds decimal digits only, and at least one. *)
Lemma pretty_digits (t : Z) :
  0 ≤ t →
  pretty t ≠ "" ∧ ∀ c, c ∈ list_ascii_of_string (pretty t) → is_Some (digit c).
Proof.
  intros Ht. destruct t as [|p|p]; [| |lia].
  - split; [discriminate|]. intros c Hc.
    apply list_elem_of_singleton in Hc as ->. eexists. reflexivity.
  - change (pretty (Z.pos p)) with (pretty_N_go (N.pos p) "").
    split; [|intros c; apply pretty_N_go_digits].
    rewrite pretty_N_go_snoc by lia.
    destruct (pretty_N_go (N.pos p `div` 10) ""); discriminate.
Qed.

(** [parseInt] reads the text of a time back as that time. *)
Lemma parseInt_pretty (t : Z) : 0 ≤ t → parseInt (pretty t) = Some t.
Proof.
  intros Ht. destruct (pretty_digits t Ht) as [Hne Hdigits].
  assert (Hvalue : digits 0 (pretty t) = t).
  { destruct t as [|p|p]; [reflexivity| |lia].
    change (pretty (Z.pos p)) with (pretty_N_go (N.pos p) "").
    rewrite digits_pretty_N_go. reflexivity. }
  unfold parseInt. destruct (pretty t) as [|c rest]; [contradiction|].
  destruct (Hdigits c) as [d Hd]; [left|]. rewrite Hd, Hvalue. reflexivity.
Qed.

Lemma pretty_without (t : Z) (sep : ascii) :
  0 ≤ t → digit sep = None → sep ∉ list_ascii_of_string (pretty t).
Proof.
  intros Ht Hsep Hin. destruct (pretty_digits t Ht) as [_ Hdigits].
  destruct (Hdigits _ Hin) as [d Hd]. congruence.
Qed.

(** The last part of a split is what follows the last separator. *)
Lemma last_split_append sep a b :
  sep ∉ list_ascii_of_string b →
  last (split sep (a +:+ String sep b)) = Some b.
Proof.
  intros Hb. induction a as [|c a IH].
  - change ("" +:+ String sep b) with (String sep b). cbn [split].
    rewrite decide_True by reflexivity. rewrite (split_none _ _ Hb). reflexivity.
  - change (String c a +:+ String sep b) with (String c (a +:+ String sep b)).
    cbn [split]. pose proof (split_nonempty sep (a +:+ String sep b)) as Hne.
    destruct (decide (c = sep)).
    + destruct (split sep (a +:+ String sep b)) as [|part parts] eqn:Hs;
        [contradiction|]. exact IH.
    + destruct (split sep (a +:+ String sep b)) as [|part parts] eqn:Hs;
        [contradiction|].
      destruct parts as [|part' parts]; [|exact IH].
      exfalso. cbn in IH. injection IH as ->.
      assert (Hlen : (2 ≤ length (split sep (a +:+ String sep b)))%nat).
      { apply split_two. rewrite chars_append. apply elem_of_app. right. left. }
      rewrite Hs in Hlen. cbn in Hlen. lia.
Qed.

(** The last part of a split of [a +:+ b] ends with [b] when [b] holds
    no separator. *)
Lemma last_split_suffix sep a b :
  sep ∉ list_ascii_of_string b →
  ∃ x, last (split sep (a +:+ b)) = Some (x +:+ b).
Proof.
  intros Hb. induction a as [|c a IH].
  - exists "". change ("" +:+ b) with b. rewrite (split_none _ _ Hb). reflexivity.
  - change (String c a +:+ b) with (String c (a +:+ b)). cbn [split].
    pose proof (split_nonempty sep (a +:+ b)) as Hne.
    destruct IH as (x & IH).
    destruct (decide (c = sep)).
    + destruct (split sep (a +:+ b)) as [|part parts] eqn:Hs; [contradiction|].
      exists x. exact IH.
    + destruct (split sep (a +:+ b)) as [|part parts] eqn:Hs; [contradiction|].
      destruct parts as [|part' parts]; [|exists x; exact IH].
      cbn in IH. injection IH as ->. exists (String c x). reflexivity.
Qed.

(** [cachedAvatar] and [avatar] read from the path [avatarPath] makes the
    time it was made at, whatever the cache path and the login. *)
Lemma stamp_avatarPath cachePath login t :
  0 ≤ t →
  stamp (avatarPath cachePath login t) = pretty t ∧
  stamp (basename (avatarPath cachePath login t)) = pretty t.
Proof.
  intros Ht.
  assert (Hdash : "-"%char ∉ list_ascii_of_string (pretty t))
    by (apply pretty_without; [exact Ht | reflexivity]).
  assert (Hslash : "/"%char ∉ list_ascii_of_string (String "-" (pretty t))).
  { intros Hin. apply elem_of_cons in Hin as [Hin|Hin]; [discriminate|].
    revert Hin. apply pretty_without; [exact Ht | reflexivity]. }
  assert (Hshape : avatarPath cachePath login t =
                   (cachePath +:+ "/" +:+ login) +:+ String "-" (pretty t)).
  { unfold avatarPath. rewrite !append_assoc. reflexivity. }
  rewrite Hshape. unfold stamp, basename. split.
  - rewrite (last_split_append _ _ _ Hdash). reflexivity.
  - destruct (last_split_suffix "/" (cachePath +:+ "/" +:+ login) _ Hslash) as (x & ->).
    cbn [default from_option id].
    rewrite (last_split_append _ _ _ Hdash). reflexivity.
Qed.

(** A text that holds a separator ends with a separator and a part
    without one. *)
Lemma last_separator sep s :
  sep ∈ list_ascii_of_string s →
  ∃ pre t, s = pre +:+ String sep t ∧ sep ∉ list_ascii_of_string t.
Proof.
  induction s as [|c s IH]; cbn [list_ascii_of_string]; intros Hin; [inversion Hin|].
  destruct (decide (sep ∈ list_ascii_of_string s)) as [Hs|Hs].
  - destruct (IH Hs) as (pre & t & -> & Ht). exists (String c pre), t.
    split; [reflexivity | exact Ht].
  - apply elem_of_cons in Hin as [->|Hin]; [|contradiction].
    exists "", s. split; [reflexivity | exact Hs].
Qed.

(** The last part of a split is an end of the text. *)
Lemma last_split_end sep s :
  ∃ pre b, last (split sep s) = Some b ∧ s = pre +:+ b.
Proof.
  destruct (decide (sep ∈ list_ascii_of_string s)) as [Hs|Hs].
  - destruct (last_separator sep s Hs) as (pre & t & -> & Ht).
    exists (pre +:+ String sep ""), t. split; [apply last_split_append, Ht|].
    rewrite append_assoc. reflexivity.
  - exists "", s. rewrite (split_none _ _ Hs). split; reflexivity.
Qed.

(** For a file whose own name holds a hyphen, the stamp of the path is
    the stamp of the name. *)
Lemma stamp_basename p :
  "-"%char ∈ list_ascii_of_string (basename p) → stamp p = stamp (basename p).
Proof.
  unfold basename, stamp.
  destruct (last_split_end "/" p) as (pre & b & -> & Hp). cbn [default from_option id].
  intros Hb. destruct (last_separator _ _ Hb) as (pre' & t & -> & Ht).
  rewrite Hp, <- append_assoc, !(last_split_append _ _ _ Ht). reflexivity.
Qed.

End Stamps.

(** ** Avatars over the files of the cache *)

Section Avatars.

Lemma find_first {A} (P : A → bool) (l : list A) (x : A) :
  find P l = Some x →
  ∃ l1 l2, l = l1 ++ x :: l2 ∧ P x = true ∧ ∀ y, y ∈ l1 → P y = false.
Proof.
  induction l as [|a l IH]; cbn [find]; [discriminate|].
  destruct (P a) eqn:Ha.
  - intros [= ->]. exists [], l. split; [reflexivity|]. split; [exact Ha|].
    intros y Hy. inversion Hy.
  - intros Hfind. destruct (IH Hfind) as (l1 & l2 & -> & Hx & Hl1).
    exists (a :: l1), l2. split; [reflexivity|]. split; [exact Hx|].
    intros y Hy. apply elem_of_cons in Hy as [->|Hy]; [exact Ha | exact (Hl1 y Hy)].
Qed.

Lemma find_nothing {A} (P : A → bool) (l : list A) :
  find P l = None → ∀ y, y ∈ l → P y = false.
Proof.
  induction l as [|a l IH]; cbn [find]; intros Hfind y Hy; [inversion Hy|].
  destruct (P a) eqn:Ha; [discriminate|].
  apply elem_of_cons in Hy as [->|Hy]; [exact Ha | exact (IH Hfind y Hy)].
Qed.

Lemma elem_of_sorted (files : list string) f :
  f ∈ reverse (sort files) ↔ f ∈ files.
Proof.
  rewrite elem_of_reverse. unfold sort.
  rewrite (merge_sort_Permutation String.le files). reflexivity.
Qed.

(** What [avatar] does with the files [glob] found for the login, each
    named with a hyphen as the pattern demands.  It answers with a file
    exactly when one of them is younger than twelve hours, and then with
    the greatest name among the young ones; without a young file it starts
    a download when the system is online and answers [null] when it is
    not.  It never reports an error. *)
Theorem avatar_serves_youngest (login : string) (files : list string)
    (online : bool) (now : Z)
    (Hglob : ∀ f, f ∈ files → "-"%char ∈ list_ascii_of_string (basename f)) :
  match avatar login (inr files) online now with
  | Answer error (Some imagePath) =>
      error = None ∧ imagePath ∈ files ∧ isFresh now imagePath = true ∧
      ∀ f, f ∈ files → isFresh now f = true → String.le f imagePath
  | Answer error None =>
      error = None ∧ online = false ∧ ∀ f, f ∈ files → isFresh now f = false
  | Download login' =>
      login' = login ∧ online = true ∧ ∀ f, f ∈ files → isFresh now f = false
  end.
Proof.
  unfold avatar, cachedAvatar.
  change (λ imagePath : string,
            match parseInt (stamp (basename imagePath)) with
            | Some createdOn => bool_decide (now - createdOn < expiry_ms)
            | None => false
            end) with (isFresh now).
  destruct (find (isFresh now) (reverse (sort files))) as [p|] eqn:Hfind.
  - destruct (find_first _ _ _ Hfind) as (l1 & l2 & Hl & Hp & Hl1).
    assert (Hin : p ∈ files).
    { apply elem_of_sorted. rewrite Hl. apply elem_of_app. right. left. }
    assert (Hstale : match parseInt (stamp p) with
                     | Some createdOn => bool_decide (now - createdOn > expiry_ms)
                     | None => false
                     end = false).
    { rewrite (stamp_basename p (Hglob p Hin)). unfold isFresh in Hp.
      destruct (parseInt (stamp (basename p))) as [c|]; [|reflexivity].
      apply bool_decide_eq_true in Hp. apply bool_decide_eq_false. lia. }
    rewrite Hstale. cbn [negb orb].
    split; [reflexivity|]. split; [exact Hin|]. split; [exact Hp|].
    intros f Hf Hfresh.
    assert (Hsorted : StronglySorted String.le (sort files))
      by (apply StronglySorted_merge_sort; apply _).
    assert (Hshape : sort files = reverse l2 ++ p :: reverse l1).
    { rewrite <- (reverse_involutive (sort files)), Hl, reverse_app, reverse_cons.
      rewrite <- app_assoc. reflexivity. }
    rewrite Hshape in Hsorted.
    apply elem_of_sorted in Hf. rewrite Hl in Hf.
    apply elem_of_app in Hf as [Hf|Hf].
    + rewrite (Hl1 f Hf) in Hfresh. discriminate.
    + apply elem_of_cons in Hf as [->|Hf]; [reflexivity|].
      eapply StronglySorted_app_1_elem_of;
        [exact Hsorted | apply elem_of_reverse; exact Hf | left].
  - assert (Hnone : ∀ f, f ∈ files → isFresh now f = false).
    { intros f Hf. apply (find_nothing _ _ Hfind). apply elem_of_sorted. exact Hf. }
    unfold fetchAndCacheAvatar. destruct online; cbn [negb]; auto.
Qed.

(** The file made for a login at time [t] is what [avatar] answers with
    for the next twelve hours, online or not; after that, [avatar]
    downloads a new one when the system is online and answers [null] when
    it is not. *)
Theorem avatar_serves_written_file (cachePath login : string) (t now : Z)
    (online : bool) (Ht : 0 ≤ t) :
  avatar login (inr [avatarPath cachePath login t]) online now =
  if bool_decide (now - t < expiry_ms)
  then Answer None (Some (avatarPath cachePath login t))
  else if online then Download login else Answer None None.
Proof.
  destruct (stamp_avatarPath cachePath login t Ht) as [Hpath Hname].
  unfold avatar, cachedAvatar.
  change (reverse (sort [avatarPath cachePath login t]))
    with [avatarPath cachePath login t].
  cbn [find]. rewrite Hname, (parseInt_pretty t Ht).
  destruct (bool_decide (now - t < expiry_ms)) eqn:Hfresh.
  - rewrite Hpath, (parseInt_pretty t Ht).
    apply bool_decide_eq_true in Hfresh.
    rewrite (bool_decide_eq_false_2 (now - t > expiry_ms)) by lia. reflexivity.
  - unfold fetchAndCacheAvatar. destruct online; reflexivity.
Qed.

End Avatars.

(** ** The sweep over any directory *)

Section Sweeping.

(** The children of the groups come from the names pushed. *)
Lemma push_children key child files group c :
  group ∈ push key child files → c ∈ group.2 →
  c = child ∨ ∃ group', group' ∈ files ∧ c ∈ group'.2.
Proof.
  induction files as [|[k cs] files IH]; cbn [push].
  - intros Hg Hc. apply list_elem_of_singleton in Hg as ->. cbn [snd] in Hc.
    apply list_elem_of_singleton in Hc. left. exact Hc.
  - destruct (decide (k = key)) as [->|Hne]; intros Hg Hc.
    + apply elem_of_cons in Hg as [->|Hg].
      * cbn [snd] in Hc. apply elem_of_app in Hc as [Hc|Hc].
        -- right. exists (key, cs). split; [left | exact Hc].
        -- apply list_elem_of_singleton in Hc. left. exact Hc.
      * right. exists group. split; [right; exact Hg | exact Hc].
    + apply elem_of_cons in Hg as [->|Hg].
      * right. exists (k, cs). split; [left | exact Hc].
      * destruct (IH Hg Hc) as [->|(group' & Hg' & Hc')]; [left; reflexivity|].
        right. exists group'. split; [right; exact Hg' | exact Hc'].
Qed.

Lemma groupByLogin_children rest :
  ∀ files groups,
    groupByLogin rest files = Some groups →
    ∀ group c, group ∈ groups → c ∈ group.2 →
      (∃ group', group' ∈ files ∧ c ∈ group'.2) ∨
      ∃ f, f ∈ rest ∧ c = loginOf f +:+ "-" +:+ stamp f.
Proof.
  induction rest as [|f rest IH]; intros files groups; cbn [groupByLogin].
  - intros [= <-] group c Hg Hc. left. eauto.
  - intros Hrun group c Hg Hc.
    assert (Hnext : groupByLogin rest
              (push (loginOf f) (loginOf f +:+ "-" +:+ stamp f) files) = Some groups).
    { destruct (decide (loginOf f ∈ files.*1)); [exact Hrun|].
      destruct (decide (loginOf f ∈ objectMembers)); [discriminate | exact Hrun]. }
    destruct (IH _ _ Hnext group c Hg Hc) as [(group' & Hg' & Hc')|(f' & Hf' & ->)].
    + destruct (push_children _ _ _ _ _ Hg' Hc') as [->|Hold].
      * right. exists f. split; [left | reflexivity].
      * left. exact Hold.
    + right. exists f'. split; [right; exact Hf' | reflexivity].
Qed.

(** The first loop throws exactly when it meets a login that every
    object answers to. *)
Lemma groupByLogin_throws rest :
  ∀ files,
    (∀ k, k ∈ files.*1 → k ∉ objectMembers) →
    groupByLogin rest files = None ↔ ∃ f, f ∈ rest ∧ loginOf f ∈ objectMembers.
Proof.
  induction rest as [|f rest IH]; intros files Hkeys; cbn [groupByLogin].
  - split; [discriminate | intros (f & Hf & _); inversion Hf].
  - assert (Hstep : loginOf f ∉ objectMembers →
              (groupByLogin rest
                 (push (loginOf f) (loginOf f +:+ "-" +:+ stamp f) files) = None ↔
               ∃ f', f' ∈ f :: rest ∧ loginOf f' ∈ objectMembers)).
    { intros Hobj. rewrite IH.
      - split.
        + intros (f' & Hf' & Hm). exists f'. split; [right; exact Hf' | exact Hm].
        + intros (f' & Hf' & Hm). apply elem_of_cons in Hf' as [->|Hf'];
            [contradiction|]. eauto.
      - intros k. rewrite keys_push.
        destruct (decide (loginOf f ∈ files.*1)); [apply Hkeys|].
        intros Hk. apply elem_of_app in Hk as [Hk|Hk]; [exact (Hkeys k Hk)|].
        apply list_elem_of_singleton in Hk as ->. exact Hobj. }
    destruct (decide (loginOf f ∈ files.*1)) as [Hin|Hout].
    + apply Hstep, Hkeys, Hin.
    + destruct (decide (loginOf f ∈ objectMembers)) as [Hobj|Hobj]; [|exact (Hstep Hobj)].
      split; [|reflexivity]. intros _. exists f. split; [left | exact Hobj].
Qed.

(** A sweep only removes, and only names it put together from the
    listing.  An entry the file system refuses to unlink stays, and every
    warning is about such an entry, the refusal being another than
    ENOENT; where nothing is refused, nothing is printed.  The sweep
    throws, before it deletes anything, exactly when the listing holds a
    name whose login every object answers to (such as constructor).  When
    the directory could not be read nothing is removed. *)
Theorem sweep_only_removes (cachePath : string) (refused : string → option string)
    (listing : option (list string)) (dir : gset string) :
  match expireAvatarCache cachePath refused listing dir with
  | Some (dir', warnings) =>
      dir' ⊆ dir ∧
      (∀ f, f ∈ default [] listing → loginOf f ∉ objectMembers) ∧
      (∀ g, g ∈ dir → is_Some (refused g) → g ∈ dir') ∧
      (∀ g, g ∈ dir → g ∉ dir' →
         ∃ f, f ∈ default [] listing ∧ g = loginOf f +:+ "-" +:+ stamp f) ∧
      (∀ x, x ∈ warnings →
         ∃ f code,
           f ∈ default [] listing ∧
           (loginOf f +:+ "-" +:+ stamp f ∈ dir') ∧
           refused (loginOf f +:+ "-" +:+ stamp f) = Some code ∧ code ≠ "ENOENT" ∧
           x = "Error deleting avatar (" +:+ code +:+ "): " +:+ cachePath +:+ "/" +:+
               loginOf f +:+ "-" +:+ stamp f)
  | None => ∃ f, f ∈ default [] listing ∧ loginOf f ∈ objectMembers
  end.
Proof.
  unfold expireAvatarCache.
  pose proof (groupByLogin_throws (default [] listing) []) as Hthrows.
  destruct (groupByLogin (default [] listing) []) as [groups|] eqn:Hgroups;
    cbn [mbind option_bind].
  - destruct (sweep_effects cachePath refused groups dir [])
      as (dir' & more & -> & Hmem & Hmore). cbn [app].
    assert (Hstay : ∀ g, g ∈ dir → is_Some (refused g) → g ∈ dir').
    { intros g Hg Hr. apply Hmem. split; [exact Hg|]. intros _ _ _. exact Hr. }
    split; [|split; [|split; [exact Hstay|split]]].
    + intros g Hg. apply Hmem in Hg as [Hg _]. exact Hg.
    + intros f Hf Hobj.
      assert (Hnone : Some groups = None); [|discriminate].
      apply Hthrows; [intros k Hk; inversion Hk | eauto].
    + intros g Hg Hgone.
      destruct (decide (Exists (λ group : string * list string,
                                  g ∈ expired group.2) groups)) as [Hex|Hnex].
      * apply Exists_exists in Hex as (group & Hgroup & Hexp).
        apply elem_of_expired in Hexp.
        destruct (groupByLogin_children _ _ _ Hgroups group g Hgroup Hexp)
          as [(group' & Hg' & _)|Hf]; [inversion Hg' | exact Hf].
      * exfalso. apply Hgone, Hmem. split; [exact Hg|].
        intros group Hgroup Hexp. exfalso. apply Hnex, Exists_exists. eauto.
    + intros x Hx.
      apply Hmore in Hx as (group & child & code & Hgroup & Hexp & Hd & Hc & Hne & ->).
      apply elem_of_expired in Hexp.
      destruct (groupByLogin_children _ _ _ Hgroups group child Hgroup Hexp)
        as [(group' & Hg' & _)|(f & Hf & ->)]; [inversion Hg'|].
      exists f, code. split; [exact Hf|]. split; [|auto].
      apply Hstay; [exact Hd | rewrite Hc; eauto].
  - apply Hthrows; [intros k Hk; inversion Hk | reflexivity].
Qed.

End Sweeping.

(** ** The sweep over the files [avatarPath] names *)

Section Newest.

(** Texts that start alike are ordered as their rests. *)
Lemma compare_append p a b :
  String.compare (p +:+ a) (p +:+ b) = String.compare a b.
Proof.
  induction p as [|c p IH]; [reflexivity|].
  change (String c p +:+ a) with (String c (p +:+ a)).
  change (String c p +:+ b) with (String c (p +:+ b)).
  cbn [String.compare]. unfold Ascii.compare. rewrite N.compare_refl. exact IH.
Qed.

Lemma digit_code c d : digit c = Some d → Z.of_N (N_of_ascii c) = d + 48 ∧ 0 ≤ d ≤ 9.
Proof.
  unfold digit. unfold nat_of_ascii. rewrite N_nat_Z.
  destruct (decide _); [|discriminate]. intros [= <-]. lia.
Qed.

(** The value of a run of digits, by its width. *)
Lemma digits_value s :
  (∀ c, c ∈ list_ascii_of_string s → is_Some (digit c)) →
  ∀ acc,
    0 ≤ digits 0 s < 10 ^ Z.of_nat (String.length s) ∧
    digits acc s = acc * 10 ^ Z.of_nat (String.length s) + digits 0 s.
Proof.
  induction s as [|c s IH]; intros Hs acc.
  - cbn. lia.
  - destruct (Hs c) as [d Hd]; [left|].
    assert (Hrest : ∀ c', c' ∈ list_ascii_of_string s → is_Some (digit c'))
      by (intros c' Hc'; apply Hs; right; exact Hc').
    destruct (digit_code _ _ Hd) as [_ Hrange].
    cbn [digits String.length]. rewrite Hd.
    destruct (IH Hrest (10 * acc + d)) as [Hbound ->].
    destruct (IH Hrest (10 * 0 + d)) as [_ ->].
    rewrite Nat2Z.inj_succ, Z.pow_succ_r by lia.
    split; [nia | ring].
Qed.

(** Runs of digits of one width are ordered as texts the way they are
    ordered as numbers. *)
Lemma compare_digits a :
  ∀ b,
    String.length a = String.length b →
    (∀ c, c ∈ list_ascii_of_string a → is_Some (digit c)) →
    (∀ c, c ∈ list_ascii_of_string b → is_Some (digit c)) →
    String.compare a b = (digits 0 a ?= digits 0 b).
Proof.
  induction a as [|x a IH]; intros [|y b] Hlen Ha Hb; try discriminate.
  - reflexivity.
  - injection Hlen as Hlen.
    destruct (Ha x) as [dx Hdx]; [left|]. destruct (Hb y) as [dy Hdy]; [left|].
    assert (Ha' : ∀ c, c ∈ list_ascii_of_string a → is_Some (digit c))
      by (intros c Hc; apply Ha; right; exact Hc).
    assert (Hb' : ∀ c, c ∈ list_ascii_of_string b → is_Some (digit c))
      by (intros c Hc; apply Hb; right; exact Hc).
    destruct (digit_code _ _ Hdx) as [Hx Hrx]. destruct (digit_code _ _ Hdy) as [Hy Hry].
    cbn [String.compare digits]. rewrite Hdx, Hdy.
    destruct (digits_value a Ha' (10 * 0 + dx)) as [Hva ->].
    destruct (digits_value b Hb' (10 * 0 + dy)) as [Hvb ->].
    rewrite <- Hlen in *. set (w := 10 ^ Z.of_nat (String.length a)) in *.
    unfold Ascii.compare. rewrite <- N2Z.inj_compare, Hx, Hy.
    destruct (Z.compare_spec (dx + 48) (dy + 48)) as [Heq|Hlt|Hgt].
    + assert (dx = dy) as -> by lia. rewrite (IH b Hlen Ha' Hb').
      destruct (Z.compare_spec (digits 0 a) (digits 0 b)); symmetry;
        [apply Z.compare_eq_iff | apply Z.compare_lt_iff | apply Z.compare_gt_iff]; lia.
    + symmetry. apply Z.compare_lt_iff. nia.
    + symmetry. apply Z.compare_gt_iff. nia.
Qed.

(** Names of one login with stamps of one width are ordered as the times
    they were made at. *)
Lemma le_stamps login t t' :
  0 ≤ t → 0 ≤ t' →
  String.length (pretty t) = String.length (pretty t') →
  String.le (login +:+ "-" +:+ pretty t) (login +:+ "-" +:+ pretty t') ↔ t ≤ t'.
Proof.
  intros Ht Ht' Hwidth. unfold String.le, String.leb.
  rewrite <- !append_assoc, compare_append.
  destruct (pretty_digits t Ht) as [_ Hd]. destruct (pretty_digits t' Ht') as [_ Hd'].
  rewrite (compare_digits _ _ Hwidth Hd Hd').
  pose proof (parseInt_pretty t Ht) as Hp. pose proof (parseInt_pretty t' Ht') as Hp'.
  assert (Hv : ∀ u, 0 ≤ u → digits 0 (pretty u) = u).
  { intros u Hu. pose proof (parseInt_pretty u Hu) as Hpu. unfold parseInt in Hpu.
    destruct (pretty u) as [|c r]; [discriminate|].
    destruct (digit c); [|discriminate]. injection Hpu as Hpu. exact Hpu. }
  rewrite (Hv t Ht), (Hv t' Ht').
  destruct (Z.compare_spec t t'); cbn; split; intros; try lia; try exact I; try contradiction.
Qed.

(** What a sweep leaves of a directory: the names outside the listing,
    and of each login of the listing the greatest name. *)
Lemma sweep_kept cachePath refused (listing : list string) (dir : gset string) :
  NoDup listing →
  (∀ f, f ∈ listing → "-"%char ∈ list_ascii_of_string f) →
  (∀ f, f ∈ listing → loginOf f ∉ objectMembers) →
  (∀ f, f ∈ listing → refused f = None) →
  ∃ dir',
    expireAvatarCache cachePath refused (Some listing) dir = Some (dir', []) ∧
    ∀ g, g ∈ dir' ↔
      g ∈ dir ∧
      (g ∈ listing → ∀ f, f ∈ listing → loginOf f = loginOf g → String.le f g).
Proof.
  intros Hdistinct Hnamed Hlogin Hfiles.
  destruct (groupByLogin_spec listing [] []) as (groups & Hgroups & Hnd & Hch & Hkeys).
  { split; [constructor|]. split; [reflexivity|].
    intros k. split; [intros Hin; inversion Hin | intros (c & Hc & _); inversion Hc]. }
  { intros f Hf. split; [apply Hnamed, Hf | apply Hlogin, Hf]. }
  cbn [app] in Hch, Hkeys.
  unfold expireAvatarCache. cbn [default from_option id]. rewrite Hgroups.
  cbn [mbind option_bind].
  assert (Hfree : ∀ group c, group ∈ groups → c ∈ expired group.2 → refused c = None).
  { intros [k cs] c Hg Hc. cbn [snd] in Hc. apply elem_of_expired in Hc.
    rewrite (group_lookup _ _ _ Hnd Hg), Hch in Hc.
    apply list_elem_of_filter in Hc as [_ Hc]. exact (Hfiles c Hc). }
  destruct (sweep_fold cachePath refused groups dir [] Hfree) as [Hw Hmem].
  destruct (foldl _ _ groups) as [dir' w]. cbn [fst snd] in Hw, Hmem. subst w.
  exists dir'. split; [reflexivity|].
  intros g. rewrite Hmem. split.
  - intros [Hg Hkept]. split; [exact Hg|]. intros Hin f Hf Hsame.
    destruct (decide (String.le f g)) as [Hle|Hnle]; [exact Hle|]. exfalso.
    assert (Hk : loginOf g ∈ groups.*1) by (apply Hkeys; eauto).
    apply list_elem_of_fmap in Hk as ([k cs] & Hk & Hgroup). cbn [fst] in Hk. subst k.
    apply (Hkept _ Hgroup). cbn [snd].
    rewrite (group_lookup _ _ _ Hnd Hgroup), Hch.
    apply expired_spec; [apply NoDup_filter, Hdistinct|].
    split; [apply list_elem_of_filter; split; [reflexivity | exact Hin]|].
    exists f. split; [apply list_elem_of_filter; split; assumption | exact Hnle].
  - intros [Hg Hmax]. split; [exact Hg|]. intros [k cs] Hgroup. cbn [snd].
    rewrite (group_lookup _ _ _ Hnd Hgroup), Hch.
    intros Hexp. apply expired_spec in Hexp; [|apply NoDup_filter, Hdistinct].
    destruct Hexp as [Hgk (f & Hf & Hnle)].
    apply list_elem_of_filter in Hgk as [Hgk Hin].
    apply list_elem_of_filter in Hf as [Hfk Hf].
    apply Hnle, Hmax; [exact Hin | exact Hf | congruence].
Qed.

Lemma append_inj_l a b s : a +:+ s = b +:+ s → a = b.
Proof.
  intros Heq. apply (f_equal list_ascii_of_string) in Heq.
  rewrite !chars_append in Heq. apply app_inv_tail in Heq.
  rewrite <- (string_of_list_ascii_of_string a), Heq.
  apply string_of_list_ascii_of_string.
Qed.

(** The name of the file [avatarPath] makes, its login and its stamp. *)
Lemma basename_avatarPath cachePath login t :
  0 ≤ t → "/"%char ∉ list_ascii_of_string login →
  basename (avatarPath cachePath login t) = login +:+ "-" +:+ pretty t.
Proof.
  intros Ht Hlogin. unfold basename, avatarPath.
  change (cachePath +:+ "/" +:+ login +:+ "-" +:+ pretty t)
    with (cachePath +:+ String "/" (login +:+ "-" +:+ pretty t)).
  rewrite last_split_append; [reflexivity|].
  rewrite chars_append. intros Hin. apply elem_of_app in Hin as [Hin|Hin];
    [contradiction|].
  apply elem_of_cons in Hin as [Hin|Hin]; [discriminate|].
  revert Hin. apply pretty_without; [exact Ht | reflexivity].
Qed.

Lemma name_parts login t :
  0 ≤ t →
  "-"%char ∈ list_ascii_of_string (login +:+ "-" +:+ pretty t) ∧
  stamp (login +:+ "-" +:+ pretty t) = pretty t ∧
  loginOf (login +:+ "-" +:+ pretty t) = login.
Proof.
  intros Ht.
  assert (Hdash : "-"%char ∉ list_ascii_of_string (pretty t))
    by (apply pretty_without; [exact Ht | reflexivity]).
  assert (Hin : "-"%char ∈ list_ascii_of_string (login +:+ "-" +:+ pretty t)).
  { rewrite chars_append. apply elem_of_app. right. left. }
  assert (Hstamp : stamp (login +:+ "-" +:+ pretty t) = pretty t).
  { unfold stamp.
    change (login +:+ "-" +:+ pretty t) with (login +:+ String "-" (pretty t)).
    rewrite (last_split_append _ _ _ Hdash). reflexivity. }
  split; [exact Hin|]. split; [exact Hstamp|].
  pose proof (rebuilt _ Hin) as Hre. rewrite Hstamp in Hre.
  exact (append_inj_l _ _ _ Hre).
Qed.

(** With the files named as [avatarPath] names them, which the file
    system lets the client delete, and the stamps of each login of one
    width, a sweep leaves of every login exactly the file made last. *)
Theorem sweep_keeps_newest (cachePath : string) (refused : string → option string)
    (entries : list (string * Z))
    (Hdistinct : NoDup entries)
    (Hmade : ∀ login t, (login, t) ∈ entries →
       0 ≤ t ∧ ("/"%char ∉ list_ascii_of_string login) ∧ (login ∉ objectMembers) ∧
       refused (basename (avatarPath cachePath login t)) = None)
    (Hwidth : ∀ login t t', (login, t) ∈ entries → (login, t') ∈ entries →
       String.length (pretty t) = String.length (pretty t')) :
  let listing := (λ e, basename (avatarPath cachePath e.1 e.2)) <$> entries in
  ∃ dir',
    expireAvatarCache cachePath refused (Some listing) (list_to_set listing) =
      Some (dir', []) ∧
    ∀ g, g ∈ dir' ↔
      ∃ login t,
        (login, t) ∈ entries ∧ g = basename (avatarPath cachePath login t) ∧
        ∀ t', (login, t') ∈ entries → t' ≤ t.
Proof.
  cbn zeta. set (fileName := λ e : string * Z, basename (avatarPath cachePath e.1 e.2)).
  assert (Hname : ∀ login t, (login, t) ∈ entries →
            fileName (login, t) = login +:+ "-" +:+ pretty t).
  { intros login t Hin. destruct (Hmade _ _ Hin) as (Ht & Hslash & _).
    apply basename_avatarPath; assumption. }
  assert (Hparts : ∀ login t, (login, t) ∈ entries →
            "-"%char ∈ list_ascii_of_string (fileName (login, t)) ∧
            stamp (fileName (login, t)) = pretty t ∧ loginOf (fileName (login, t)) = login).
  { intros login t Hin. rewrite (Hname _ _ Hin). apply name_parts.
    apply (Hmade _ _ Hin). }
  assert (Hlisting : ∀ f, f ∈ fileName <$> entries ↔
            ∃ login t, (login, t) ∈ entries ∧ f = fileName (login, t)).
  { intros f. rewrite list_elem_of_fmap. split.
    - intros ([login t] & -> & Hin). eauto.
    - intros (login & t & Hin & ->). eauto. }
  destruct (sweep_kept cachePath refused (fileName <$> entries)
              (list_to_set (fileName <$> entries)))
    as (dir' & Hrun & Hkept).
  - apply NoDup_fmap_2_strong; [|exact Hdistinct].
    intros [login t] [login' t'] Hin Hin' Heq.
    destruct (Hparts _ _ Hin) as (_ & Hs & Hl). destruct (Hparts _ _ Hin') as (_ & Hs' & Hl').
    rewrite Heq in Hs, Hl.
    assert (login = login') as -> by exact (eq_trans (eq_sym Hl) Hl').
    assert (pretty t = pretty t') as Hpretty by exact (eq_trans (eq_sym Hs) Hs').
    rewrite (inj pretty _ _ Hpretty). reflexivity.
  - intros f Hf. apply Hlisting in Hf as (login & t & Hin & ->). apply (Hparts _ _ Hin).
  - intros f Hf. apply Hlisting in Hf as (login & t & Hin & ->).
    destruct (Hparts _ _ Hin) as (_ & _ & ->). apply (Hmade _ _ Hin).
  - intros f Hf. apply Hlisting in Hf as (login & t & Hin & ->).
    destruct (Hmade _ _ Hin) as (_ & _ & _ & Hfile). exact Hfile.
  - exists dir'. split; [exact Hrun|]. intros g. rewrite Hkept, elem_of_list_to_set.
    split.
    + intros [Hg Hmax]. pose proof Hg as Hg'.
      apply Hlisting in Hg' as (login & t & Hin & ->).
      exists login, t. split; [exact Hin|]. split; [reflexivity|].
      intros t' Hin'. destruct (Hparts _ _ Hin) as (_ & _ & Hl).
      destruct (Hparts _ _ Hin') as (_ & _ & Hl').
      assert (Hle : String.le (fileName (login, t')) (fileName (login, t))).
      { apply (Hmax Hg); [apply Hlisting; eauto | exact (eq_trans Hl' (eq_sym Hl))]. }
      rewrite (Hname _ _ Hin), (Hname _ _ Hin') in Hle.
      apply le_stamps in Hle; [exact Hle | apply (Hmade _ _ Hin') | apply (Hmade _ _ Hin)
                              | exact (Hwidth _ _ _ Hin' Hin)].
    + intros (login & t & Hin & -> & Hnewest).
      split; [apply Hlisting; eauto|]. intros _ f Hf Hsame.
      apply Hlisting in Hf as (login' & t' & Hin' & ->).
      destruct (Hparts _ _ Hin) as (_ & _ & Hl). destruct (Hparts _ _ Hin') as (_ & _ & Hl').
      change (basename (avatarPath cachePath login t)) with (fileName (login, t)) in *.
      assert (login' = login) as -> by exact (eq_trans (eq_sym Hl') (eq_trans Hsame Hl)).
      rewrite (Hname _ _ Hin), (Hname _ _ Hin').
      apply le_stamps; [apply (Hmade _ _ Hin') | apply (Hmade _ _ Hin)
                       | exact (Hwidth _ _ _ Hin' Hin) | exact (Hnewest _ Hin')].
Qed.

End Newest.

(** ** The statements at concrete inputs *)

Lemma alternative_terminal_event_witness :
  forallb fromCaller
    [CallInstallAlternative (plain "other") "else" (UserFunction 1)] = true ∧
  (let st := session [CallInstallAlternative (plain "other") "else" (UserFunction 1)]
               (newPackageManager ()) in
   let '(uninstallProcess, installProcess, st1) :=
     installAlternative (plain "old") "new" (UserFunction 0) st in
   let stU := deliver uninstallProcess (Exit 1 "" "boom") 10 st1 in
   length (alternatives st) = 1%nat ∧
   emitted (since st1 stU) =
     ["package-uninstall-failed"; "package-install-alternative-failed"] ∧
   emitted (since stU (deliver installProcess (Exit 0 "[]" "") 20 stU)) =
     ["package-installed"]).
Proof.
  split; [reflexivity|].
  pose proof (alternative_terminal_event
                [CallInstallAlternative (plain "other") "else" (UserFunction 1)] ()
                (plain "old") "new" 0 (Exit 1 "" "boom") (Exit 0 "[]" "") 10 20
                eq_refl) as Hw.
  vm_compute in Hw. vm_compute. split; [reflexivity | exact (proj1 (proj2 Hw))].
Defined.

Lemma outdated_cache_window_witness :
  apmCache_loadOutdated warm =
    {| value := Some [plain "foo"]; expiry := 1000 + CACHE_EXPIRY |} ∧
  2000 - 1000 < 10 * 60 * 1000 ∧
  loadOutdated false (UserFunction 0) 2000 warm =
    (None, call (UserFunction 0) None (Json (JArray [plain "foo"])) warm).
Proof.
  split; [reflexivity|]. split; [lia|].
  exact (proj1 (outdated_cache_window warm [plain "foo"] 1000 2000 (UserFunction 0)
                  eq_refl ltac:(lia))).
Defined.

Lemma outdated_events_witness :
  value (apmCache_loadOutdated warm) = Some [plain "foo"] ∧
  expiry (apmCache_loadOutdated warm) > 2000 ∧
  (let '(proc, st') := loadOutdated false (UserFunction 0) 2000 warm in
   proc = None ∧ emitted (since warm st') = [] ∧
   List.filter isEmit (since warm st') = [] ∧
   apmCache_loadOutdated st' = apmCache_loadOutdated warm).
Proof.
  split; [reflexivity|]. split; [reflexivity|].
  exact (proj1 (outdated_events warm [plain "foo"] 2000 (UserFunction 0)
                  eq_refl eq_refl)).
Defined.

Lemma fetchFromCache_cases_witness :
  (fetchFromCache "packages/x" false false (1000 + expiry_ms + 5) stored).2 =
    CachedData "payload of x" ∧
  (fetchFromCache "packages/x" false true (1000 + expiry_ms + 5) stored).2 = Null ∧
  (fetchFromCache "packages/y" false false 0 stored).2 = EmptyObject.
Proof.
  split; [|split].
  - apply (proj1 (proj2 (fetchFromCache_cases "packages/x" false false
                           (1000 + expiry_ms + 5) stored))
             {| data := "payload of x"; createdOn := 1000 |});
      [vm_compute; reflexivity | left; reflexivity].
  - apply (proj1 (proj2 (proj2 (fetchFromCache_cases "packages/x" false true
                                  (1000 + expiry_ms + 5) stored))));
      [reflexivity | reflexivity |].
    right. exists {| data := "payload of x"; createdOn := 1000 |}.
    split; [vm_compute; reflexivity | vm_compute; discriminate].
  - apply (proj2 (proj2 (proj2 (fetchFromCache_cases "packages/y" false false 0 stored))));
      [reflexivity | vm_compute; reflexivity].
Defined.

Lemma sweep_keeps_greatest_name_witness :
  NoDup sweepInput ∧
  (∀ f, f ∈ sweepInput → "-"%char ∈ list_ascii_of_string f) ∧
  (∀ f, f ∈ sweepInput → loginOf f ∉ objectMembers) ∧
  (∀ f, f ∈ sweepInput → noRefusal f = None) ∧
  ∃ dir',
    expireAvatarCache "/cache" noRefusal (Some sweepInput) (list_to_set sweepInput) =
      Some (dir', []) ∧
    (∀ g, g ∈ dir' ↔
       g ∈ sweepInput ∧
       ∀ f, f ∈ sweepInput → loginOf f = loginOf g → String.le f g) ∧
    (∀ f, f ∈ sweepInput →
       ∃ g, g ∈ dir' ∧ loginOf g = loginOf f ∧
            ∀ g', g' ∈ dir' → loginOf g' = loginOf f → g' = g).
Proof.
  assert (H1 : NoDup sweepInput)
    by (refine (bool_decide_unpack _ _); vm_compute; exact I).
  assert (H2 : ∀ f, f ∈ sweepInput → "-"%char ∈ list_ascii_of_string f)
    by (apply Forall_forall; refine (bool_decide_unpack _ _); vm_compute; exact I).
  assert (H3 : ∀ f, f ∈ sweepInput → loginOf f ∉ objectMembers)
    by (apply Forall_forall; refine (bool_decide_unpack _ _); vm_compute; exact I).
  split; [exact H1|]. split; [exact H2|]. split; [exact H3|].
  split; [intros f _; reflexivity|].
  exact (proj1 (sweep_keeps_greatest_name "/cache" noRefusal sweepInput H1 H2 H3
                  (λ f _, eq_refl))).
Defined.

Lemma getPackage_settles_for_good_witness :
  ("x" ∉ arrayMembers) ∧
  ("x" ∉ furtherArrayMembers (H := unit)) ∧
  packagePromises (session [] (newPackageManager ())) !! "x" = None ∧
  (let st1 := (getPackage "x" (newPackageManager ())).2 in
   let proc := (loadPackage "x" (Settle 0) (newPackageManager ())).1 in
   let st3 := session [CallGetPackage "y"; CallLoadInstalled (UserFunction 1)]
                (deliver proc (Exit 0 "[]" "") 5 st1) in
   promises st3 !! 0%nat = Some (Fulfilled (Json (JArray []))) ∧
   getPackage "x" st3 = (PromiseRef 0, st3)).
Proof.
  assert (Hx : "x" ∉ arrayMembers)
    by (refine (bool_decide_unpack _ _); vm_compute; exact I).
  assert (Hengine : "x" ∉ furtherArrayMembers (H := unit))
    by (refine (bool_decide_unpack _ _); vm_compute; exact I).
  split; [exact Hx|]. split; [exact Hengine|]. split; [reflexivity|].
  destruct (getPackage_settles_for_good []
              [CallGetPackage "y"; CallLoadInstalled (UserFunction 1)] ()
              "x" (Exit 0 "[]" "") 5 Hx Hengine eq_refl) as (_ & _ & Hkept & Hagain).
  split; [exact Hkept | exact Hagain].
Defined.

Lemma alternative_calls_back_once_witness :
  alternatives (newPackageManager ()) = [] ∧
  (let '(uninstallProcess, installProcess, st1) :=
     installAlternative (plain "old") "new" (UserFunction 7) (newPackageManager ()) in
   let stI := deliver installProcess (Exit 0 "[]" "") 10 st1 in
   let stIU := deliver uninstallProcess (Exit 0 "" "") 20 stI in
   callsTo 7 (since st1 stI) = [] ∧
   callsTo 7 (since stI stIU) = [Called 7 None (EventArg (plain "old") "new")]).
Proof.
  split; [reflexivity|].
  pose proof (alternative_calls_back_once (plain "old") "new" 7 (newPackageManager ())
                (Exit 0 "" "") (Exit 0 "[]" "") 10 20 eq_refl) as Hw.
  vm_compute in Hw. vm_compute.
  destruct Hw as (_ & _ & Hfirst & error & Hcall & Hok).
  rewrite (proj2 Hok eq_refl) in Hcall. split; [exact Hfirst | exact Hcall].
Defined.


Lemma getRepositoryUrl_of_ssh_address_witness :
  (":"%char ∉ list_ascii_of_string "atom/settings-view") ∧
  (∃ c, last (list_ascii_of_string "atom/settings-view") = Some c ∧ c ≠ "/"%char) ∧
  getRepositoryUrl (Some (RepositoryString "git@github.com:atom/settings-view.git")) =
    inr "https://github.com/atom/settings-view".
Proof.
  assert (Hcolon : ":"%char ∉ list_ascii_of_string "atom/settings-view")
    by (refine (bool_decide_unpack _ _); vm_compute; exact I).
  assert (Hname : ∃ c, last (list_ascii_of_string "atom/settings-view") = Some c ∧
                       c ≠ "/"%char)
    by (exists "w"%char; split; [reflexivity | discriminate]).
  split; [exact Hcolon|]. split; [exact Hname|].
  exact (proj1 (getRepositoryUrl_of_ssh_address "atom/settings-view" Hcolon Hname)).
Defined.

Lemma package_served_after_request_witness :
  nonEmpty (id "payload of x") = true ∧
  ∃ localStorage',
    request id "packages/x" (inr (Some "payload of x")) 1000 ∅ =
      inr ((None, Some "payload of x"), localStorage') ∧
    package nonEmpty "x" true (1000 + expiry_ms) localStorage' =
      ViaRequest "packages/x".
Proof.
  split; [reflexivity|].
  destruct (package_served_after_request nonEmpty id "x" "payload of x" 1000
              (1000 + expiry_ms) true ∅ eq_refl) as (localStorage' & Hrequest & Hserved).
  exists localStorage'. split; [exact Hrequest | exact Hserved].
Defined.

Lemma featured_served_after_apm_witness :
  nonEmpty "featured themes" = true ∧
  ∃ localStorage',
    featuredSettled true (inr "featured themes") 1000 ∅ =
      ((None, Some "featured themes"), localStorage') ∧
    featuredThemes nonEmpty true 2000 localStorage' =
      Served (CachedData "featured themes").
Proof.
  split; [reflexivity|].
  destruct (proj1 (featured_served_after_apm nonEmpty true "featured themes" 1000 2000
                     true ∅ eq_refl)) as (localStorage' & Hsettled & Hserved).
  exists localStorage'. split; [exact Hsettled | exact Hserved].
Defined.

Lemma request_leaves_other_lookups_witness :
  request id "packages/y" (inr (Some "payload of y")) 2000 stored =
    inr ((None, Some "payload of y"), cache "packages/y" "payload of y" 2000 stored) ∧
  package nonEmpty "x" true 3000 (cache "packages/y" "payload of y" 2000 stored) =
    package nonEmpty "x" true 3000 stored.
Proof.
  split; [reflexivity|].
  apply (proj1 (request_leaves_other_lookups nonEmpty id "y" (inr (Some "payload of y"))
                  2000 stored _ _ eq_refl)).
  discriminate.
Defined.

Lemma avatar_serves_youngest_witness :
  (∀ f, f ∈ ["/cache/a-1000"; "/cache/a-2000"] →
        "-"%char ∈ list_ascii_of_string (basename f)) ∧
  avatar "a" (inr ["/cache/a-1000"; "/cache/a-2000"]) true 3000 =
    Answer None (Some "/cache/a-2000") ∧
  String.le "/cache/a-1000" "/cache/a-2000".
Proof.
  assert (Hglob : ∀ f, f ∈ ["/cache/a-1000"; "/cache/a-2000"] →
                       "-"%char ∈ list_ascii_of_string (basename f))
    by (apply Forall_forall; refine (bool_decide_unpack _ _); vm_compute; exact I).
  split; [exact Hglob|].
  pose proof (avatar_serves_youngest "a" ["/cache/a-1000"; "/cache/a-2000"] true 3000
                Hglob) as Hw.
  destruct (avatar "a" (inr ["/cache/a-1000"; "/cache/a-2000"]) true 3000)
    as [error [imagePath|]|login'] eqn:Hrun; vm_compute in Hrun;
    [|discriminate | discriminate].
  injection Hrun as <- <-. split; [reflexivity|].
  apply (proj2 (proj2 (proj2 Hw))); [left | vm_compute; reflexivity].
Defined.

Lemma avatar_serves_written_file_witness :
  0 ≤ 1000 ∧
  avatar "a" (inr [avatarPath "/cache" "a" 1000]) true (1000 + expiry_ms) =
    Download "a".
Proof.
  split; [lia|].
  exact (avatar_serves_written_file "/cache" "a" 1000 (1000 + expiry_ms) true
           ltac:(lia)).
Defined.

Lemma sweep_keeps_newest_witness :
  NoDup written ∧
  (∀ login t, (login, t) ∈ written →
     0 ≤ t ∧ ("/"%char ∉ list_ascii_of_string login) ∧ (login ∉ objectMembers) ∧
     noRefusal (basename (avatarPath "/cache" login t)) = None) ∧
  (∀ login t t', (login, t) ∈ written → (login, t') ∈ written →
     String.length (pretty t) = String.length (pretty t')) ∧
  ∃ dir',
    expireAvatarCache "/cache" noRefusal (Some ["a-100"; "a-200"; "b-10"])
      (list_to_set ["a-100"; "a-200"; "b-10"]) = Some (dir', []) ∧
    ("a-200" ∈ dir') ∧ ("a-100" ∉ dir').
Proof.
  assert (H1 : NoDup written)
    by (refine (bool_decide_unpack _ _); vm_compute; exact I).
  assert (H2 : ∀ login t, (login, t) ∈ written →
            0 ≤ t ∧ ("/"%char ∉ list_ascii_of_string login) ∧ (login ∉ objectMembers) ∧
            noRefusal (basename (avatarPath "/cache" login t)) = None).
  { assert (Hall : Forall (λ e : string * Z,
              0 ≤ e.2 ∧ ("/"%char ∉ list_ascii_of_string e.1) ∧ (e.1 ∉ objectMembers))
              written)
      by (refine (bool_decide_unpack _ _); vm_compute; exact I).
    intros login t Hin.
    destruct (proj1 (Forall_forall _ _) Hall (login, t) Hin) as (Ht & Hslash & Hobj).
    split; [exact Ht|]. split; [exact Hslash|]. split; [exact Hobj | reflexivity]. }
  assert (H3 : ∀ login t t', (login, t) ∈ written → (login, t') ∈ written →
            String.length (pretty t) = String.length (pretty t')).
  { assert (Hall : Forall (λ e : string * Z, Forall (λ e' : string * Z,
              e.1 = e'.1 → String.length (pretty e.2) = String.length (pretty e'.2))
              written) written)
      by (refine (bool_decide_unpack _ _); vm_compute; exact I).
    intros login t t' Hin Hin'.
    exact (proj1 (Forall_forall _ _)
             (proj1 (Forall_forall _ _) Hall (login, t) Hin) (login, t') Hin' eq_refl). }
  split; [exact H1|]. split; [exact H2|]. split; [exact H3|].
  destruct (sweep_keeps_newest "/cache" noRefusal written H1 H2 H3)
    as (dir' & Hrun & Hkept).
  exists dir'. split; [exact Hrun|]. split.
  - apply Hkept. exists "a", 200. split; [right; left|]. split; [reflexivity|].
    intros t' Hin. repeat (apply elem_of_cons in Hin as [Hin|Hin];
      [first [discriminate Hin | injection Hin as ->; lia]|]); inversion Hin.
  - intros Hin. apply Hkept in Hin as (login & t & Hin & Hname & Hnewest).
    repeat (apply elem_of_cons in Hin as [Hin|Hin];
      [injection Hin as -> ->; vm_compute in Hname; try discriminate Hname|]);
      [|inversion Hin].
    assert (Hle : 200 ≤ 100) by (apply Hnewest; right; left). lia.
Defined.

Lemma session_promises_by_name_witness :
  packagePromises
    (session [CallGetPackage "x"; CallGetPackage "y"] (newPackageManager ())) !! "x" =
    Some 0%nat ∧
  is_Some (promises
    (session [CallGetPackage "x"; CallGetPackage "y"] (newPackageManager ())) !! 0%nat) ∧
  ∀ y,
    packagePromises
      (session [CallGetPackage "x"; CallGetPackage "y"] (newPackageManager ())) !! y =
      Some 0%nat →
    y = "x".
Proof.
  assert (Hx : packagePromises
                 (session [CallGetPackage "x"; CallGetPackage "y"] (newPackageManager ()))
                 !! "x" = Some 0%nat) by (vm_compute; reflexivity).
  split; [exact Hx|].
  exact (session_promises_by_name [CallGetPackage "x"; CallGetPackage "y"] () "x" 0%nat Hx).
Defined.
